(** * Trigg and Peach proof-of-work cores: a shallow embedding

    The development follows [src/src/trigg.c] and [src/src/peach.c].
    Bytes and machine words are integers of [Z] with their wrap-around
    written out; buffers are lists of bytes read with checked lookups and
    written with checked stores, so that an access outside a buffer shows
    as [None]. *)

From Stdlib Require Import ZArith Lia List String Ascii Bool.
From Stdlib Require Import SpecFloat.
From stdpp Require Import base option list gmap.

Local Open Scope Z_scope.

(** ** Machine integers and byte buffers *)

Definition uint8 (x : Z) : Z := x mod 256.
Definition uint32 (x : Z) : Z := x mod 2 ^ 32.

Definition is_byte (b : Z) : Prop := 0 <= b < 256.
Definition bytes (l : list Z) : Prop := Forall is_byte l.

(** [load buf i] is [buf[i]]; [store buf i v] is [buf[i] = v].  Both
    fail outside the buffer. *)
Definition load (buf : list Z) (i : nat) : option Z := buf !! i.

Definition store (buf : list Z) (i : nat) (v : Z) : option (list Z) :=
  if decide (i < length buf)%nat then Some (<[i := v]> buf) else None.

(** Bytes of an ASCII string literal, without the terminating NUL. *)
Definition str (s : string) : list Z :=
  map (fun a => Z.of_nat (nat_of_ascii a)) (list_ascii_of_string s).

Module Trigg.

(** ** The embedded random number generator *)

(** [Trigg_seed] is a global; it is threaded explicitly.  [trigg_rand]
    returns the drawn number and the new seed. *)
Definition trigg_rand (seed : Z) : Z * Z :=
  let seed' := uint32 (seed * 69069 + 262145) in
  (Z.shiftr seed' 16, seed').

(** ** Semantic features *)

Definition F_ING    : Z := 1.
Definition F_INF    : Z := 2.
Definition F_MOTION : Z := 4.
Definition F_NS     : Z := 8.
Definition F_NPL    : Z := 16.
Definition F_MASS   : Z := 32.
Definition F_AMB    : Z := 64.
Definition F_TIMED  : Z := 128.
Definition F_TIMEY  : Z := 256.
Definition F_AT     : Z := 512.
Definition F_ON     : Z := 1024.
Definition F_IN     : Z := 2048.
Definition F_PREP   : Z := 0x1000.
Definition F_ADJ    : Z := 0x2000.
Definition F_OP     : Z := 0x4000.
Definition F_DETS   : Z := 0x8000.
Definition F_DETPL  : Z := 0x10000.
Definition F_XLIT   : Z := 0x20000.

Notation "a .| b" := (Z.lor a b) (at level 50, left associativity).

Definition F_TIME : Z := F_TIMED .| F_TIMEY.

Definition S_NL     : Z := F_XLIT + 1.
Definition S_CO     : Z := F_XLIT + 2.
Definition S_MD     : Z := F_XLIT + 3.
Definition S_LIKE   : Z := F_XLIT + 4.
Definition S_A      : Z := F_XLIT + 5.
Definition S_THE    : Z := F_XLIT + 6.
Definition S_OF     : Z := F_XLIT + 7.
Definition S_NO     : Z := F_XLIT + 8.
Definition S_S      : Z := F_XLIT + 9.
Definition S_AFTER  : Z := F_XLIT + 10.
Definition S_BEFORE : Z := F_XLIT + 11.

Definition HAIKUSIZE : nat := 256.
Definition MAXDICT   : Z := 256.
Definition MAXH      : nat := 16.
Definition NFRAMES   : Z := 10.
Definition HASHLEN   : nat := 32.

(** ** The dictionary *)

(** A dictionary entry: the 12 bytes of [tok] and the features [fe]. *)
Record DICT : Type := { tok : list Z; fe : Z }.

(** A C initialiser [{ "word", features }]: the characters of the literal,
    then zero bytes up to the size of [tok]. *)
Definition entry (t : list Z) (f : Z) : DICT :=
  {| tok := t ++ repeat 0 (12 - length t)%nat; fe := f |}.

Definition Dict : list DICT := [
  (* Adverbs and function words *)
  entry (str "NIL") (0);
  entry [10] (F_OP);
  entry (8 :: str ":") (F_OP);
  entry (8 :: str "--") (F_OP);
  entry (str "like") (F_OP);
  entry (str "a") (F_OP);
  entry (str "the") (F_OP);
  entry (str "of") (F_OP);
  entry (str "no") (F_OP);
  entry (8 :: str "s") (F_OP);
  entry (str "after") (F_OP);
  entry (str "before") (F_OP);
  (* Prepositions *)
  entry (str "at") (F_PREP);
  entry (str "in") (F_PREP);
  entry (str "on") (F_PREP);
  entry (str "under") (F_PREP);
  entry (str "above") (F_PREP);
  entry (str "below") (F_PREP);
  (* Verbs - intransitive ING and MOTION *)
  entry (str "arriving") (F_ING .| F_MOTION);
  entry (str "departing") (F_ING .| F_MOTION);
  entry (str "going") (F_ING .| F_MOTION);
  entry (str "coming") (F_ING .| F_MOTION);
  entry (str "creeping") (F_ING .| F_MOTION);
  entry (str "dancing") (F_ING .| F_MOTION);
  entry (str "riding") (F_ING .| F_MOTION);
  entry (str "strutting") (F_ING .| F_MOTION);
  entry (str "leaping") (F_ING .| F_MOTION);
  entry (str "leaving") (F_ING .| F_MOTION);
  entry (str "entering") (F_ING .| F_MOTION);
  entry (str "drifting") (F_ING .| F_MOTION);
  entry (str "returning") (F_ING .| F_MOTION);
  entry (str "rising") (F_ING .| F_MOTION);
  entry (str "falling") (F_ING .| F_MOTION);
  entry (str "rushing") (F_ING .| F_MOTION);
  entry (str "soaring") (F_ING .| F_MOTION);
  entry (str "travelling") (F_ING .| F_MOTION);
  entry (str "turning") (F_ING .| F_MOTION);
  entry (str "singing") (F_ING .| F_MOTION);
  entry (str "walking") (F_ING .| F_MOTION);
  (* Verbs - intransitive ING *)
  entry (str "crying") (F_ING);
  entry (str "weeping") (F_ING);
  entry (str "lingering") (F_ING);
  entry (str "pausing") (F_ING);
  entry (str "shining") (F_ING);
  (* -------------- motion intransitive infinitive *)
  entry (str "fall") (F_INF .| F_MOTION);
  entry (str "flow") (F_INF .| F_MOTION);
  entry (str "wander") (F_INF .| F_MOTION);
  entry (str "disappear") (F_INF .| F_MOTION);
  (* -------------- intransitive infinitive *)
  entry (str "wait") (F_INF);
  entry (str "bloom") (F_INF);
  entry (str "doze") (F_INF);
  entry (str "dream") (F_INF);
  entry (str "laugh") (F_INF);
  entry (str "meditate") (F_INF);
  entry (str "listen") (F_INF);
  entry (str "sing") (F_INF);
  entry (str "decay") (F_INF);
  entry (str "cling") (F_INF);
  entry (str "grow") (F_INF);
  entry (str "forget") (F_INF);
  entry (str "remain") (F_INF);
  (* Adjectives - physical *)
  (* valences (e) based on Osgood's evaluation factor *)
  entry (str "arid") (F_ADJ);
  entry (str "abandoned") (F_ADJ);
  entry (str "aged") (F_ADJ);
  entry (str "ancient") (F_ADJ);
  entry (str "full") (F_ADJ);
  entry (str "glorious") (F_ADJ);
  entry (str "good") (F_ADJ);
  entry (str "beautiful") (F_ADJ);
  entry (str "first") (F_ADJ);
  entry (str "last") (F_ADJ);
  entry (str "forsaken") (F_ADJ);
  entry (str "sad") (F_ADJ);
  entry (str "mandarin") (F_ADJ);
  entry (str "naked") (F_ADJ);
  entry (str "nameless") (F_ADJ);
  entry (str "old") (F_ADJ);
  (* Ambient adjectives *)
  entry (str "quiet") (F_ADJ .| F_AMB);
  entry (str "peaceful") (F_ADJ);
  entry (str "still") (F_ADJ);
  entry (str "tranquil") (F_ADJ);
  entry (str "bare") (F_ADJ);
  (* Time interval adjectives or nouns *)
  entry (str "evening") (F_ADJ .| F_TIMED);
  entry (str "morning") (F_ADJ .| F_TIMED);
  entry (str "afternoon") (F_ADJ .| F_TIMED);
  entry (str "spring") (F_ADJ .| F_TIMEY);
  entry (str "summer") (F_ADJ .| F_TIMEY);
  entry (str "autumn") (F_ADJ .| F_TIMEY);
  entry (str "winter") (F_ADJ .| F_TIMEY);
  (* Adjectives - physical *)
  entry (str "broken") (F_ADJ);
  entry (str "thick") (F_ADJ);
  entry (str "thin") (F_ADJ);
  entry (str "little") (F_ADJ);
  entry (str "big") (F_ADJ);
  (* Physical + ambient adjectives *)
  entry (str "parched") (F_ADJ .| F_AMB);
  entry (str "withered") (F_ADJ .| F_AMB);
  entry (str "worn") (F_ADJ .| F_AMB);
  (* Physical adj -- material things *)
  entry (str "soft") (F_ADJ);
  entry (str "bitter") (F_ADJ);
  entry (str "bright") (F_ADJ);
  entry (str "brilliant") (F_ADJ);
  entry (str "cold") (F_ADJ);
  entry (str "cool") (F_ADJ);
  entry (str "crimson") (F_ADJ);
  entry (str "dark") (F_ADJ);
  entry (str "frozen") (F_ADJ);
  entry (str "grey") (F_ADJ);
  entry (str "hard") (F_ADJ);
  entry (str "hot") (F_ADJ);
  entry (str "scarlet") (F_ADJ);
  entry (str "shallow") (F_ADJ);
  entry (str "sharp") (F_ADJ);
  entry (str "warm") (F_ADJ);
  entry (str "close") (F_ADJ);
  entry (str "calm") (F_ADJ);
  entry (str "cruel") (F_ADJ);
  entry (str "drowned") (F_ADJ);
  entry (str "dull") (F_ADJ);
  entry (str "dead") (F_ADJ);
  entry (str "sick") (F_ADJ);
  entry (str "deep") (F_ADJ);
  entry (str "fast") (F_ADJ);
  entry (str "fleeting") (F_ADJ);
  entry (str "fragrant") (F_ADJ);
  entry (str "fresh") (F_ADJ);
  entry (str "loud") (F_ADJ);
  entry (str "moonlit") (F_ADJ .| F_AMB);
  entry (str "sacred") (F_ADJ);
  entry (str "slow") (F_ADJ);
  (* Nouns top-level *)
  (* Humans *)
  entry (str "traveller") (F_NS);
  entry (str "poet") (F_NS);
  entry (str "beggar") (F_NS);
  entry (str "monk") (F_NS);
  entry (str "warrior") (F_NS);
  entry (str "wife") (F_NS);
  entry (str "courtesan") (F_NS);
  entry (str "dancer") (F_NS);
  entry (str "daemon") (F_NS);
  (* Animals *)
  entry (str "frog") (F_NS);
  entry (str "hawks") (F_NPL);
  entry (str "larks") (F_NPL);
  entry (str "cranes") (F_NPL);
  entry (str "crows") (F_NPL);
  entry (str "ducks") (F_NPL);
  entry (str "birds") (F_NPL);
  entry (str "skylark") (F_NS);
  entry (str "sparrows") (F_NPL);
  entry (str "minnows") (F_NPL);
  entry (str "snakes") (F_NPL);
  entry (str "dog") (F_NS);
  entry (str "monkeys") (F_NPL);
  entry (str "cats") (F_NPL);
  entry (str "cuckoos") (F_NPL);
  entry (str "mice") (F_NPL);
  entry (str "dragonfly") (F_NS);
  entry (str "butterfly") (F_NS);
  entry (str "firefly") (F_NS);
  entry (str "grasshopper") (F_NS);
  entry (str "mosquitos") (F_NPL);
  (* Plants *)
  entry (str "trees") (F_NPL .| F_IN .| F_AT);
  entry (str "roses") (F_NPL);
  entry (str "cherries") (F_NPL);
  entry (str "flowers") (F_NPL);
  entry (str "lotuses") (F_NPL);
  entry (str "plums") (F_NPL);
  entry (str "poppies") (F_NPL);
  entry (str "violets") (F_NPL);
  entry (str "oaks") (F_NPL .| F_AT);
  entry (str "pines") (F_NPL .| F_AT);
  entry (str "chestnuts") (F_NPL);
  entry (str "clovers") (F_NPL);
  entry (str "leaves") (F_NPL);
  entry (str "petals") (F_NPL);
  entry (str "thorns") (F_NPL);
  entry (str "blossoms") (F_NPL);
  entry (str "vines") (F_NPL);
  entry (str "willows") (F_NPL);
  (* Things *)
  entry (str "mountain") (F_NS .| F_AT .| F_ON);
  entry (str "moor") (F_NS .| F_AT .| F_ON .| F_IN);
  entry (str "sea") (F_NS .| F_AT .| F_ON .| F_IN);
  entry (str "shadow") (F_NS .| F_IN);
  entry (str "skies") (F_NPL .| F_IN);
  entry (str "moon") (F_NS);
  entry (str "star") (F_NS);
  entry (str "stone") (F_NS);
  entry (str "cloud") (F_NS);
  entry (str "bridge") (F_NS .| F_ON .| F_AT);
  entry (str "gate") (F_NS .| F_AT);
  entry (str "temple") (F_NS .| F_IN .| F_AT);
  entry (str "hovel") (F_NS .| F_IN .| F_AT);
  entry (str "forest") (F_NS .| F_IN .| F_AT);
  entry (str "grave") (F_NS .| F_IN .| F_AT .| F_ON);
  entry (str "stream") (F_NS .| F_IN .| F_AT .| F_ON);
  entry (str "pond") (F_NS .| F_IN .| F_AT .| F_ON);
  entry (str "island") (F_NS .| F_ON .| F_AT);
  entry (str "bell") (F_NS);
  entry (str "boat") (F_NS .| F_IN .| F_ON);
  entry (str "sailboat") (F_NS .| F_IN .| F_ON);
  entry (str "bon fire") (F_NS .| F_AT);
  entry (str "straw mat") (F_NS .| F_ON);
  entry (str "cup") (F_NS .| F_IN);
  entry (str "nest") (F_NS .| F_IN);
  entry (str "sun") (F_NS .| F_IN);
  entry (str "village") (F_NS .| F_IN);
  entry (str "tomb") (F_NS .| F_IN .| F_AT);
  entry (str "raindrop") (F_NS .| F_IN);
  entry (str "wave") (F_NS .| F_IN);
  entry (str "wind") (F_NS .| F_IN);
  entry (str "tide") (F_NS .| F_IN .| F_AT);
  entry (str "fan") (F_NS);
  entry (str "hat") (F_NS);
  entry (str "sandal") (F_NS);
  entry (str "shroud") (F_NS);
  entry (str "pole") (F_NS);
  (* Mass - substance *)
  entry (str "water") (F_ON .| F_IN .| F_MASS .| F_AMB);
  entry (str "air") (F_ON .| F_IN .| F_MASS .| F_AMB);
  entry (str "mud") (F_ON .| F_IN .| F_MASS .| F_AMB);
  entry (str "rain") (F_IN .| F_MASS .| F_AMB);
  entry (str "thunder") (F_IN .| F_MASS .| F_AMB);
  entry (str "ice") (F_ON .| F_IN .| F_MASS .| F_AMB);
  entry (str "snow") (F_ON .| F_IN .| F_MASS .| F_AMB);
  entry (str "salt") (F_ON .| F_IN .| F_MASS);
  entry (str "hail") (F_IN .| F_MASS .| F_AMB);
  entry (str "mist") (F_IN .| F_MASS .| F_AMB);
  entry (str "dew") (F_IN .| F_MASS .| F_AMB);
  entry (str "foam") (F_IN .| F_MASS .| F_AMB);
  entry (str "frost") (F_IN .| F_MASS .| F_AMB);
  entry (str "smoke") (F_IN .| F_MASS .| F_AMB);
  entry (str "twilight") (F_IN .| F_AT .| F_MASS .| F_AMB);
  entry (str "earth") (F_ON .| F_IN .| F_MASS);
  entry (str "grass") (F_ON .| F_IN .| F_MASS);
  entry (str "bamboo") (F_MASS);
  entry (str "gold") (F_MASS);
  entry (str "grain") (F_MASS);
  entry (str "rice") (F_MASS);
  entry (str "tea") (F_IN .| F_MASS);
  entry (str "light") (F_IN .| F_MASS .| F_AMB);
  entry (str "darkness") (F_IN .| F_MASS .| F_AMB);
  entry (str "firelight") (F_IN .| F_MASS .| F_AMB);
  entry (str "sunlight") (F_IN .| F_MASS .| F_AMB);
  entry (str "sunshine") (F_IN .| F_MASS .| F_AMB);
  (* Abstract nouns and acts *)
  entry (str "journey") (F_NS .| F_ON);
  entry (str "serenity") (F_MASS);
  entry (str "dusk") (F_TIMED);
  entry (str "glow") (F_NS);
  entry (str "scent") (F_NS);
  entry (str "sound") (F_NS);
  entry (str "silence") (F_NS);
  entry (str "voice") (F_NS);
  entry (str "day") (F_NS .| F_TIMED);
  entry (str "night") (F_NS .| F_TIMED);
  entry (str "sunrise") (F_NS .| F_TIMED);
  entry (str "sunset") (F_NS .| F_TIMED);
  entry (str "midnight") (F_NS .| F_TIMED);
  entry (str "equinox") (F_NS .| F_TIMEY);
  entry (str "noon") (F_NS .| F_TIMED)
].

(** ** The case frames *)

(** A row of [Frame]: the listed slots, then zeros up to [MAXH]. *)
Definition frame (slots : list Z) : list Z :=
  slots ++ repeat 0 (MAXH - length slots)%nat.

Definition Frame : list (list Z) := [
  frame [F_PREP; F_ADJ; F_MASS; S_NL;
         F_NPL; S_NL;
         F_INF .| F_ING];
  frame [F_PREP; F_MASS; S_NL;
         F_ADJ; F_NPL; S_NL;
         F_INF .| F_ING];
  frame [F_PREP; F_TIMED; S_NL;
         F_ADJ; F_NPL; S_NL;
         F_INF .| F_ING];
  frame [F_PREP; F_TIMED; S_NL;
         S_A; F_NS; S_NL;
         F_ING];
  frame [F_TIME; F_AMB; S_NL;
         F_PREP; S_A; F_ADJ; F_NS; S_MD; S_NL;
         F_ADJ .| F_ING];
  frame [F_TIME; F_AMB; S_NL;
         F_ADJ; F_MASS; S_NL;
         F_ING];
  frame [F_TIME; F_MASS; S_NL;
         F_INF; S_S; S_CO; S_NL;
         F_AMB];
  frame [F_ING; F_PREP; S_A; F_ADJ; F_NS; S_NL;
         F_MASS; F_ING; S_MD; S_NL;
         S_A; F_ADJ; F_NS];
  frame [F_ING; F_PREP; F_TIME; F_MASS; S_NL;
         F_MASS; F_ING; S_MD; S_NL;
         S_A; F_ADJ; F_NS];
  frame [S_A; F_NS; S_NL;
         F_PREP; F_TIMED; F_MASS; S_MD; S_NL;
         F_ADJ]
].

(** [Dict[i].fe] and [Dict[i].tok] for a byte [i]. *)
Definition dict (i : Z) : option DICT := Dict !! Z.to_nat i.

(** ** trigg_gen *)

(** The inner [for(;;)] of [trigg_gen]: draw words until one has a feature
    of the slot.  The loop has no bound in the source; [fuel] bounds the
    number of draws. *)
Fixpoint pick_word (fuel : nat) (slot : Z) (seed : Z) : option (Z * Z) :=
  match fuel with
  | O => None
  | S fuel' =>
      let '(r, seed') := trigg_rand seed in
      let widx := Z.land r (MAXDICT - 1) in
      d ← dict widx;
      if Z.land (fe d) slot =? 0 then pick_word fuel' slot seed'
      else Some (widx, seed')
  end.

(** The outer loop over the slots [fp] of the chosen frame; the bytes
    written through [hp] are returned in order. *)
Fixpoint gen_slots (fuel : nat) (fp : list Z) (seed : Z) : option (list Z * Z) :=
  match fp with
  | [] => Some ([], seed)
  | f :: fp' =>
      if f =? 0 then
        '(hp, seed') ← gen_slots fuel fp' seed;
        Some (0 :: hp, seed')
      else if negb (Z.land f F_XLIT =? 0) then
        '(hp, seed') ← gen_slots fuel fp' seed;
        Some (uint8 (Z.land f 255) :: hp, seed')
      else
        '(widx, seed1) ← pick_word fuel f seed;
        '(hp, seed') ← gen_slots fuel fp' seed1;
        Some (uint8 widx :: hp, seed')
  end.

(** [trigg_gen(out)]: the 16 bytes written to [out] and the new seed. *)
Definition trigg_gen (fuel : nat) (seed : Z) : option (list Z * Z) :=
  let '(r, seed1) := trigg_rand seed in
  fp ← Frame !! Z.to_nat (r mod NFRAMES);
  gen_slots fuel fp seed1.

(** ** trigg_expand *)

(** The copy loop [while( *w ) *bp++ = *w++;] over the bytes [w] of a token.  Running
    off the end of [tok] without meeting a zero byte is an error. *)
Fixpoint copy_tok (w : list Z) (buf : list Z) (bp : nat) : option (list Z * nat) :=
  match w with
  | [] => None
  | c :: w' =>
      if c =? 0 then Some (buf, bp)
      else buf' ← store buf bp c; copy_tok w' buf' (S bp)
  end.

(** The loop over the words: [n] iterations remain, [i] is the index of
    [np] into the nonce. *)
Fixpoint expand_words (n : nat) (i : nat) (nonce : list Z)
    (buf : list Z) (bp : nat) : option (list Z * nat) :=
  match n with
  | O => Some (buf, bp)
  | S n' =>
      c ← load nonce i;
      if c =? 0 then Some (buf, bp)
      else
        d ← dict c;
        '(buf1, bp1) ← copy_tok (tok d) buf bp;
        last ← (match bp1 with O => None | S p => load buf1 p end);
        '(buf2, bp2) ← (if negb (last =? 10) then
                          buf2 ← store buf1 bp1 32; Some (buf2, S bp1)
                        else Some (buf1, bp1));
        expand_words n' (S i) nonce buf2 bp2
  end.

(** The byte-wise zero fill [while(i--) *bp++ = 0;]. *)
Fixpoint zero_bytes (k : nat) (buf : list Z) (bp : nat) : option (list Z * nat) :=
  match k with
  | O => Some (buf, bp)
  | S k' => buf' ← store buf bp 0; zero_bytes k' buf' (S bp)
  end.

(** The 64-bit zero fill [while(bp < lbp) { store64(bp, 0); bp += 8; }]: a
    64-bit store writes eight bytes.  Every iteration advances [bp] by 8, so at most
    [fuel] iterations are given. *)
Fixpoint zero_quads (fuel : nat) (lbp : nat) (buf : list Z) (bp : nat)
    : option (list Z) :=
  if decide (bp < lbp)%nat then
    match fuel with
    | O => None
    | S fuel' =>
        '(buf', bp') ← zero_bytes 8 buf bp;
        zero_quads fuel' lbp buf' bp'
    end
  else Some buf.

(** [trigg_expand(nonce, haiku)]: the contents of the [haiku] buffer on
    return.  [haiku] is the buffer as it is on entry. *)
Definition trigg_expand (nonce : list Z) (haiku : list Z) : option (list Z) :=
  let lbp := HAIKUSIZE in
  '(buf, bp) ← expand_words MAXH 0 nonce haiku 0;
  let i := Z.to_nat (Z.land (Z.of_nat lbp - Z.of_nat bp) 7) in
  '(buf, bp) ← zero_bytes i buf bp;
  zero_quads (HAIKUSIZE / 8) lbp buf bp.

(** ** trigg_eval *)

(** The coarse check: [for(bp = hash; n; n--) if( *bp++ != 0 ) return 0;].
    [Some (false, _)] is the early [return 0]. *)
Fixpoint eval_coarse (n : nat) (hash : list Z) (bp : nat) : option (bool * nat) :=
  match n with
  | O => Some (true, bp)
  | S n' =>
      b ← load hash bp;
      if negb (b =? 0) then Some (false, S bp)
      else eval_coarse n' hash (S bp)
  end.

(** [trigg_eval(hash, diff)].  The parameter [diff] has type [uint8_t]:
    an argument is converted on the call. *)
Definition trigg_eval (hash : list Z) (diff : Z) : option Z :=
  let diff := uint8 diff in
  let n := uint8 (Z.shiftr diff 3) in
  '(zero, bp) ← eval_coarse (Z.to_nat n) hash 0;
  if negb zero then Some 0
  else if Z.land diff 7 =? 0 then Some 1
  else
    b ← load hash bp;
    if negb (Z.land b (Z.lnot (Z.shiftr 0xff (Z.land diff 7))) =? 0) then Some 0
    else Some 1.

(** ** trigg_syntax *)

(** [for(j = 0; j < MAXH; j++) sf[j] = Dict[np[j]].fe;] *)
Fixpoint load_features (n : nat) (j : nat) (np : list Z) : option (list Z) :=
  match n with
  | O => Some []
  | S n' =>
      t ← load np j;
      d ← dict t;
      sf ← load_features n' (S j) np;
      Some (fe d :: sf)
  end.

(** The loop over the slots of one frame: [n] iterations remain at index
    [j].  [Some true] is [return 1] (from inside the loop, or after it with
    [j >= MAXH]); [Some false] is [break]. *)
Fixpoint unify (n : nat) (j : nat) (fp np sf : list Z) : option bool :=
  match n with
  | O => Some true
  | S n' =>
      f ← load fp j;
      if f =? 0 then
        s ← load sf j;
        Some (s =? 0)
      else if negb (Z.land f F_XLIT =? 0) then
        t ← load np j;
        if negb (Z.land f 255 =? t) then Some false
        else unify n' (S j) fp np sf
      else
        s ← load sf j;
        if Z.land s f =? 0 then Some false
        else unify n' (S j) fp np sf
  end.

(** The loop over the frames. *)
Fixpoint try_frames (frames : list (list Z)) (np sf : list Z) : option Z :=
  match frames with
  | [] => Some 0
  | fp :: frames' =>
      ok ← unify MAXH 0 fp np sf;
      if (ok : bool) then Some 1 else try_frames frames' np sf
  end.

(** [trigg_syntax(nonce)] *)
Definition trigg_syntax (nonce : list Z) : option Z :=
  sf ← load_features MAXH 0 nonce;
  try_frames Frame nonce sf.

End Trigg.

(** * Reference definitions for the Trigg properties *)

Module TriggRef.
Import Trigg.

(** A boolean test for byte strings. *)
Definition bytesb (l : list Z) : bool :=
  forallb (fun b => (0 <=? b) && (b <? 256)) l.

(** ** Difficulty *)

(** The 256-bit integer of a hash, first byte most significant. *)
Definition be_value (h : list Z) : Z := fold_left (fun acc b => acc * 256 + b) h 0.

(** A 256-bit integer [v] has at least [d] leading zero bits. *)
Definition leading_zeros_ge (v d : Z) : Prop :=
  forall i, 256 - d <= i < 256 -> Z.testbit v i = false.

(** The byte-wise reading of the spec: the first [d / 8] bytes are zero and,
    when [d mod 8] is not zero, so are the top [d mod 8] bits of the next
    byte. *)
Definition zero_prefix (h : list Z) (d : Z) : Prop :=
  Forall (fun b => b = 0) (take (Z.to_nat (d / 8)) h) /\
  (d mod 8 <> 0 ->
   exists b, h !! Z.to_nat (d / 8) = Some b /\
             forall j, 8 - d mod 8 <= j < 8 -> Z.testbit b j = false).


(** ** Grammar *)

(** A token [t] fills a non-zero slot [f]: a literal slot names the token;
    any other slot shares a feature with the token's dictionary entry. *)
Definition slot_match (f t : Z) : Prop :=
  if Z.land f F_XLIT =? 0
  then exists d, dict t = Some d /\ Z.land (fe d) f <> 0
  else Z.land f 255 = t.

(** [accepts fp T]: the tokens [T] fill the slots [fp] up to the first zero
    slot, where the token is zero; what follows is not looked at. *)
Inductive accepts : list Z -> list Z -> Prop :=
| accepts_full : accepts [] []
| accepts_end fp T : accepts (0 :: fp) (0 :: T)
| accepts_slot f t fp T :
    f <> 0 -> slot_match f t -> accepts fp T -> accepts (f :: fp) (t :: T).

(** [generated fp T]: the tokens [T] fill every non-zero slot of [fp] and
    are zero at every zero slot. *)
Inductive generated : list Z -> list Z -> Prop :=
| generated_nil : generated [] []
| generated_zero fp T : generated fp T -> generated (0 :: fp) (0 :: T)
| generated_slot f t fp T :
    f <> 0 -> slot_match f t -> generated fp T -> generated (f :: fp) (t :: T).

(** The features of a token string. *)
Definition features_of (T sf : list Z) : Prop :=
  Forall2 (fun t s => exists d, dict t = Some d /\ s = fe d) T sf.

(** Only the token 0 has no feature. *)
Definition fe_zero_check : bool :=
  forallb (fun i => match Dict !! i with
                    | Some d => Bool.eqb (fe d =? 0) (i =? 0)%nat
                    | None => false
                    end) (seq 0 256).

(** ** Expansion *)

(** The C string held in a byte array: the bytes before the first zero. *)
Fixpoint c_string (w : list Z) : list Z :=
  match w with
  | [] => []
  | c :: w' => if c =? 0 then [] else c :: c_string w'
  end.

(** What follows a word [w]: a space, unless [w] ends in a newline. *)
Definition separator (w : list Z) : list Z :=
  match last w with
  | Some c => if c =? 10 then [] else [32]
  | None => [32]
  end.

(** The bytes that a token adds when copied as it is: its characters, then
    the separator. *)
Definition word_text (t : Z) : list Z :=
  match dict t with
  | Some d =>
      let w := c_string (tok d) in
      w ++ separator w
  | None => []
  end.

(** The text of a token string copied as it is, up to the first zero. *)
Fixpoint plain_text (T : list Z) : list Z :=
  match T with
  | [] => []
  | t :: T' => if t =? 0 then [] else word_text t ++ plain_text T'
  end.

(** Modelled from the spec's words: the teletype reading of a token.  A
    leading backspace removes one byte of the text expanded so far, then
    the rest of the token is appended; a space follows unless the token
    ends in a newline. *)
Definition teletype_append (text : list Z) (t : Z) : list Z :=
  match dict t with
  | Some d =>
      let w := c_string (tok d) in
      let text' := match w with
                   | 8 :: w' => removelast text ++ w'
                   | _ => text ++ w
                   end in
      text' ++ separator w
  | None => text
  end.

Fixpoint teletype_text (T : list Z) (text : list Z) : list Z :=
  match T with
  | [] => text
  | t :: T' => if t =? 0 then text else teletype_text T' (teletype_append text t)
  end.

(** The 256-byte buffer that the teletype reading asks for. *)
Definition teletype_expand (T : list Z) : list Z :=
  let text := teletype_text T [] in
  text ++ repeat 0 (HAIKUSIZE - length text).

(** A token whose first byte is the backspace character. *)
Definition backspace_token (t : Z) : Prop :=
  exists d, dict t = Some d /\ head (c_string (tok d)) = Some 8.

(** Every dictionary token is a C string of 1 to 11 characters inside its
    12 bytes. *)
Definition tok_check : bool :=
  forallb (fun d => let n := length (c_string (tok d)) in
                    (1 <=? n)%nat && (n <=? 11)%nat && (length (tok d) =? 12)%nat)
          Dict.

(** ** The random number generator *)

(** One step of the seed, and the dictionary index drawn from a seed. *)
Definition lcg (s : Z) : Z := uint32 (s * 69069 + 262145).
Definition draw (s : Z) : Z := Z.land (Z.shiftr s 16) (MAXDICT - 1).

(** The word drawn from the seed [s] has a feature of [slot]. *)
Definition hit (slot s : Z) : bool :=
  match dict (draw s) with
  | Some d => negb (Z.land (fe d) slot =? 0)
  | None => false
  end.

(** An affine map on 32-bit integers, and the coefficients of [2^j] steps
    of the generator. *)
Definition affine (a c s : Z) : Z := (a * s + c) mod 2 ^ 32.

Fixpoint lcg_pow (j : nat) : Z * Z :=
  match j with
  | O => (69069, 262145)
  | S j' => let '(a, c) := lcg_pow j' in ((a * a) mod 2 ^ 32, (a * c + c) mod 2 ^ 32)
  end.

(** The amount by which 65536 steps advance the drawn index. *)
Definition delta (s : Z) : Z := (4 * 10145 * s + 43931) mod 256.

(** The inverses of the odd bytes 1, 3, .., 255 modulo 256. *)
Definition odd_inverses : list Z :=
  Eval vm_compute in List.map (fun k => (2 * Z.of_nat k + 1) ^ 63 mod 256) (seq 0 128).
Definition odd_inverse_check : bool :=
  forallb (fun k => ((2 * Z.of_nat k + 1) * nth k odd_inverses 0) mod 256 =? 1) (seq 0 128).

(** Every slot of every frame is zero, a literal, or shares a feature with
    some dictionary entry. *)
Definition slot_check (f : Z) : bool :=
  (f =? 0) || negb (Z.land f F_XLIT =? 0) ||
  existsb (fun d => negb (Z.land (fe d) f =? 0)) Dict.
Definition frames_check : bool := forallb (forallb slot_check) Frame.

(** Draws that always suffice for one word. *)
Definition ENOUGH : nat := Z.to_nat 16777216.

End TriggRef.

(** * The Peach core *)

Module Peach.
Import Trigg.

Definition PEACH_NEXT   : nat := 1060.
Definition PEACH_GEN    : nat := 36.
Definition PEACH_SIZE   : Z := 1073741824.
Definition PEACH_MAP    : Z := 1048576.
Definition PEACH_TILE   : nat := 1024.
Definition PEACH_TILE32 : nat := 256.
Definition PEACH_ROW    : nat := 32.
Definition PEACH_RNDS   : nat := 8.
Definition PEACH_JUMP   : nat := 8.

(** ** Sub-arrays and little-endian words *)

(** [n] bytes of [buf] from offset [off]. *)
Definition load_bytes (buf : list Z) (off n : nat) : option (list Z) :=
  if decide (off + n <= length buf)%nat then Some (take n (drop off buf)) else None.

(** The bytes [vs] written to [buf] from offset [off]. *)
Definition store_bytes (buf : list Z) (off : nat) (vs : list Z) : option (list Z) :=
  if decide (off + length vs <= length buf)%nat
  then Some (take off buf ++ vs ++ drop (off + length vs) buf)
  else None.

(** The [n] bytes of an integer, least significant first. *)
Definition le_bytes (n : nat) (x : Z) : list Z :=
  map (fun k => Z.land (Z.shiftr x (8 * Z.of_nat k)) 255) (seq 0 n).

(** The integer of a byte string, least significant byte first. *)
Definition le_value (l : list Z) : Z :=
  fold_right (fun b acc => b + 256 * acc) 0 l.

(** ** Single precision floating point *)

(** A [float] is kept as its 32 bits in memory; arithmetic goes through the
    IEEE-754 binary32 format of [SpecFloat], rounding to nearest even. *)
Definition prec : Z := 24.
Definition emax : Z := 128.

Definition b32_of_bits (x : Z) : spec_float :=
  let s := Z.testbit x 31 in
  let e := Z.land (Z.shiftr x 23) 255 in
  let m := Z.land x (2 ^ 23 - 1) in
  if e =? 0 then
    match m with
    | Zpos p => S754_finite s p (-149)
    | _ => S754_zero s
    end
  else if e =? 255 then
    (if m =? 0 then S754_infinity s else S754_nan)
  else
    match m + 2 ^ 23 with
    | Zpos p => S754_finite s p (e - 150)
    | _ => S754_nan
    end.

Definition bits_of_b32 (f : spec_float) : Z :=
  let sign (s : bool) := if s then 2 ^ 31 else 0 in
  match f with
  | S754_zero s => sign s
  | S754_infinity s => sign s + 0x7F800000
  | S754_nan => 0x7FC00000
  | S754_finite s m e =>
      if Zpos m <? 2 ^ 23 then sign s + Zpos m
      else sign s + (e + 150) * 2 ^ 23 + (Zpos m - 2 ^ 23)
  end.

(** The four bytes of a float in memory and back (little-endian). *)
Definition float_of_bytes (l : list Z) : spec_float := b32_of_bits (le_value l).
Definition bytes_of_float (f : spec_float) : list Z := le_bytes 4 (bits_of_b32 f).

(** [(float) v] for an integer [v]. *)
Definition float_of_int (v : Z) : spec_float := binary_normalize prec emax v 0 false.

Definition isnan (f : spec_float) : bool :=
  match f with S754_nan => true | _ => false end.

(** ** peach_dflop *)

(** The float that [flp] points to is the lane of [data] at [i] when [txf]
    is set, and the local [temp] otherwise. *)
Definition flp_read (txf : bool) (data temp : list Z) (i : nat) : option (list Z) :=
  if txf then load_bytes data i 4 else Some temp.

Definition flp_write (txf : bool) (data temp : list Z) (i : nat) (f : spec_float)
    : option (list Z * list Z) :=
  if txf then data' ← store_bytes data i (bytes_of_float f); Some (data', temp)
  else Some (data, bytes_of_float f).

(** [if(isnan( *flp )) *flp = (float) index;] *)
Definition flp_fix_nan (txf : bool) (data temp : list Z) (i : nat) (index : Z)
    : option (list Z * list Z) :=
  v ← flp_read txf data temp i;
  if isnan (float_of_bytes v) then flp_write txf data temp i (float_of_int index)
  else Some (data, temp).

(** One iteration of the loop of [peach_dflop], on the lane at byte [i]. *)
Definition dflop_lane (txf : bool) (index : Z) (data : list Z) (i : nat) (op : Z)
    : option (list Z * Z) :=
  temp ← load_bytes data i 4;
  b0 ← load data i;
  let shift := uint8 (Z.shiftl (Z.land b0 7 + 1) 1) in
  x ← load data (i + Z.to_nat (Z.land (Z.shiftr 0x26C34 shift) 3));
  let op := uint32 (op + x) in
  operand ← load data (i + Z.to_nat (Z.land (Z.shiftr 0x14198 shift) 3));
  s ← load data (i + Z.to_nat (Z.land (Z.shiftr 0x3D6EC shift) 3));
  let operand := if negb (Z.land s 1 =? 0) then operand - 2 ^ 31 else operand in
  let flv := float_of_int operand in
  '(data, temp) ← flp_fix_nan txf data temp i index;
  v ← flp_read txf data temp i;
  let r := match Z.land op 3 with
           | 0 => SFadd prec emax (float_of_bytes v) flv
           | 1 => SFsub prec emax (float_of_bytes v) flv
           | 2 => SFmul prec emax (float_of_bytes v) flv
           | _ => SFdiv prec emax (float_of_bytes v) flv
           end in
  '(data, temp) ← flp_write txf data temp i r;
  '(data, temp) ← flp_fix_nan txf data temp i index;
  v ← flp_read txf data temp i;
  Some (data, fold_left (fun op b => uint32 (op + b)) v op).

(** The loop over the lanes: [n] lanes remain from byte [i]. *)
Fixpoint dflop_loop (txf : bool) (index : Z) (n : nat) (data : list Z) (i : nat) (op : Z)
    : option (list Z * Z) :=
  match n with
  | O => Some (data, op)
  | S n' =>
      '(data', op') ← dflop_lane txf index data i op;
      dflop_loop txf index n' data' (i + 4) op'
  end.

(** [peach_dflop(data, len, index, txf)]: the data on return and [op]. *)
Definition peach_dflop (data : list Z) (len : nat) (index : Z) (txf : bool)
    : option (list Z * Z) :=
  let len := (len - Z.to_nat (Z.land (Z.of_nat len) 3))%nat in
  dflop_loop txf index (len / 4) data 0 0.


(** ** peach_dmemtx *)

(** [bp[z] = f z bp[z]] for the [n] bytes from [z]. *)
Fixpoint tx_range (f : nat -> Z -> Z) (n : nat) (z : nat) (data : list Z)
    : option (list Z) :=
  match n with
  | O => Some data
  | S n' =>
      b ← load data z;
      data' ← store data z (f z b);
      tx_range f n' (S z) data'
  end.

(** A loop over [n] words of [width] bytes from word [z], each byte of a
    word changed by [f]: the 64-bit and 32-bit passes of cases 0 and 2. *)
Fixpoint tx_words (width : nat) (f : Z -> Z) (n : nat) (z : nat) (data : list Z)
    : option (list Z) :=
  match n with
  | O => Some data
  | S n' =>
      data' ← tx_range (fun _ => f) width (z * width) data;
      tx_words width f n' (S z) data'
  end.

(** Cases 1 and 6: swap [bp[z]] and [bp[y]], always or when [bp[z] > bp[y]]. *)
Fixpoint swap_halves (always : bool) (n : nat) (y z : nat) (data : list Z)
    : option (list Z) :=
  match n with
  | O => Some data
  | S n' =>
      bz ← load data z;
      by_ ← load data y;
      data' ← (if always || (by_ <? bz) then
                 d1 ← store data z by_; store d1 y bz
               else Some data);
      swap_halves always n' (S y) (S z) data'
  end.

(** Case 7: [bp[z] ^= bp[y]] with [y] one behind [z]. *)
Fixpoint xor_chain (n : nat) (y z : nat) (data : list Z) : option (list Z) :=
  match n with
  | O => Some data
  | S n' =>
      bz ← load data z;
      by_ ← load data y;
      data' ← store data z (Z.lxor bz by_);
      xor_chain n' (S y) (S z) data'
  end.

(** The transformation selected by [op & 7] in round [i]. *)
Definition dmemtx_case (len : nat) (i : nat) (op : Z) (data : list Z) : option (list Z) :=
  let halflen := (len / 2)%nat in
  let len32 := (len / 4)%nat in
  let len64 := (len / 8)%nat in
  match Z.land op 7 with
  | 0 =>
      d ← tx_words 8 (fun b => Z.lxor b 0x81) len64 0 data;
      tx_words 4 (fun b => Z.lxor b 0x81) (len32 - 2 * len64) (2 * len64) d
  | 1 => swap_halves true halflen halflen 0 data
  | 2 =>
      d ← tx_words 8 (fun b => Z.lxor b 0xff) len64 0 data;
      tx_words 4 (fun b => Z.lxor b 0xff) (len32 - 2 * len64) (2 * len64) d
  | 3 => tx_range (fun z b => uint8 (b + (if Nat.even z then 1 else -1))) len 0 data
  | 4 => tx_range (fun z b => uint8 (b + uint8 (if Nat.even z then - Z.of_nat i else Z.of_nat i)))
                  len 0 data
  | 5 => tx_range (fun _ b => if b =? 104 then 72 else b) len 0 data
  | 6 => swap_halves false halflen halflen 0 data
  | _ => xor_chain (len - 1) 0 1 data
  end.

(** The loop over the rounds: [n] rounds remain at round [i]. *)
Fixpoint dmemtx_loop (len : nat) (n : nat) (i : nat) (data : list Z) (op : Z)
    : option (list Z * Z) :=
  match n with
  | O => Some (data, op)
  | S n' =>
      b ← load data (Z.to_nat (Z.land (Z.of_nat i) 31));
      let op := uint32 (op + b) in
      data' ← dmemtx_case len i op data;
      dmemtx_loop len n' (S i) data' op
  end.

(** [peach_dmemtx(data, len, op)]: the data on return and [op]. *)
Definition peach_dmemtx (data : list Z) (len : nat) (op : Z) : option (list Z * Z) :=
  dmemtx_loop len PEACH_RNDS 0 data op.

(** ** The hash functions *)

(** The hash functions of [hash/] are not part of these sources.  A call is
    named by its algorithm; BLAKE2b carries its key. *)
Inductive hash_algo : Type :=
| BLAKE2B_256 (key : list Z)
| SHA1
| SHA256
| SHA3_256
| KECCAK_256
| MD2
| MD5.

(** The number of bytes that [final] writes. *)
Definition digest_size (a : hash_algo) : nat :=
  match a with
  | BLAKE2B_256 _ | SHA256 | SHA3_256 | KECCAK_256 => 32
  | SHA1 => 20
  | MD2 | MD5 => 16
  end.

(** A hash computation that was run: the algorithm and the whole message. *)
Definition hash_call : Type := hash_algo * list Z.

(** Computations that may fail on an access outside a buffer or through a
    null pointer, and that record the hash computations they run. *)
Definition M (A : Type) : Type := option (A * list hash_call).

Definition retM {A : Type} (a : A) : M A := Some (a, []).

Definition bindM {A B : Type} (m : M A) (f : A -> M B) : M B :=
  match m with
  | None => None
  | Some (a, l1) =>
      match f a with
      | None => None
      | Some (b, l2) => Some (b, l1 ++ l2)
      end
  end.

Definition lift {A : Type} (o : option A) : M A :=
  match o with
  | Some a => Some (a, [])
  | None => None
  end.

Notation "x <~ m ;; k" := (bindM m (fun x => k))
  (at level 20, m at level 99, k at level 200, only parsing).
Notation "' pat <~ m ;; k" := (bindM m (fun x => match x with pat => k end))
  (at level 20, pat pattern, m at level 99, k at level 200, only parsing).

(** The value that a computation returns, and the hashes it ran. *)
Definition value {A : Type} (m : M A) : option A := fst <$> m.
Definition hashes {A : Type} (m : M A) : option (list hash_call) := snd <$> m.

Section WithHash.

(** The digest of a message under each algorithm. *)
Variable digest : hash_algo -> list Z -> list Z.

(** Modelled from the spec: the hash facade.  Each algorithm has
    [init / update(bytes) / final(out)]; [final] writes the digest of all
    the bytes given to [update], in order.  A context is the algorithm
    and the bytes absorbed so far. *)
Record hash_ctx : Type := { ctx_algo : hash_algo; ctx_msg : list Z }.

Definition hash_init (a : hash_algo) : hash_ctx := {| ctx_algo := a; ctx_msg := [] |}.

Definition hash_update (ctx : hash_ctx) (data : list Z) : hash_ctx :=
  {| ctx_algo := ctx_algo ctx; ctx_msg := ctx_msg ctx ++ data |}.

Definition hash_final (ctx : hash_ctx) : M (list Z) :=
  Some (digest (ctx_algo ctx) (ctx_msg ctx), [(ctx_algo ctx, ctx_msg ctx)]).

(** ** peach_nighthash *)

(** [init], [update(in, inlen)], [update(&index, 4)] when [hashindex], and
    [final], for the algorithm [a]. *)
Definition hash_input (a : hash_algo) (inb : list Z) (inlen : nat) (index : Z)
    (hashindex : bool) : M (list Z) :=
  let ctx := hash_init a in
  msg <~ lift (load_bytes inb 0 inlen) ;;
  let ctx := hash_update ctx msg in
  let ctx := if hashindex then hash_update ctx (le_bytes 4 index) else ctx in
  hash_final ctx.

(** [peach_nighthash(in, inlen, index, hashindex, txf, out)]: the [in]
    buffer on return and the 32 bytes written to [out].  The shorter
    digests are followed by the zero words that the function stores. *)
Definition peach_nighthash (inb : list Z) (inlen : nat) (index : Z)
    (hashindex txf : bool) : M (list Z * list Z) :=
  '(inb, algo_type) <~ lift (peach_dflop inb inlen index txf) ;;
  '(inb, algo_type) <~ (if txf then lift (peach_dmemtx inb inlen algo_type)
                        else retM (inb, algo_type)) ;;
  let algo_type := Z.land algo_type 7 in
  match algo_type with
  | 0 | 1 =>
      let key := repeat algo_type 64 in
      let keylen := if algo_type =? 0 then 32%nat else 64%nat in
      out <~ hash_input (BLAKE2B_256 (take keylen key)) inb inlen index hashindex ;;
      retM (inb, out)
  | 2 =>
      out <~ hash_input SHA1 inb inlen index hashindex ;;
      retM (inb, out ++ repeat 0 4 ++ repeat 0 8)
  | 3 =>
      out <~ hash_input SHA256 inb inlen index hashindex ;;
      retM (inb, out)
  | 4 =>
      out <~ hash_input SHA3_256 inb inlen index hashindex ;;
      retM (inb, out)
  | 5 =>
      out <~ hash_input KECCAK_256 inb inlen index hashindex ;;
      retM (inb, out)
  | 6 =>
      out <~ hash_input MD2 inb inlen index hashindex ;;
      retM (inb, out ++ repeat 0 8 ++ repeat 0 8)
  | _ =>
      out <~ hash_input MD5 inb inlen index hashindex ;;
      retM (inb, out ++ repeat 0 8 ++ repeat 0 8)
  end.


(** ** The Peach context *)

(** A block of the heap: its identity, its size in bytes and its contents
    by byte offset. *)
Record buffer : Type := { blk : positive; size : Z; mem : Z -> Z }.

(** The live blocks of the heap. *)
Definition heap : Type := gset positive.

(** [malloc(n)]: [r] is what the allocator answers, nothing or a fresh
    block with some contents. *)
Definition malloc (h : heap) (n : Z) (r : option (Z -> Z)) : option buffer * heap :=
  match r with
  | Some junk =>
      let b := fresh h in
      (Some {| blk := b; size := n; mem := junk |}, {[ b ]} ∪ h)
  | None => (None, h)
  end.

(** [free(p)] of a live block. *)
Definition free (h : heap) (b : buffer) : option heap :=
  if decide (blk b ∈ h) then Some (h ∖ {[ blk b ]}) else None.

Definition mem_read (m : Z -> Z) (off : Z) (n : nat) : list Z :=
  List.map (fun k => m (off + Z.of_nat k)) (seq 0 n).

Definition mem_write (m : Z -> Z) (off : Z) (vs : list Z) : Z -> Z :=
  fun a => if decide (off <= a < off + Z.of_nat (length vs))
           then nth (Z.to_nat (a - off)) vs 0
           else m a.

Definition buf_read (b : buffer) (off : Z) (n : nat) : option (list Z) :=
  if decide (0 <= off /\ off + Z.of_nat n <= size b)
  then Some (mem_read (mem b) off n) else None.

Definition buf_write (b : buffer) (off : Z) (vs : list Z) : option buffer :=
  if decide (0 <= off /\ off + Z.of_nat (length vs) <= size b)
  then Some {| blk := blk b; size := size b; mem := mem_write (mem b) off vs |}
  else None.

(** The struct [PEACH_ALGO].  [p_bt] is the trailer that [bt] points to;
    [p_nonce] is the four quadwords of [nonce] as 32 bytes. *)
Record PEACH_ALGO : Type := {
  p_bt : option (list Z);
  p_map : option buffer;
  p_cache : option buffer;
  p_tile : list Z;
  p_nonce : list Z;
  p_diff : Z
}.

(** [memset(P, 0, sizeof(PEACH_ALGO))] *)
Definition peach_zero : PEACH_ALGO :=
  {| p_bt := None; p_map := None; p_cache := None;
     p_tile := repeat 0 PEACH_TILE; p_nonce := repeat 0 32; p_diff := 0 |}.

(** A pointer to a tile: into the map, or to the tile of the context. *)
Inductive tileref : Type :=
| InMap (index : Z)
| InScratch.

(** The 1024 bytes behind a tile pointer. *)
Definition tile_at (P : PEACH_ALGO) (r : tileref) : option (list Z) :=
  match r with
  | InMap index =>
      m ← p_map P;
      buf_read m (uint32 (index * Z.of_nat PEACH_TILE)) PEACH_TILE
  | InScratch => load_bytes (p_tile P) 0 PEACH_TILE
  end.

(** ** peach_next *)

(** [dhash[0] + ... + dhash[n-1]] over 32-bit little-endian words. *)
Fixpoint sum_words (n : nat) (k : nat) (hash : list Z) (acc : Z) : option Z :=
  match n with
  | O => Some acc
  | S n' =>
      w ← load_bytes hash (4 * k) 4;
      sum_words n' (S k) hash (uint32 (acc + le_value w))
  end.

Definition peach_next (index : Z) (dtile : list Z) (qnonce : list Z) : M Z :=
  n <~ lift (load_bytes qnonce 0 32) ;;
  t <~ lift (load_bytes dtile 0 PEACH_TILE) ;;
  let seed := n ++ le_bytes 4 index ++ t in
  '(_, hash) <~ peach_nighthash seed PEACH_NEXT index false false ;;
  index <~ lift (sum_words 8 0 hash 0) ;;
  retM (Z.land index (PEACH_MAP - 1)).

(** ** peach_gen *)

(** The 31 chained calls that fill a tile: [done] holds the rows that have
    their final contents, [row] the row written last. *)
Fixpoint fill_rows (n : nat) (index : Z) (done row : list Z) : M (list Z) :=
  match n with
  | O => retM (done ++ row)
  | S n' =>
      '(row', next) <~ peach_nighthash row HASHLEN index true true ;;
      fill_rows n' index (done ++ row') next
  end.

(** The 1024 bytes that [peach_gen] writes at [tilep]. *)
Definition gen_tile (phash : list Z) (index : Z) : M (list Z) :=
  let seed := le_bytes 4 index ++ phash in
  '(_, row) <~ peach_nighthash seed PEACH_GEN index false true ;;
  fill_rows 31 index [] row.

Definition peach_gen (P : PEACH_ALGO) (index : Z) : M (tileref * PEACH_ALGO) :=
  cached <~ lift (match p_cache P with
                  | Some c => v ← buf_read c index 1; Some (negb (hd 0 v =? 0))
                  | None => Some false
                  end) ;;
  if (cached : bool) then retM (InMap index, P)
  else
    bt <~ lift (p_bt P) ;;
    phash <~ lift (load_bytes bt 0 HASHLEN) ;;
    match p_map P with
    | Some m =>
        c <~ lift (p_cache P) ;;
        c' <~ lift (buf_write c index [1]) ;;
        tile <~ gen_tile phash index ;;
        m' <~ lift (buf_write m (uint32 (index * Z.of_nat PEACH_TILE)) tile) ;;
        retM (InMap index,
              {| p_bt := p_bt P; p_map := Some m'; p_cache := Some c';
                 p_tile := p_tile P; p_nonce := p_nonce P; p_diff := p_diff P |})
    | None =>
        tile <~ gen_tile phash index ;;
        tile' <~ lift (store_bytes (p_tile P) 0 tile) ;;
        retM (InScratch,
              {| p_bt := p_bt P; p_map := p_map P; p_cache := p_cache P;
                 p_tile := tile'; p_nonce := p_nonce P; p_diff := p_diff P |})
    end.

(** ** peach_free *)

Definition peach_free (P : PEACH_ALGO) (h : heap) : option (PEACH_ALGO * heap) :=
  h1 ← match p_map P with Some b => free h b | None => Some h end;
  h2 ← match p_cache P with Some b => free h1 b | None => Some h1 end;
  Some ({| p_bt := p_bt P; p_map := None; p_cache := None;
           p_tile := p_tile P; p_nonce := p_nonce P; p_diff := p_diff P |}, h2).

(** ** peach_solve *)

(** [for(i = 0; i < len; zp[i++] = 0);] over 64-bit words. *)
Definition zero_qwords (len : Z) (m : Z -> Z) : Z -> Z :=
  snd (N.iter (Z.to_N len)
         (fun st : Z * (Z -> Z) => (fst st + 1, mem_write (snd st) (8 * fst st) (repeat 0 8)))
         (0, m)).

Definition buf_zero (b : buffer) (len : Z) : option buffer :=
  if decide (8 * len <= size b)
  then Some {| blk := blk b; size := size b; mem := zero_qwords len (mem b) |}
  else None.

(** [peach_solve(P, bt)].  [rmap] and [rcache] are the answers of the two
    calls of [malloc].  Returns the code, the context, the heap and the
    seed of the generator. *)
Definition peach_solve (bt : list Z) (h : heap) (rmap rcache : option (Z -> Z))
    (fuel : nat) (seed : Z) : option (Z * PEACH_ALGO * heap * Z) :=
  let P := peach_zero in
  let '(m, h) := malloc h PEACH_SIZE rmap in
  let '(c, h) := malloc h PEACH_MAP rcache in
  let P := {| p_bt := p_bt P; p_map := m; p_cache := c;
              p_tile := p_tile P; p_nonce := p_nonce P; p_diff := p_diff P |} in
  match m, c with
  | Some bm, Some bc =>
      bm' ← buf_zero bm (Z.shiftr PEACH_SIZE 3);
      bc' ← buf_zero bc (Z.shiftr PEACH_MAP 3);
      d ← load_bytes bt 56 4;
      '(haiku, seed') ← trigg_gen fuel seed;
      nonce' ← store_bytes (p_nonce P) 16 haiku;
      Some (0, {| p_bt := Some bt; p_map := Some bm'; p_cache := Some bc';
                  p_tile := p_tile P; p_nonce := nonce'; p_diff := le_value d |},
            h, seed')
  | _, _ =>
      '(P', h') ← peach_free P h;
      Some (1, P', h', seed)
  end.

(** ** peach_generate and peach_checkhash *)

(** [for(i = 1; i < HASHLEN; i++) mario *= bt_hash[i];] *)
Fixpoint mario_mul (n : nat) (i : nat) (bt_hash : list Z) (mario : Z) : option Z :=
  match n with
  | O => Some mario
  | S n' =>
      b ← load bt_hash i;
      mario_mul n' (S i) bt_hash (uint32 (mario * b))
  end.

(** Mario's initial position in [peach_generate]. *)
Definition generate_mario (bt_hash : list Z) : option Z :=
  mario ← load bt_hash 0;
  mario ← mario_mul (HASHLEN - 1) 1 bt_hash mario;
  Some (Z.land mario (PEACH_MAP - 1)).

(** Mario's initial position in [peach_checkhash]. *)
Definition checkhash_mario (bt_hash : list Z) : option Z :=
  mario ← load bt_hash 0;
  mario ← mario_mul (HASHLEN - 1) 1 bt_hash mario;
  Some (Z.land mario (PEACH_MAP - 1)).

(** The walk [for(i = 0; i < PEACH_JUMP; i++) { mario = peach_next(mario,
    tilep, nonce); tilep = peach_gen(P, mario); }], which both functions
    run. *)
Fixpoint peach_jump (n : nat) (P : PEACH_ALGO) (mario : Z) (tilep : tileref)
    (nonce : list Z) : M (tileref * PEACH_ALGO) :=
  match n with
  | O => retM (tilep, P)
  | S n' =>
      t <~ lift (tile_at P tilep) ;;
      mario <~ peach_next mario t nonce ;;
      '(tilep, P) <~ peach_gen P mario ;;
      peach_jump n' P mario tilep nonce
  end.

(** [peach_generate] from the first [sha256_init] on: the nonce of the
    context has been advanced. *)
Definition generate_attempt (P : PEACH_ALGO) (out : list Z)
    : M (Z * list Z * PEACH_ALGO) :=
  bt <~ lift (p_bt P) ;;
  known <~ lift (load_bytes bt 0 92) ;;
  nonce <~ lift (load_bytes (p_nonce P) 0 32) ;;
  bt_hash <~ hash_final (hash_update (hash_update (hash_init SHA256) known) nonce) ;;
  mario <~ lift (generate_mario bt_hash) ;;
  '(tilep, P) <~ peach_gen P mario ;;
  '(tilep, P) <~ peach_jump PEACH_JUMP P mario tilep (p_nonce P) ;;
  h <~ lift (load_bytes bt_hash 0 HASHLEN) ;;
  t <~ lift (tile_at P tilep) ;;
  hash <~ hash_final (hash_update (hash_update (hash_init SHA256) h) t) ;;
  r <~ lift (trigg_eval hash (uint8 (p_diff P))) ;;
  if negb (r =? 0) then
    out' <~ lift (store_bytes out 0 nonce) ;;
    retM (1, out', P)
  else retM (0, out, P).

(** [peach_generate(P, out)]: the code, the [out] buffer, the context and
    the seed of the generator on return. *)
Definition peach_generate (P : PEACH_ALGO) (out : list Z) (fuel : nat) (seed : Z)
    : M (Z * list Z * PEACH_ALGO * Z) :=
  n2 <~ lift (load_bytes (p_nonce P) 16 16) ;;
  nonce <~ lift (store_bytes (p_nonce P) 0 n2) ;;
  '(haiku, seed') <~ lift (trigg_gen fuel seed) ;;
  nonce <~ lift (store_bytes nonce 16 haiku) ;;
  let P := {| p_bt := p_bt P; p_map := p_map P; p_cache := p_cache P;
              p_tile := p_tile P; p_nonce := nonce; p_diff := p_diff P |} in
  '(r, out', P') <~ generate_attempt P out ;;
  retM (r, out', P', seed').

(** [peach_checkhash(bt, out)]: the code and the [out] buffer on return;
    [out] is [None] for a null pointer. *)
Definition peach_checkhash (bt : list Z) (out : option (list Z))
    : M (Z * option (list Z)) :=
  n1 <~ lift (load_bytes bt 92 16) ;;
  s1 <~ lift (trigg_syntax n1) ;;
  if s1 =? 0 then retM (0, out) else
  n2 <~ lift (load_bytes bt 108 16) ;;
  s2 <~ lift (trigg_syntax n2) ;;
  if s2 =? 0 then retM (0, out) else
  let P := {| p_bt := Some bt; p_map := None; p_cache := None;
              p_tile := p_tile peach_zero; p_nonce := p_nonce peach_zero;
              p_diff := p_diff peach_zero |} in
  known <~ lift (load_bytes bt 0 124) ;;
  bt_hash <~ hash_final (hash_update (hash_init SHA256) known) ;;
  mario <~ lift (checkhash_mario bt_hash) ;;
  nonce <~ lift (load_bytes bt 92 32) ;;
  '(tilep, P) <~ peach_gen P mario ;;
  '(tilep, P) <~ peach_jump PEACH_JUMP P mario tilep nonce ;;
  h <~ lift (load_bytes bt_hash 0 HASHLEN) ;;
  t <~ lift (tile_at P tilep) ;;
  hash <~ hash_final (hash_update (hash_update (hash_init SHA256) h) t) ;;
  out' <~ lift (match out with
                | Some o =>
                    h32 ← load_bytes hash 0 HASHLEN;
                    o' ← store_bytes o 0 h32;
                    Some (Some o')
                | None => Some None
                end) ;;
  d <~ lift (load bt 56) ;;
  r <~ lift (trigg_eval hash d) ;;
  retM (r, out').

End WithHash.

End Peach.

(** * Reference definitions for the Peach properties *)

Module PeachRef.
Import Trigg Peach.

(** ** The starting index *)

(** The spec's [mario]: [bt_hash[0]] as a 32-bit integer, multiplied in
    turn by [bt_hash[1]] to [bt_hash[31]] with 32-bit wrapping, then
    reduced modulo 1048576. *)
Definition spec_mario (bt_hash : list Z) : Z :=
  fold_left (fun mario b => (mario * b) mod 2 ^ 32) (tail bt_hash) (hd 0 bt_hash)
  mod 1048576.


(** ** What a computation returns *)

(** [returns m Q]: the computation [m] completes, and its result and the
    hash computations it ran satisfy [Q]. *)
Definition returns {A : Type} (m : M A) (Q : A -> list hash_call -> Prop) : Prop :=
  exists a calls, m = Some (a, calls) /\ Q a calls.

(** ** Nighthash *)

(** What every step of the float pass keeps: the length of the data, and
    the data themselves when [txf] is off. *)
Definition kept (txf : bool) (data data' : list Z) : Prop :=
  length data' = length data /\ (txf = false -> data' = data).

(** The bytes that a call of nighthash gives to its hash function. *)
Definition hashed (inb : list Z) (inlen : nat) (index : Z) (hashindex : bool) : list Z :=
  take inlen inb ++ (if hashindex then le_bytes 4 index else []).

Section WithHash.

Variable digest : hash_algo -> list Z -> list Z.

(** ** Tiles and walks as values *)

(** The tile of index [index] under the previous block hash [phash]. *)
Definition tile_value (phash : list Z) (index : Z) : option (list Z) :=
  value (gen_tile digest phash index).

(** The tile reached from the tile [t] of index [mario] after [n] jumps. *)
Fixpoint walk_value (phash nonce : list Z) (n : nat) (mario : Z) (t : list Z)
    : option (list Z) :=
  match n with
  | O => Some t
  | S n' =>
      mario' ← value (peach_next digest mario t nonce);
      t' ← tile_value phash mario';
      walk_value phash nonce n' mario' t'
  end.

(** The final hash of a walk that starts from [bt_hash]. *)
Definition final_hash (phash nonce bt_hash : list Z) : option (list Z) :=
  mario ← generate_mario bt_hash;
  t0 ← tile_value phash mario;
  t ← walk_value phash nonce PEACH_JUMP mario t0;
  Some (digest SHA256 (bt_hash ++ t)).

(** A context in use: it points to a trailer with previous block hash
    [phash], its tile has 1024 bytes, and either it has neither map nor
    cache, or it has both, of their sizes, and every tile marked in the
    cache is in the map. *)
Definition peach_inv (phash : list Z) (P : PEACH_ALGO) : Prop :=
  (exists bt, p_bt P = Some bt /\ load_bytes bt 0 HASHLEN = Some phash) /\
  length (p_tile P) = PEACH_TILE /\
  ((p_map P = None /\ p_cache P = None) \/
   (exists m c, p_map P = Some m /\ p_cache P = Some c /\
                size m = PEACH_SIZE /\ size c = PEACH_MAP /\
                forall i, 0 <= i < PEACH_MAP -> mem c i <> 0 ->
                          tile_value phash i
                          = Some (mem_read (mem m) (i * Z.of_nat PEACH_TILE) PEACH_TILE))).

(** ** What the functions of the orchestrator return *)

(** What [peach_gen] keeps of the context, and what its pointer holds. *)
Definition gen_post (phash : list Z) (P : PEACH_ALGO) (index : Z)
    (r : tileref * PEACH_ALGO) : Prop :=
  peach_inv phash (snd r) /\
  (exists tile, tile_at (snd r) (fst r) = Some tile /\
                tile_value phash index = Some tile /\
                length tile = PEACH_TILE) /\
  p_bt (snd r) = p_bt P /\ p_nonce (snd r) = p_nonce P /\ p_diff (snd r) = p_diff P.

(** What the walk keeps of the context, and what its pointer holds. *)
Definition jump_post (phash nonce : list Z) (P : PEACH_ALGO) (n : nat) (mario : Z)
    (t : list Z) (r : tileref * PEACH_ALGO) : Prop :=
  peach_inv phash (snd r) /\
  (exists t', tile_at (snd r) (fst r) = Some t' /\
              walk_value phash nonce n mario t = Some t' /\
              length t' = PEACH_TILE) /\
  p_bt (snd r) = p_bt P /\ p_nonce (snd r) = p_nonce P /\ p_diff (snd r) = p_diff P.

(** What [peach_checkhash] returns once both halves of the nonce have
    passed [trigg_syntax]. *)
Definition check_post (bt : list Z) (out : option (list Z))
    (res : Z * option (list Z)) (calls : list hash_call) : Prop :=
  exists hash d,
    final_hash (take 32 bt) (take 32 (drop 92 bt)) (digest SHA256 (take 124 bt))
    = Some hash /\
    length hash = 32%nat /\
    bt !! 56%nat = Some d /\
    trigg_eval hash d = Some (fst res) /\
    (fst res = 0 \/ fst res = 1) /\
    snd res = match out with
              | Some o => Some (hash ++ drop 32 o)
              | None => None
              end /\
    head calls = Some (SHA256, take 124 bt).

(** What [peach_generate] returns from the first hash on. *)
Definition attempt_post (phash bt : list Z) (P : PEACH_ALGO) (out : list Z)
    (res : Z * list Z * PEACH_ALGO) (calls : list hash_call) : Prop :=
  exists hash ev,
    final_hash phash (p_nonce P) (digest SHA256 (take 92 bt ++ p_nonce P))
    = Some hash /\
    trigg_eval hash (uint8 (p_diff P)) = Some ev /\ (ev = 0 \/ ev = 1) /\
    fst (fst res) = ev /\
    snd (fst res) = (if ev =? 0 then out else p_nonce P ++ drop 32 out) /\
    peach_inv phash (snd res) /\
    head calls = Some (SHA256, take 92 bt ++ p_nonce P).

End WithHash.


(** ** Examples *)

(** A stand-in for the hash functions: digests of the right size. *)
Definition zero_digest (a : hash_algo) (_ : list Z) : list Z := repeat 0 (digest_size a).

(** A trailer at difficulty 0 whose nonce is the haiku drawn from seed 1,
    "day mist / big air / travelling", twice. *)
Definition haiku_example : list Z :=
  [249; 223; 1; 93; 215; 1; 35; 0; 0; 0; 0; 0; 0; 0; 0; 0].

Definition trailer_example : list Z :=
  repeat 0 92 ++ haiku_example ++ haiku_example ++ repeat 0 36.

(** The same trailer with a byte after the end of the second haiku. *)
Definition trailer_trailing : list Z :=
  repeat 0 92 ++ haiku_example
    ++ [249; 223; 1; 93; 215; 1; 35; 0; 0; 0; 0; 0; 0; 0; 0; 5] ++ repeat 0 36.

(** A context of a verifier on [trailer_example], its nonce advanced to the
    nonce of the trailer. *)
Definition context_example : PEACH_ALGO :=
  {| p_bt := Some trailer_example; p_map := None; p_cache := None;
     p_tile := repeat 0 PEACH_TILE; p_nonce := take 32 (drop 92 trailer_example);
     p_diff := le_value (take 4 (drop 56 trailer_example)) |}.

End PeachRef.

(** * The Trigg proof of work *)

Module TriggPow.
Import Trigg Peach.

(** [trigg_srand(x)]: the new seed. *)
Definition trigg_srand (x : Z) : Z := uint32 x.

(** The struct [TRIGG_ALGO], each field as its bytes.  [t_diff] is the
    32-bit [diff]. *)
Record TRIGG_ALGO : Type := {
  t_mroot : list Z;
  t_haiku : list Z;
  t_haiku2 : list Z;
  t_bnum : list Z;
  t_haiku1 : list Z;
  t_diff : Z
}.

(** The struct as bytes from its address: [mroot], [haiku], [haiku2] and
    [bnum] lie at offsets 0, 32, 288 and 304, and [haiku1] follows at
    312. *)
Definition chain (T : TRIGG_ALGO) : list Z :=
  t_mroot T ++ t_haiku T ++ t_haiku2 T ++ t_bnum T ++ t_haiku1 T.

Section WithHash.

Variable digest : hash_algo -> list Z -> list Z.

(** Modelled from the spec: the one-call [sha256(in, inlen, out)] of
    [hash/sha256.c], which is not part of these sources, as [init],
    [update(in, inlen)] and [final(out)] of the hash facade. *)
Definition sha256 (inb : list Z) (inlen : nat) : M (list Z) :=
  msg <~ lift (load_bytes inb 0 inlen) ;;
  hash_final digest (hash_update (hash_init SHA256) msg).

(** [trigg_solve(T, bt)]: the context and the seed of the generator on
    return.  [haiku] and [haiku1] are not written. *)
Definition trigg_solve (T : TRIGG_ALGO) (bt : list Z) (fuel : nat) (seed : Z)
    : option (TRIGG_ALGO * Z) :=
  qmroot ← load_bytes bt 60 32;
  mroot ← store_bytes (t_mroot T) 0 qmroot;
  qbnum ← load_bytes bt 32 8;
  bnum ← store_bytes (t_bnum T) 0 qbnum;
  d ← load_bytes bt 56 4;
  '(haiku, seed') ← trigg_gen fuel seed;
  haiku2 ← store_bytes (t_haiku2 T) 0 haiku;
  Some ({| t_mroot := mroot; t_haiku := t_haiku T; t_haiku2 := haiku2;
           t_bnum := bnum; t_haiku1 := t_haiku1 T; t_diff := le_value d |}, seed').


(** [trigg_checkhash(bt, out)]: the code and the [out] buffer on return;
    [out] is [None] for a null pointer.  The local [T] is not initialised:
    [T] is what it holds on entry. *)
Definition trigg_checkhash (T : TRIGG_ALGO) (bt : list Z) (out : option (list Z))
    : M (Z * option (list Z)) :=
  n1 <~ lift (load_bytes bt 92 16) ;;
  s1 <~ lift (trigg_syntax n1) ;;
  if s1 =? 0 then retM (0, out) else
  n2 <~ lift (load_bytes bt 108 16) ;;
  s2 <~ lift (trigg_syntax n2) ;;
  if s2 =? 0 then retM (0, out) else
  qmroot <~ lift (load_bytes bt 60 32) ;;
  mroot <~ lift (store_bytes (t_mroot T) 0 qmroot) ;;
  haiku2 <~ lift (store_bytes (t_haiku2 T) 0 n2) ;;
  qbnum <~ lift (load_bytes bt 32 8) ;;
  bnum <~ lift (store_bytes (t_bnum T) 0 qbnum) ;;
  haiku <~ lift (trigg_expand n1 (t_haiku T)) ;;
  let T := {| t_mroot := mroot; t_haiku := haiku; t_haiku2 := haiku2;
              t_bnum := bnum; t_haiku1 := t_haiku1 T; t_diff := t_diff T |} in
  hash <~ sha256 (chain T) 312 ;;
  out' <~ lift (match out with
                | Some o =>
                    h32 ← load_bytes hash 0 HASHLEN;
                    o' ← store_bytes o 0 h32;
                    Some (Some o')
                | None => Some None
                end) ;;
  d <~ lift (load bt 56) ;;
  r <~ lift (trigg_eval hash d) ;;
  retM (r, out').

End WithHash.

End TriggPow.

(** * Reference definitions for further properties *)

Module MoreRef.
Import Trigg Peach TriggPow.

(** The index of the first zero of a byte string, its length when it has
    none: the number of tokens of a haiku. *)
Fixpoint first_zero (l : list Z) : nat :=
  match l with
  | [] => O
  | x :: l' => if x =? 0 then O else S (first_zero l')
  end.

(** A literal slot names a token other than 0. *)
Definition literal_ok (f : Z) : Prop := Z.land f F_XLIT <> 0 -> Z.land f 255 <> 0.
Definition literal_check (f : Z) : bool :=
  (Z.land f F_XLIT =? 0) || negb (Z.land f 255 =? 0).

(** Every frame has between 7 and 13 slots before its first zero slot. *)
Definition frame_sizes_check : bool :=
  forallb (fun fp => (7 <=? first_zero fp)%nat && (first_zero fp <=? 13)%nat) Frame.

(** ** The random number generator *)

(** The seed after [n] calls of [trigg_rand]. *)
Definition seed_after (n : nat) (seed : Z) : Z :=
  Nat.iter n (fun s => snd (trigg_rand s)) seed.

(** The coefficients [(a, c)] of [2^k] steps of the generator, for [k]
    up to 31: [a] is 1 modulo [2^(k+1)] and [c] is [2^k] modulo
    [2^(k+1)]. *)
Definition period_check : bool :=
  forallb (fun k => let '(a, c) := TriggRef.lcg_pow k in
                    ((a - 1) mod 2 ^ (Z.of_nat k + 1) =? 0) &&
                    (c mod 2 ^ (Z.of_nat k + 1) =? 2 ^ Z.of_nat k))
          (seq 0 32).

(** ** The Trigg proof of work *)

(** The trailer [bt] with [nonce] in its nonce field, bytes 92 to 124. *)
Definition with_nonce (bt nonce : list Z) : list Z :=
  take 92 bt ++ nonce ++ drop 124 bt.

(** The 256 bytes of a haiku in character format: the text of its tokens,
    then zeros. *)
Definition expanded (T : list Z) : list Z :=
  TriggRef.plain_text T ++ repeat 0 (HAIKUSIZE - length (TriggRef.plain_text T)).

(** The TRIGG chain of a trailer: its merkle root, the first haiku of its
    nonce in character format, the second haiku as tokens, and its block
    number. *)
Definition trigg_chain (bt : list Z) : list Z :=
  take 32 (drop 60 bt) ++ expanded (take 16 (drop 92 bt))
    ++ take 16 (drop 108 bt) ++ take 8 (drop 32 bt).

(** The fields of a context have the sizes of the struct. *)
Definition trigg_sized (T : TRIGG_ALGO) : Prop :=
  length (t_mroot T) = 32%nat /\ length (t_haiku T) = 256%nat /\
  length (t_haiku2 T) = 16%nat /\ length (t_bnum T) = 8%nat /\
  length (t_haiku1 T) = 16%nat.

(** A context in use on the trailer [bt]: it holds the merkle root, the
    block number and the difficulty of [bt], and its secondary haiku was
    drawn by the generator. *)
Definition trigg_inv (bt : list Z) (T : TRIGG_ALGO) : Prop :=
  trigg_sized T /\
  t_mroot T = take 32 (drop 60 bt) /\
  t_bnum T = take 8 (drop 32 bt) /\
  t_diff T = le_value (take 4 (drop 56 bt)) /\
  bytes (t_haiku2 T) /\ trigg_syntax (t_haiku2 T) = Some 1.

(** ** The transformations of nighthash *)

(** What a transformation of the first [k] bytes of a buffer keeps: the
    length of the buffer, the bytes from [k] on, and that its contents are
    bytes. *)
Definition tail_kept (k : nat) (data data' : list Z) : Prop :=
  length data' = length data /\
  drop k data' = drop k data /\
  (bytes data -> bytes data').

(** ** The Peach proof of work *)

(** The number of even bytes of a hash. *)
Fixpoint even_bytes (l : list Z) : nat :=
  match l with
  | [] => O
  | b :: l' => ((if Z.even b then 1 else 0) + even_bytes l')%nat
  end.

(** A Peach context in use on the trailer [bt]: it refers to [bt] and
    holds its difficulty, its map and cache are consistent, and the second
    half of its nonce is a haiku that passes [trigg_syntax]. *)
Definition peach_in_use (digest : hash_algo -> list Z -> list Z)
    (bt : list Z) (P : PEACH_ALGO) : Prop :=
  PeachRef.peach_inv digest (take 32 bt) P /\
  p_bt P = Some bt /\
  p_diff P = le_value (take 4 (drop 56 bt)) /\
  length (p_nonce P) = 32%nat /\
  trigg_syntax (drop 16 (p_nonce P)) = Some 1.

(** ** Examples *)

(** A context whose fields hold arbitrary bytes. *)
Definition junk_context : TRIGG_ALGO :=
  {| t_mroot := repeat 7 32; t_haiku := repeat 7 256; t_haiku2 := repeat 7 16;
     t_bnum := repeat 7 8; t_haiku1 := repeat 7 16; t_diff := 7 |}.


(** A context of a miner on [trailer_example]: a map and a cache with
    nothing cached, and the haiku drawn from seed 1 as secondary haiku. *)
Definition miner_example : PEACH_ALGO :=
  {| p_bt := Some PeachRef.trailer_example;
     p_map := Some {| blk := 1%positive; size := PEACH_SIZE; mem := fun _ => 0 |};
     p_cache := Some {| blk := 2%positive; size := PEACH_MAP; mem := fun _ => 0 |};
     p_tile := repeat 0 PEACH_TILE;
     p_nonce := repeat 0 16 ++ PeachRef.haiku_example;
     p_diff := 0 |}.

End MoreRef.

(** * Properties of the Trigg core *)

Module TriggSpec.
Import Trigg TriggRef.

(** ** Elementary facts on bytes and buffers *)

Lemma uint8_id (x : Z) : 0 <= x < 256 -> uint8 x = x.
Proof. intros Hx. unfold uint8. apply Z.mod_small. exact Hx. Qed.

Lemma bytes_lookup (l : list Z) (i : nat) (b : Z) :
  bytes l -> l !! i = Some b -> is_byte b.
Proof. intros Hl Hi. eapply Forall_lookup_1; eauto. Qed.

(** A boolean test for byte strings, to run on concrete buffers. *)
Lemma bytesb_ok (l : list Z) : bytesb l = true -> bytes l.
Proof.
  unfold bytesb, bytes, is_byte. intros H. apply Forall_forall. intros x Hx.
  apply list_elem_of_In in Hx.
  rewrite forallb_forall in H. specialize (H x Hx). lia.
Qed.

Lemma lookup_repeat (x : Z) (n i : nat) : (i < n)%nat -> repeat x n !! i = Some x.
Proof.
  revert i. induction n as [|n IH]; intros i Hi; [lia|].
  destruct i as [|i]; cbn; [reflexivity | apply IH; lia].
Qed.

Lemma store_Some (buf : list Z) (i : nat) (v : Z) :
  (i < length buf)%nat -> store buf i v = Some (<[i := v]> buf).
Proof. intros Hi. unfold store. case_decide; [reflexivity | lia]. Qed.

Lemma store_inv (buf buf' : list Z) (i : nat) (v : Z) :
  store buf i v = Some buf' -> (i < length buf)%nat /\ buf' = <[i := v]> buf.
Proof. unfold store. case_decide; intros H0; inversion H0; auto. Qed.

(** ** The difficulty evaluator *)

Lemma eval_coarse_true (n : nat) (h : list Z) (bp : nat) :
  (bp + n <= length h)%nat ->
  Forall (fun b => b = 0) (take n (drop bp h)) ->
  eval_coarse n h bp = Some (true, (bp + n)%nat).
Proof.
  revert bp. induction n as [|n IH]; intros bp Hlen Hz; simpl.
  - f_equal. f_equal. lia.
  - destruct (lookup_lt_is_Some_2 h bp) as [b Hb]; [lia|].
    unfold load. rewrite Hb. simpl.
    rewrite (drop_S _ _ _ Hb) in Hz. simpl in Hz.
    apply Forall_cons in Hz as [-> Hz]. simpl.
    rewrite IH by (auto; lia). f_equal. f_equal. lia.
Qed.

Lemma eval_coarse_false (n : nat) (h : list Z) (bp : nat) :
  (bp + n <= length h)%nat ->
  ~ Forall (fun b => b = 0) (take n (drop bp h)) ->
  exists bp', eval_coarse n h bp = Some (false, bp').
Proof.
  revert bp. induction n as [|n IH]; intros bp Hlen Hz; simpl.
  - exfalso. apply Hz. rewrite take_0. constructor.
  - destruct (lookup_lt_is_Some_2 h bp) as [b Hb]; [lia|].
    unfold load. rewrite Hb. simpl.
    rewrite (drop_S _ _ _ Hb) in Hz. simpl in Hz.
    destruct (Z.eqb_spec b 0) as [->|Hne]; simpl.
    + apply IH; [lia|]. intros Hf. apply Hz. constructor; auto.
    + eauto.
Qed.

(** The fine check of [trigg_eval] on one byte. *)
Lemma fine_mask (b k : Z) :
  0 <= b -> 0 < k < 8 ->
  Z.land b (Z.lnot (Z.shiftr 255 k)) = 0 <-> b < 2 ^ (8 - k).
Proof.
  intros Hb Hk.
  replace (Z.shiftr 255 k) with (Z.ones (8 - k)).
  2:{ assert (Hc : k = 1 \/ k = 2 \/ k = 3 \/ k = 4 \/ k = 5 \/ k = 6 \/ k = 7) by lia.
      destruct Hc as [-> | [-> | [-> | [-> | [-> | [-> | ->]]]]]]; reflexivity. }
  rewrite <- Z.ldiff_land, Z.ldiff_ones_r by lia.
  rewrite Z.shiftl_eq_0_iff by lia.
  rewrite Z.shiftr_div_pow2 by lia.
  split; intros H.
  - apply Z.div_small_iff in H; lia.
  - apply Z.div_small. lia.
Qed.

Lemma top_bits_zero (b k : Z) :
  0 <= b < 256 -> 0 < k < 8 ->
  b < 2 ^ (8 - k) <-> (forall j, 8 - k <= j < 8 -> Z.testbit b j = false).
Proof.
  intros Hb Hk. split.
  - intros Hlt j Hj.
    destruct (Z.eq_dec b 0) as [->|Hne]; [apply Z.bits_0|].
    apply Z.bits_above_log2; [lia|].
    assert (Z.log2 b < 8 - k) by (apply Z.log2_lt_pow2; lia). lia.
  - intros Hbits.
    destruct (Z_lt_ge_dec b (2 ^ (8 - k))) as [Hlt|Hge]; [exact Hlt|].
    exfalso.
    assert (Hpos : 0 < b) by (pose proof (Z.pow_pos_nonneg 2 (8 - k)); lia).
    assert (Hlo : 8 - k <= Z.log2 b) by (apply Z.log2_le_pow2; lia).
    assert (Hhi : Z.log2 b < 8) by (apply Z.log2_lt_pow2; simpl; lia).
    pose proof (Z.bit_log2 b Hpos) as Hbit.
    rewrite Hbits in Hbit by lia. discriminate.
Qed.

(** [trigg_eval] decides the byte-wise reading. *)
Lemma trigg_eval_cases (h : list Z) (d : Z) :
  length h = 32%nat -> bytes h -> 0 <= d < 256 ->
  (trigg_eval h d = Some 1 /\ zero_prefix h d) \/
  (trigg_eval h d = Some 0 /\ ~ zero_prefix h d).
Proof.
  intros Hlen Hb Hd.
  assert (Hk : 0 <= d mod 8 < 8) by (apply Z.mod_pos_bound; lia).
  assert (Hn : 0 <= d / 8 < 32) by (pose proof (Z.div_mod d 8); lia).
  unfold trigg_eval, zero_prefix.
  rewrite (uint8_id d) by lia.
  rewrite (Z.shiftr_div_pow2 d 3) by lia. change (2 ^ 3) with 8.
  rewrite (uint8_id (d / 8)) by lia.
  change 7 with (Z.ones 3). rewrite Z.land_ones by lia. change (2 ^ 3) with 8.
  set (n := Z.to_nat (d / 8)).
  assert (Hnlen : (n < 32)%nat) by (subst n; lia).
  destruct (decide (Forall (fun b => b = 0) (take n h))) as [Hz|Hnz].
  - rewrite (eval_coarse_true n h 0) by (rewrite ?drop_0; auto; lia). simpl.
    destruct (Z.eqb_spec (d mod 8) 0) as [Hk0|Hk0]; simpl.
    + left. split; [reflexivity|]. split; [exact Hz|]. intros; contradiction.
    + destruct (lookup_lt_is_Some_2 h n) as [b Hbn]; [lia|].
      unfold load. rewrite Hbn. simpl.
      pose proof (bytes_lookup _ _ _ Hb Hbn) as Hbb. unfold is_byte in Hbb.
      destruct (Z.eqb_spec (Z.land b (Z.lnot (Z.shiftr 255 (d mod 8)))) 0) as [He|He]; simpl.
      * left. split; [reflexivity|]. split; [exact Hz|].
        intros _. exists b. split; [reflexivity|].
        apply top_bits_zero; [lia|lia|]. apply fine_mask; [lia|lia|exact He].
      * right. split; [reflexivity|]. intros [_ Hf].
        destruct (Hf Hk0) as (b' & Hb' & Hbits).
        inversion Hb'; subst b'.
        apply He. apply fine_mask; [lia|lia|]. apply top_bits_zero; [lia|lia|exact Hbits].
  - destruct (eval_coarse_false n h 0) as [bp' Hc]; [lia|rewrite drop_0; exact Hnz|].
    rewrite Hc. simpl. right. split; [reflexivity|]. intros [Hz _]. contradiction.
Qed.


(** The big-endian value of a byte string. *)
Lemma fold_be_acc (l : list Z) (a : Z) :
  fold_left (fun acc b => acc * 256 + b) l a = a * 256 ^ Z.of_nat (length l) + be_value l.
Proof.
  unfold be_value. revert a. induction l as [|x l IH]; intros a; simpl fold_left.
  - simpl. lia.
  - rewrite IH, (IH (0 * 256 + x)). rewrite length_cons, Nat2Z.inj_succ, Z.pow_succ_r by lia.
    lia.
Qed.

Lemma be_value_app (l1 l2 : list Z) :
  be_value (l1 ++ l2) = be_value l1 * 256 ^ Z.of_nat (length l2) + be_value l2.
Proof. unfold be_value at 1. rewrite fold_left_app, fold_be_acc. reflexivity. Qed.

Lemma be_value_cons (b : Z) (l : list Z) :
  be_value (b :: l) = b * 256 ^ Z.of_nat (length l) + be_value l.
Proof. unfold be_value at 1. simpl fold_left. rewrite fold_be_acc. lia. Qed.

Lemma be_value_bound (l : list Z) :
  bytes l -> 0 <= be_value l < 256 ^ Z.of_nat (length l).
Proof.
  induction 1 as [|b l Hb Hl IH].
  - unfold be_value. simpl. lia.
  - rewrite be_value_cons, length_cons, Nat2Z.inj_succ, Z.pow_succ_r by lia.
    unfold is_byte in Hb. nia.
Qed.

Lemma be_value_zero (l : list Z) :
  bytes l -> be_value l = 0 <-> Forall (fun b => b = 0) l.
Proof.
  induction 1 as [|b l Hb Hl IH].
  - split; [constructor | reflexivity].
  - rewrite be_value_cons. pose proof (be_value_bound l Hl) as Hbd.
    unfold is_byte in Hb.
    assert (Hp : 0 < 256 ^ Z.of_nat (length l)) by (apply Z.pow_pos_nonneg; lia).
    split.
    + intros H0. assert (b = 0) by nia. subst b.
      constructor; [reflexivity|]. apply IH. lia.
    + intros Hf. apply Forall_cons in Hf as [-> Hf]. apply IH in Hf. lia.
Qed.

(** Leading zero bits of a 256-bit integer, as a bound. *)
Lemma leading_zeros_ge_lt (v d : Z) :
  0 <= v < 2 ^ 256 -> 0 <= d <= 256 ->
  leading_zeros_ge v d <-> v < 2 ^ (256 - d).
Proof.
  intros Hv Hd. unfold leading_zeros_ge. split.
  - intros Hbits.
    destruct (Z_lt_ge_dec v (2 ^ (256 - d))) as [Hlt|Hge]; [exact Hlt|]. exfalso.
    assert (Hpos : 0 < v) by (pose proof (Z.pow_pos_nonneg 2 (256 - d)); lia).
    assert (Hlo : 256 - d <= Z.log2 v) by (apply Z.log2_le_pow2; lia).
    assert (Hhi : Z.log2 v < 256) by (apply Z.log2_lt_pow2; lia).
    pose proof (Z.bit_log2 v Hpos) as Hbit.
    rewrite Hbits in Hbit by lia. discriminate.
  - intros Hlt i Hi.
    destruct (Z.eq_dec v 0) as [->|Hne]; [apply Z.bits_0|].
    apply Z.bits_above_log2; [lia|].
    assert (Z.log2 v < 256 - d) by (apply Z.log2_lt_pow2; lia). lia.
Qed.

(** The byte-wise reading and the bound on the big-endian value agree. *)
Lemma zero_prefix_lt (h : list Z) (d : Z) :
  length h = 32%nat -> bytes h -> 0 <= d < 256 ->
  zero_prefix h d <-> be_value h < 2 ^ (256 - d).
Proof.
  intros Hlen Hb Hd.
  assert (Hk : 0 <= d mod 8 < 8) by (apply Z.mod_pos_bound; lia).
  assert (Hn : 0 <= d / 8 < 32) by (pose proof (Z.div_mod d 8); lia).
  unfold zero_prefix. set (n := Z.to_nat (d / 8)).
  assert (Hnlen : (n < 32)%nat) by (subst n; lia).
  destruct (lookup_lt_is_Some_2 h n) as [b Hbn]; [lia|].
  pose proof (bytes_lookup _ _ _ Hb Hbn) as Hbb. unfold is_byte in Hbb.
  assert (Hv : be_value h = be_value (take n h) * 256 ^ Z.of_nat (S (32 - S n))
                            + (b * 256 ^ Z.of_nat (32 - S n) + be_value (drop (S n) h))).
  { rewrite <- (take_drop n h) at 1. rewrite (drop_S _ _ _ Hbn).
    rewrite be_value_app, be_value_cons.
    rewrite length_cons, length_drop, Hlen. reflexivity. }
  rewrite Hv. clear Hv. rewrite Hbn.
  assert (Hbt : bytes (take n h)) by (apply Forall_take; exact Hb).
  assert (Hbr : bytes (drop (S n) h)) by (apply Forall_drop; exact Hb).
  pose proof (be_value_bound _ Hbt) as HA. pose proof (be_value_bound _ Hbr) as HR.
  rewrite length_drop, Hlen in HR.
  rewrite <- (be_value_zero _ Hbt).
  set (A := be_value (take n h)) in *. set (R := be_value (drop (S n) h)) in *.
  replace (Z.of_nat (S (32 - S n))) with (Z.succ (Z.of_nat (32 - S n))) by lia.
  rewrite Z.pow_succ_r by lia.
  set (P := 256 ^ Z.of_nat (32 - S n)) in *.
  assert (HP : 0 < P) by (apply Z.pow_pos_nonneg; lia).
  replace (256 - d) with ((8 - d mod 8) + 8 * Z.of_nat (32 - S n))
    by (pose proof (Z.div_mod d 8); subst n; lia).
  rewrite Z.pow_add_r by lia.
  rewrite (Z.pow_mul_r 2 8) by lia. change (2 ^ 8) with 256. fold P.
  set (M := 2 ^ (8 - d mod 8)).
  assert (HM : 0 < M <= 256).
  { subst M. split; [apply Z.pow_pos_nonneg; lia|].
    change 256 with (2 ^ 8). apply Z.pow_le_mono_r; lia. }
  assert (HM0 : d mod 8 = 0 -> M = 256) by (intros E; subst M; rewrite E; reflexivity).
  split.
  - intros [HA0 Hfine]. rewrite HA0.
    destruct (Z.eq_dec (d mod 8) 0) as [E|E].
    + rewrite (HM0 E). nia.
    + destruct (Hfine E) as (b' & Hb' & Hbits). inversion Hb'; subst b'.
      apply top_bits_zero in Hbits; [|lia|lia]. fold M in Hbits. nia.
  - intros Hlt. assert (HA0 : A = 0) by nia. split; [exact HA0|].
    intros E. exists b. split; [reflexivity|].
    apply top_bits_zero; [lia|lia|]. fold M. nia.
Qed.


(** C2. For a 32-byte hash [h] and a difficulty [d] of the 8-bit range,
    [trigg_eval h d] returns 1 exactly when the integer of [h], read
    big-endian, has at least [d] leading zero bits among its 256, and
    returns 0 otherwise.  Having [d] leading zero bits is the same as: the
    first [d / 8] bytes are zero and, when [d mod 8] is not zero, the top
    [d mod 8] bits of the next byte are zero. *)
Theorem trigg_eval_leading_zeros (h : list Z) (d : Z) :
  length h = 32%nat -> bytes h -> 0 <= d < 256 ->
  (trigg_eval h d = Some 1 \/ trigg_eval h d = Some 0) /\
  (trigg_eval h d = Some 1 <-> leading_zeros_ge (be_value h) d) /\
  (leading_zeros_ge (be_value h) d <-> zero_prefix h d).
Proof.
  intros Hlen Hb Hd.
  pose proof (be_value_bound h Hb) as Hv. rewrite Hlen in Hv.
  change (256 ^ Z.of_nat 32) with (2 ^ 256) in Hv.
  assert (Hlz : leading_zeros_ge (be_value h) d <-> zero_prefix h d).
  { rewrite leading_zeros_ge_lt by lia. symmetry. apply zero_prefix_lt; assumption. }
  destruct (trigg_eval_cases h d Hlen Hb Hd) as [[He Hz]|[He Hz]]; rewrite He.
  - split; [left; reflexivity|]. split; [|exact Hlz].
    split; [intros _; apply Hlz; exact Hz | reflexivity].
  - split; [right; reflexivity|]. split; [|exact Hlz].
    split; [discriminate | intros Hl; apply Hlz in Hl; contradiction].
Qed.

(** The hash [00 00 1f ff .. ff] has 19 leading zero bits: it passes at
    difficulty 19. *)
Lemma trigg_eval_leading_zeros_witness :
  trigg_eval (0 :: 0 :: 31 :: repeat 255 29) 19 = Some 1 /\
  leading_zeros_ge (be_value (0 :: 0 :: 31 :: repeat 255 29)) 19.
Proof.
  assert (Hb : bytes (0 :: 0 :: 31 :: repeat 255 29)) by (apply bytesb_ok; reflexivity).
  assert (Hd : 0 <= 19 < 256) by lia.
  destruct (trigg_eval_leading_zeros (0 :: 0 :: 31 :: repeat 255 29) 19 eq_refl Hb Hd)
    as (_ & H & _).
  split; [reflexivity|]. apply H. reflexivity.
Defined.

(** C5, as the code has it.  At difficulty 0 every 32-byte hash is
    accepted.  The difficulty is an 8-bit parameter, so 256 cannot reach
    the evaluator: it is reduced to 0 and every hash is accepted as well.
    The largest difficulty is 255, where exactly the hashes with 31 zero
    bytes followed by 0 or 1 are accepted. *)
Theorem trigg_eval_boundaries (h : list Z) :
  length h = 32%nat -> bytes h ->
  trigg_eval h 0 = Some 1 /\
  trigg_eval h 256 = Some 1 /\
  (trigg_eval h 255 = Some 1 <->
   Forall (fun b => b = 0) (take 31 h) /\ (h !! 31%nat = Some 0 \/ h !! 31%nat = Some 1)).
Proof.
  intros Hlen Hb. split; [reflexivity|]. split; [reflexivity|].
  destruct (lookup_lt_is_Some_2 h 31) as [b Hb31]; [lia|].
  pose proof (bytes_lookup _ _ _ Hb Hb31) as Hbb. unfold is_byte in Hbb.
  assert (Hz : zero_prefix h 255 <->
               Forall (fun b => b = 0) (take 31 h) /\ (b = 0 \/ b = 1)).
  { unfold zero_prefix. change (Z.to_nat (255 / 8)) with 31%nat.
    change (255 mod 8) with 7. rewrite Hb31. split.
    - intros [Hz Hf]. split; [exact Hz|].
      destruct (Hf ltac:(lia)) as (b' & Hb' & Hbits). inversion Hb'; subst b'.
      apply (top_bits_zero b 7) in Hbits; [|lia|lia]. change (2 ^ (8 - 7)) with 2 in Hbits. lia.
    - intros [Hz Hb01]. split; [exact Hz|]. intros _. exists b. split; [reflexivity|].
      apply (top_bits_zero b 7); [lia|lia|]. change (2 ^ (8 - 7)) with 2. lia. }
  rewrite Hb31.
  destruct (trigg_eval_cases h 255 Hlen Hb ltac:(lia)) as [[He Hp]|[He Hp]]; rewrite He.
  - split; [intros _|reflexivity]. apply Hz in Hp as [Hp1 Hp2].
    split; [exact Hp1|]. destruct Hp2 as [->| ->]; auto.
  - split; [discriminate|]. intros [H1 H2]. exfalso. apply Hp. apply Hz.
    split; [exact H1|]. destruct H2 as [H2|H2]; inversion H2; auto.
Qed.

Lemma trigg_eval_boundaries_witness :
  trigg_eval (repeat 0 31 ++ [1]) 0 = Some 1 /\
  trigg_eval (repeat 0 31 ++ [1]) 256 = Some 1 /\
  trigg_eval (repeat 0 31 ++ [1]) 255 = Some 1.
Proof.
  assert (Hb : bytes (repeat 0 31 ++ [1])) by (apply bytesb_ok; reflexivity).
  destruct (trigg_eval_boundaries (repeat 0 31 ++ [1]) eq_refl Hb) as (H0 & H256 & H255).
  split; [exact H0|]. split; [exact H256|].
  apply H255. split; [repeat constructor | right; reflexivity].
Defined.

(** C5 as stated fails: the claim has difficulty 256 accept only the
    all-zero hash, but the hash of 32 bytes [ff] is accepted, since the
    8-bit parameter turns 256 into 0. *)
Lemma trigg_eval_256_not_only_zero :
  trigg_eval (repeat 255 32) 256 = Some 1 /\
  ~ Forall (fun b => b = 0) (repeat 255 32).
Proof.
  split; [reflexivity|]. intros H. inversion H; discriminate.
Qed.

End TriggSpec.

Module TriggGrammar.
Import Trigg TriggRef TriggSpec.

(** ** The dictionary and the frames as tables *)

Lemma Dict_length : length Dict = 256%nat.
Proof. reflexivity. Qed.

Lemma dict_byte (t : Z) : is_byte t -> exists d, dict t = Some d.
Proof.
  intros Ht. unfold is_byte in Ht. unfold dict.
  apply lookup_lt_is_Some_2. rewrite Dict_length. lia.
Qed.

Lemma dict_fe_zero (t : Z) (d : DICT) :
  is_byte t -> dict t = Some d -> fe d = 0 <-> t = 0.
Proof.
  intros Ht Hd. unfold is_byte in Ht. unfold dict in Hd.
  assert (Hc : fe_zero_check = true) by (vm_compute; reflexivity).
  unfold fe_zero_check in Hc. rewrite forallb_forall in Hc.
  specialize (Hc (Z.to_nat t)). rewrite Hd in Hc.
  assert (Hin : In (Z.to_nat t) (seq 0 256)) by (apply in_seq; lia).
  specialize (Hc Hin). apply Bool.eqb_prop in Hc.
  destruct (Z.eqb_spec (fe d) 0) as [E|E]; symmetry in Hc.
  - apply Nat.eqb_eq in Hc. split; [lia | intros _; exact E].
  - apply Nat.eqb_neq in Hc. split; [contradiction | lia].
Qed.

Lemma Frame_rows : Forall (fun fp => length fp = MAXH /\ fp !! 15%nat = Some 0) Frame.
Proof. apply Forall_forall. intros fp Hin. apply list_elem_of_In in Hin.
  simpl in Hin. repeat (destruct Hin as [<-|Hin]; [split; reflexivity|]). contradiction. Qed.

Lemma Frame_row (fp : list Z) :
  fp ∈ Frame -> length fp = MAXH /\ fp !! 15%nat = Some 0.
Proof. intros Hin. exact (proj1 (Forall_forall _ _) Frame_rows fp Hin). Qed.

(** ** trigg_syntax *)

Lemma load_features_of (n j : nat) (T : list Z) :
  bytes T -> (j + n = length T)%nat ->
  exists sf, load_features n j T = Some sf /\ features_of (drop j T) sf.
Proof.
  intros HT. revert j. induction n as [|n IH]; intros j Hlen; cbn [load_features].
  - exists []. split; [reflexivity|]. rewrite drop_ge by lia. constructor.
  - destruct (lookup_lt_is_Some_2 T j) as [t Ht]; [lia|].
    destruct (dict_byte t (bytes_lookup _ _ _ HT Ht)) as [d Hd].
    destruct (IH (S j)) as (sf & Hsf & Hf); [lia|].
    unfold load. rewrite Ht. cbn [mbind option_bind]. rewrite Hd. cbn [mbind option_bind].
    rewrite Hsf. cbn [mbind option_bind].
    exists (fe d :: sf). split; [reflexivity|].
    rewrite (drop_S _ _ _ Ht). constructor; [eauto | exact Hf].
Qed.

(** One frame: the loop returns 1 exactly on the accepted token strings. *)
Lemma unify_accepts (n j : nat) (fp T sf : list Z) :
  bytes T -> features_of T sf ->
  (j + n = length fp)%nat -> (j + n = length T)%nat ->
  exists b : bool, unify n j fp T sf = Some b /\
                   (b = true <-> accepts (drop j fp) (drop j T)).
Proof.
  intros HT Hsf. revert j. induction n as [|n IH]; intros j Hfp HlT; cbn [unify].
  - exists true. split; [reflexivity|]. rewrite !drop_ge by lia.
    split; [intros _; constructor | reflexivity].
  - destruct (lookup_lt_is_Some_2 fp j) as [f Hf]; [lia|].
    destruct (lookup_lt_is_Some_2 T j) as [t Ht]; [lia|].
    destruct (Forall2_lookup_l _ _ _ _ _ Hsf Ht) as (s & Hs & d & Hd & ->).
    pose proof (bytes_lookup _ _ _ HT Ht) as Hbt.
    rewrite (drop_S _ _ _ Hf), (drop_S _ _ _ Ht).
    unfold load. rewrite Hf. cbn [mbind option_bind].
    destruct (IH (S j)) as (b & Hb & Hacc); [lia|lia|].
    destruct (Z.eqb_spec f 0) as [->|Hf0].
    + rewrite Hs. cbn [mbind option_bind]. exists (fe d =? 0). split; [reflexivity|].
      rewrite Z.eqb_eq, (dict_fe_zero t d Hbt Hd). split.
      * intros ->. constructor.
      * intros Ha. inversion Ha; subst; [reflexivity | contradiction].
    + destruct (Z.eqb_spec (Z.land f F_XLIT) 0) as [Hx|Hx]; cbn [negb].
      * rewrite Hs. cbn [mbind option_bind].
        destruct (Z.eqb_spec (Z.land (fe d) f) 0) as [Hm|Hm].
        -- exists false. split; [reflexivity|]. split; [discriminate|].
           intros Ha. inversion Ha as [| |f' t' fp' T' _ Hsm _]; subst; [contradiction|].
           unfold slot_match in Hsm. rewrite (proj2 (Z.eqb_eq _ _) Hx) in Hsm.
           destruct Hsm as (d' & Hd' & Hne). rewrite Hd in Hd'. inversion Hd'; subst d'.
           contradiction.
        -- exists b. split; [exact Hb|]. rewrite Hacc. split.
           ++ intros Ha. constructor; [exact Hf0| |exact Ha].
              unfold slot_match. rewrite (proj2 (Z.eqb_eq _ _) Hx). eauto.
           ++ intros Ha. inversion Ha; subst; [contradiction | assumption].
      * rewrite Ht. cbn [mbind option_bind].
        destruct (Z.eqb_spec (Z.land f 255) t) as [Hm|Hm]; cbn [negb].
        -- exists b. split; [exact Hb|]. rewrite Hacc. split.
           ++ intros Ha. constructor; [exact Hf0| |exact Ha].
              unfold slot_match. rewrite (proj2 (Z.eqb_neq _ _) Hx). exact Hm.
           ++ intros Ha. inversion Ha; subst; [contradiction | assumption].
        -- exists false. split; [reflexivity|]. split; [discriminate|].
           intros Ha. inversion Ha as [| |f' t' fp' T' _ Hsm _]; subst; [contradiction|].
           unfold slot_match in Hsm. rewrite (proj2 (Z.eqb_neq _ _) Hx) in Hsm.
           contradiction.
Qed.

(** All frames: the first accepting frame returns 1. *)
Lemma try_frames_accepts (frames : list (list Z)) (T sf : list Z) :
  bytes T -> features_of T sf -> length T = MAXH ->
  Forall (fun fp => length fp = MAXH) frames ->
  (try_frames frames T sf = Some 1 /\ exists fp, fp ∈ frames /\ accepts fp T) \/
  (try_frames frames T sf = Some 0 /\ ~ exists fp, fp ∈ frames /\ accepts fp T).
Proof.
  intros HT Hsf HlT. induction 1 as [|fp frames Hfp Hrest IH]; cbn [try_frames].
  - right. split; [reflexivity|]. intros (fp & Hin & _). inversion Hin.
  - destruct (unify_accepts MAXH 0 fp T sf HT Hsf) as (b & Hb & Hacc);
      [rewrite Hfp; reflexivity | rewrite HlT; reflexivity |].
    rewrite !drop_0 in Hacc. rewrite Hb. cbn [mbind option_bind]. destruct b.
    + left. split; [reflexivity|]. exists fp. split; [left | apply Hacc; reflexivity].
    + destruct IH as [[He (fp' & Hin & Ha)]|[He Hno]]; rewrite He.
      * left. split; [reflexivity|]. exists fp'. split; [right; exact Hin | exact Ha].
      * right. split; [reflexivity|]. intros (fp' & Hin & Ha).
        apply elem_of_cons in Hin as [->|Hin].
        -- apply Hacc in Ha. discriminate.
        -- apply Hno. eauto.
Qed.

Lemma trigg_syntax_cases (T : list Z) :
  length T = MAXH -> bytes T ->
  (trigg_syntax T = Some 1 /\ exists fp, fp ∈ Frame /\ accepts fp T) \/
  (trigg_syntax T = Some 0 /\ ~ exists fp, fp ∈ Frame /\ accepts fp T).
Proof.
  intros HlT HT. unfold trigg_syntax.
  destruct (load_features_of MAXH 0 T HT) as (sf & Hsf & Hf); [rewrite HlT; reflexivity|].
  rewrite drop_0 in Hf. rewrite Hsf. cbn [mbind option_bind].
  apply try_frames_accepts; auto.
  eapply Forall_impl; [exact Frame_rows|]. intros fp [H _]. exact H.
Qed.


(** ** trigg_gen *)

Lemma land_255_byte (x : Z) : is_byte (Z.land x 255).
Proof.
  unfold is_byte. change 255 with (Z.ones 8). rewrite Z.land_ones by lia.
  apply Z.mod_pos_bound. lia.
Qed.

Lemma pick_word_match (fuel : nat) (f seed w seed' : Z) :
  pick_word fuel f seed = Some (w, seed') ->
  is_byte w /\ exists d, dict w = Some d /\ Z.land (fe d) f <> 0.
Proof.
  revert seed. induction fuel as [|fuel IH]; intros seed; cbn [pick_word]; [discriminate|].
  destruct (trigg_rand seed) as [r s1].
  change (MAXDICT - 1) with 255.
  destruct (dict (Z.land r 255)) as [d|] eqn:Hd; cbn [mbind option_bind]; [|discriminate].
  destruct (Z.eqb_spec (Z.land (fe d) f) 0) as [Hz|Hnz].
  - apply IH.
  - intros H. inversion H; subst. split; [apply land_255_byte | eauto].
Qed.

Lemma gen_slots_generated (fuel : nat) (fp : list Z) (seed : Z) (hp : list Z) (seed' : Z) :
  gen_slots fuel fp seed = Some (hp, seed') ->
  generated fp hp /\ bytes hp /\ length hp = length fp.
Proof.
  revert seed hp. induction fp as [|f fp IH]; intros seed hp; cbn [gen_slots].
  - intros H. inversion H. repeat split; constructor.
  - destruct (Z.eqb_spec f 0) as [->|Hf0].
    + destruct (gen_slots fuel fp seed) as [[hp1 s1]|] eqn:Hg; cbn [mbind option_bind];
        [|discriminate].
      intros H. inversion H; subst. destruct (IH _ _ Hg) as (Hgen & Hb & Hl).
      split; [constructor; exact Hgen|]. split; [constructor; [unfold is_byte; lia|exact Hb]|].
      cbn [length]. rewrite Hl. reflexivity.
    + destruct (Z.eqb_spec (Z.land f F_XLIT) 0) as [Hx|Hx]; cbn [negb].
      * destruct (pick_word fuel f seed) as [[w s1]|] eqn:Hp; cbn [mbind option_bind];
          [|discriminate].
        destruct (gen_slots fuel fp s1) as [[hp1 s2]|] eqn:Hg; cbn [mbind option_bind];
          [|discriminate].
        intros H. inversion H; subst. destruct (IH _ _ Hg) as (Hgen & Hb & Hl).
        destruct (pick_word_match _ _ _ _ _ Hp) as (Hw & d & Hd & Hm).
        rewrite (uint8_id w Hw).
        split; [|split; [constructor; assumption | cbn [length]; rewrite Hl; reflexivity]].
        constructor; [exact Hf0| |exact Hgen].
        unfold slot_match. rewrite (proj2 (Z.eqb_eq _ _) Hx). eauto.
      * destruct (gen_slots fuel fp seed) as [[hp1 s1]|] eqn:Hg; cbn [mbind option_bind];
          [|discriminate].
        intros H. inversion H; subst. destruct (IH _ _ Hg) as (Hgen & Hb & Hl).
        rewrite (uint8_id _ (land_255_byte f)).
        split; [|split; [constructor; [apply land_255_byte|assumption]
                        | cbn [length]; rewrite Hl; reflexivity]].
        constructor; [exact Hf0| |exact Hgen].
        unfold slot_match. rewrite (proj2 (Z.eqb_neq _ _) Hx). reflexivity.
Qed.

Lemma trigg_gen_generated (fuel : nat) (seed : Z) (T : list Z) (seed' : Z) :
  trigg_gen fuel seed = Some (T, seed') ->
  length T = MAXH /\ bytes T /\ exists fp, fp ∈ Frame /\ generated fp T.
Proof.
  unfold trigg_gen. destruct (trigg_rand seed) as [r s1].
  destruct (Frame !! Z.to_nat (r mod NFRAMES)) as [fp|] eqn:Hfp; cbn [mbind option_bind];
    [|discriminate].
  intros Hg. apply gen_slots_generated in Hg as (Hgen & Hb & Hl).
  assert (Hin : fp ∈ Frame) by (eapply list_elem_of_lookup_2; exact Hfp).
  destruct (Frame_row fp Hin) as [Hlen _].
  split; [congruence|]. split; [exact Hb|]. eauto.
Qed.

Lemma generated_accepts (fp T : list Z) : generated fp T -> accepts fp T.
Proof. induction 1; constructor; assumption. Qed.

Lemma generated_zero_slot (fp T : list Z) (j : nat) :
  generated fp T -> fp !! j = Some 0 -> T !! j = Some 0.
Proof.
  intros Hg. revert j. induction Hg as [|fp T Hg IH|f t fp T Hf Hm Hg IH]; intros j Hj.
  - destruct j; discriminate.
  - destruct j as [|j]; [reflexivity | apply IH; exact Hj].
  - destruct j as [|j]; [inversion Hj; contradiction | apply IH; exact Hj].
Qed.

Lemma trigg_gen_accepted (fuel : nat) (seed : Z) (T : list Z) (seed' : Z) :
  trigg_gen fuel seed = Some (T, seed') -> trigg_syntax T = Some 1.
Proof.
  intros Hg. apply trigg_gen_generated in Hg as (HlT & HT & fp & Hin & Hgen).
  destruct (trigg_syntax_cases T HlT HT) as [[He _]|[_ Hna]]; [exact He|].
  exfalso. apply Hna. exists fp. split; [exact Hin | apply generated_accepts; exact Hgen].
Qed.

End TriggGrammar.

Module TriggExpand.
Import Trigg TriggRef TriggSpec TriggGrammar.

(** ** Stores and loads at the end of a written prefix *)

(** The buffer is split as [pre ++ post] with the write pointer at
    [length pre]. *)
Lemma store_app (pre post : list Z) (p v : Z) :
  store (pre ++ p :: post) (length pre) v = Some ((pre ++ [v]) ++ post).
Proof.
  unfold store. rewrite length_app. cbn [length].
  case_decide; [|lia]. f_equal.
  rewrite insert_app_r_alt by lia. rewrite Nat.sub_diag. cbn.
  rewrite <- app_assoc. reflexivity.
Qed.

Lemma load_app (pre post : list Z) (p : Z) :
  load (pre ++ p :: post) (length pre) = Some p.
Proof. unfold load. apply list_lookup_middle. reflexivity. Qed.

Lemma length_snoc (pre : list Z) (v : Z) : length (pre ++ [v]) = S (length pre).
Proof. rewrite length_app. cbn. lia. Qed.

(** ** The copy of one token *)

Lemma copy_tok_app (w pre post : list Z) :
  (length (c_string w) < length w)%nat ->
  (length (c_string w) <= length post)%nat ->
  copy_tok w (pre ++ post) (length pre)
  = Some ((pre ++ c_string w) ++ drop (length (c_string w)) post,
          length (pre ++ c_string w)).
Proof.
  revert pre post. induction w as [|c w IH]; intros pre post Hz Hroom; cbn in Hz; [lia|].
  cbn [copy_tok c_string] in *.
  destruct (Z.eqb_spec c 0) as [->|Hc].
  - cbn. rewrite app_nil_r. reflexivity.
  - cbn [length] in Hz, Hroom. destruct post as [|p post]; [cbn in Hroom; lia|].
    rewrite store_app. cbn [mbind option_bind].
    rewrite <- length_snoc with (v := c). rewrite IH by (cbn in Hroom; lia).
    cbn [length drop]. rewrite <- !app_assoc. reflexivity.
Qed.

(** ** The dictionary tokens *)

Lemma tok_shape (c : Z) (d : DICT) :
  dict c = Some d ->
  (1 <= length (c_string (tok d)) <= 11)%nat /\ length (tok d) = 12%nat.
Proof.
  intros Hd. unfold dict in Hd.
  assert (Hc : tok_check = true) by (vm_compute; reflexivity).
  unfold tok_check in Hc. rewrite forallb_forall in Hc.
  apply list_elem_of_lookup_2, list_elem_of_In in Hd.
  specialize (Hc d Hd). cbv zeta in Hc.
  apply andb_prop in Hc as [Hc H12]. apply andb_prop in Hc as [H1 H11].
  apply Nat.leb_le in H1, H11. apply Nat.eqb_eq in H12. lia.
Qed.

Lemma separator_length (w : list Z) : (length (separator w) <= 1)%nat.
Proof.
  unfold separator. destruct (last w) as [c|]; [destruct (c =? 10)|]; cbn; lia.
Qed.

Lemma word_text_length (c : Z) : (length (word_text c) <= 12)%nat.
Proof.
  unfold word_text. destruct (dict c) as [d|] eqn:Hd; [|cbn; lia].
  cbv zeta. rewrite length_app.
  pose proof (tok_shape c d Hd). pose proof (separator_length (c_string (tok d))). lia.
Qed.

Lemma plain_text_length (T : list Z) :
  (length (plain_text T) <= 12 * length T)%nat.
Proof.
  induction T as [|t T IH]; cbn [plain_text length]; [lia|].
  destruct (t =? 0); cbn [length]; [lia|].
  rewrite length_app. pose proof (word_text_length t). lia.
Qed.

(** ** The loop over the words *)

Lemma expand_words_app (n i : nat) (T pre post : list Z) :
  bytes T -> (i + n = length T)%nat ->
  (length (plain_text (drop i T)) <= length post)%nat ->
  expand_words n i T (pre ++ post) (length pre)
  = Some ((pre ++ plain_text (drop i T)) ++ drop (length (plain_text (drop i T))) post,
          length (pre ++ plain_text (drop i T))).
Proof.
  intros HT. revert i pre post.
  induction n as [|n IH]; intros i pre post Hlen Hroom; cbn [expand_words].
  - rewrite drop_ge by lia. cbn. rewrite app_nil_r. reflexivity.
  - destruct (lookup_lt_is_Some_2 T i) as [c Hc]; [lia|].
    rewrite (drop_S _ _ _ Hc) in Hroom |- *. cbn [plain_text] in Hroom |- *.
    change (load T i) with (T !! i). rewrite Hc. cbn [mbind option_bind].
    destruct (Z.eqb_spec c 0) as [Hc0|Hc0].
    { cbn. rewrite app_nil_r. reflexivity. }
    destruct (dict_byte c (bytes_lookup _ _ _ HT Hc)) as [d Hd].
    pose proof (tok_shape c d Hd) as [Hw H12].
    rewrite length_app in Hroom.
    assert (Hwt : word_text c = c_string (tok d) ++ separator (c_string (tok d)))
      by (unfold word_text; rewrite Hd; reflexivity).
    rewrite Hd. cbn [mbind option_bind].
    rewrite Hwt in Hroom. rewrite length_app in Hroom.
    rewrite copy_tok_app by lia. cbn [mbind option_bind].
    set (w := c_string (tok d)) in *.
    destruct (last w) as [l|] eqn:Hlast.
    2:{ apply last_None in Hlast. rewrite Hlast in Hw. cbn in Hw. lia. }
    apply last_Some in Hlast as [w0 Hw0].
    assert (Hsep : separator w = if l =? 10 then [] else [32]).
    { unfold separator. rewrite Hw0, last_snoc. reflexivity. }
    assert (Hbuf : (pre ++ w) ++ drop (length w) post
                   = (pre ++ w0) ++ l :: drop (length w) post).
    { rewrite Hw0. rewrite <- !app_assoc. reflexivity. }
    assert (Hbp : length (pre ++ w) = S (length (pre ++ w0))).
    { rewrite Hw0, app_assoc. apply length_snoc. }
    rewrite Hbp. rewrite Hbuf at 1. rewrite load_app. cbn [mbind option_bind].
    rewrite <- Hbp.
    specialize (IH (S i) (pre ++ word_text c) (drop (length (word_text c)) post)).
    rewrite length_drop in IH.
    assert (Hgoal : forall buf2 bp2,
              buf2 = (pre ++ w ++ separator w)
                       ++ drop (length w + length (separator w)) post ->
              bp2 = (length (pre ++ w) + length (separator w))%nat ->
              expand_words n (S i) T buf2 bp2
              = Some ((pre ++ word_text c ++ plain_text (drop (S i) T))
                        ++ drop (length (word_text c ++ plain_text (drop (S i) T))) post,
                      length (pre ++ word_text c ++ plain_text (drop (S i) T)))).
    { intros buf2 bp2 -> ->.
      replace ((pre ++ w ++ separator w) ++ drop (length w + length (separator w)) post)
        with ((pre ++ word_text c) ++ drop (length (word_text c)) post)
        by (rewrite Hwt, length_app; reflexivity).
      replace (length (pre ++ w) + length (separator w))%nat
        with (length (pre ++ word_text c))
        by (rewrite Hwt, !length_app; lia).
      rewrite IH; [|lia|rewrite Hwt, length_app; lia].
      f_equal. f_equal.
      - rewrite drop_drop, <- !app_assoc, length_app. reflexivity.
      - rewrite !length_app. lia. }
    rewrite Hsep in Hgoal, Hroom.
    destruct (Z.eqb_spec l 10) as [Hl|Hl]; cbn [negb].
    + cbn [mbind option_bind]. apply Hgoal.
      * rewrite app_nil_r. cbn [length]. rewrite Nat.add_0_r. reflexivity.
      * cbn [length]. lia.
    + cbn [length] in Hroom.
      destruct (drop (length w) post) as [|p post'] eqn:Hdrop.
      { apply (f_equal length) in Hdrop. rewrite length_drop in Hdrop. cbn in Hdrop. lia. }
      rewrite store_app. cbn [mbind option_bind]. apply Hgoal.
      * cbn [length].
        replace (length w + 1)%nat with (length w + 1)%nat by lia.
        rewrite <- drop_drop, Hdrop. cbn [drop]. rewrite drop_0.
        rewrite <- !app_assoc. reflexivity.
      * cbn [length]. lia.
Qed.


(** ** The zero fill *)

Lemma zero_bytes_app (k : nat) (pre post : list Z) :
  (k <= length post)%nat ->
  zero_bytes k (pre ++ post) (length pre)
  = Some ((pre ++ repeat 0 k) ++ drop k post, length (pre ++ repeat 0 k)).
Proof.
  revert pre post. induction k as [|k IH]; intros pre post Hk; cbn [zero_bytes repeat].
  - rewrite drop_0, app_nil_r. reflexivity.
  - destruct post as [|p post]; [cbn in Hk; lia|]. cbn [length] in Hk.
    rewrite store_app. cbn [mbind option_bind].
    rewrite <- length_snoc with (v := 0). rewrite IH by lia.
    cbn [drop]. rewrite <- !app_assoc. reflexivity.
Qed.

Lemma zero_quads_app (q fuel lbp : nat) (pre post : list Z) :
  length post = (8 * q)%nat -> (q <= fuel)%nat -> length (pre ++ post) = lbp ->
  zero_quads fuel lbp (pre ++ post) (length pre) = Some (pre ++ repeat 0 (8 * q)).
Proof.
  revert fuel pre post. induction q as [|q IH]; intros fuel pre post Hpost Hfuel Hlbp.
  - destruct post; [|discriminate]. rewrite app_nil_r in *.
    cbn [Nat.mul repeat]. rewrite app_nil_r.
    destruct fuel; cbn [zero_quads]; case_decide; try lia; reflexivity.
  - destruct fuel as [|fuel]; [lia|]. cbn [zero_quads].
    rewrite length_app in Hlbp. case_decide; [|lia].
    rewrite zero_bytes_app by lia. cbn [mbind option_bind].
    rewrite (IH fuel (pre ++ repeat 0 8) (drop 8 post)).
    + rewrite <- app_assoc, <- repeat_app. f_equal. f_equal. f_equal. lia.
    + rewrite length_drop. lia.
    + lia.
    + rewrite !length_app, length_drop, repeat_length in *. lia.
Qed.

(** ** trigg_expand *)

(** The buffer on return: the tokens copied as they are, then zeros. *)
Lemma trigg_expand_plain (T haiku : list Z) :
  length T = MAXH -> bytes T -> length haiku = HAIKUSIZE ->
  trigg_expand T haiku
  = Some (plain_text T ++ repeat 0 (HAIKUSIZE - length (plain_text T))).
Proof.
  intros HlT HT Hh. unfold trigg_expand.
  pose proof (plain_text_length T) as Hpt. rewrite HlT in Hpt.
  change MAXH with 16%nat in *. change HAIKUSIZE with 256%nat in *.
  pose proof (expand_words_app 16 0 T [] haiku HT) as He.
  rewrite drop_0 in He. cbn [app length] in He. rewrite He by lia. clear He.
  cbn [mbind option_bind].
  set (txt := plain_text T) in *.
  set (i := Z.to_nat (Z.land (Z.of_nat 256 - Z.of_nat (length txt)) 7)).
  assert (Hi : Z.of_nat i = (256 - Z.of_nat (length txt)) mod 8).
  { subst i. change 7 with (Z.ones 3). rewrite Z.land_ones by lia.
    change (2 ^ 3) with 8. rewrite Z2Nat.id; [reflexivity|].
    apply Z.mod_pos_bound. lia. }
  pose proof (Z.div_mod (256 - Z.of_nat (length txt)) 8 ltac:(lia)) as Hdm.
  pose proof (Z.mod_pos_bound (256 - Z.of_nat (length txt)) 8 ltac:(lia)) as Hmb.
  set (q := Z.to_nat ((256 - Z.of_nat (length txt)) / 8)).
  assert (Hq : (256 - length txt = i + 8 * q)%nat) by (subst q; lia).
  rewrite zero_bytes_app by (rewrite length_drop; lia).
  cbn [mbind option_bind].
  rewrite (zero_quads_app q).
  - rewrite <- app_assoc, <- repeat_app. rewrite Hq. reflexivity.
  - rewrite !length_drop. lia.
  - change (256 / 8)%nat with 32%nat. lia.
  - rewrite !length_app, !length_drop, repeat_length. lia.
Qed.


Lemma plain_text_app (A B : list Z) :
  Forall (fun c => c <> 0) A -> plain_text (A ++ B) = plain_text A ++ plain_text B.
Proof.
  induction 1 as [|a A Ha HA IH]; cbn [app plain_text]; [reflexivity|].
  destruct (Z.eqb_spec a 0); [contradiction|]. rewrite IH, app_assoc. reflexivity.
Qed.

Lemma backspace_token_text (t : Z) :
  backspace_token t -> t <> 0 /\ exists w, word_text t = 8 :: w.
Proof.
  intros (d & Hd & Hh). split.
  - intros ->. vm_compute in Hd. inversion Hd; subst d. vm_compute in Hh. discriminate.
  - unfold word_text. rewrite Hd. cbv zeta.
    destruct (c_string (tok d)) as [|c w]; [discriminate|].
    cbn in Hh. inversion Hh; subst c. cbn [app]. eauto.
Qed.

(** C4, as the code has it.  When the [k]-th token of a token array is
    one whose first byte is the backspace character, and no earlier token
    is zero, [trigg_expand] leaves in the buffer the whole text of the
    earlier tokens, followed by the bytes of the token as they are in the
    dictionary, the byte 0x08 first, and its separator.  No byte written
    before is removed. *)
Theorem trigg_expand_backspace_verbatim (T haiku : list Z) (k : nat) (t : Z) :
  length T = MAXH -> bytes T -> length haiku = HAIKUSIZE ->
  Forall (fun c => c <> 0) (take k T) -> T !! k = Some t -> backspace_token t ->
  exists out,
    trigg_expand T haiku = Some out /\
    take (length (plain_text (take k T))) out = plain_text (take k T) /\
    out !! length (plain_text (take k T)) = Some 8 /\
    take (length (word_text t)) (drop (length (plain_text (take k T))) out) = word_text t.
Proof.
  intros HlT HT Hh Hnz Hk Hbs.
  destruct (backspace_token_text t Hbs) as (Ht0 & w & Hw).
  rewrite (trigg_expand_plain T haiku HlT HT Hh). eexists. split; [reflexivity|].
  assert (Hsplit : plain_text T
                   = plain_text (take k T) ++ word_text t ++ plain_text (drop (S k) T)).
  { rewrite <- (take_drop k T) at 1. rewrite (plain_text_app _ _ Hnz).
    rewrite (drop_S _ _ _ Hk). cbn [plain_text].
    destruct (Z.eqb_spec t 0); [contradiction | reflexivity]. }
  rewrite Hsplit. rewrite <- !app_assoc.
  split; [apply take_app_length|]. split.
  - rewrite Hw. cbn [app]. apply list_lookup_middle. reflexivity.
  - rewrite drop_app_length. apply take_app_length.
Qed.

(** The haiku of the source's header: "a raindrop / on sunrise air-- /
    drowned".  Its seventh token is ["\b--"]. *)
Lemma trigg_expand_backspace_verbatim_witness :
  exists out,
    trigg_expand [5; 205; 1; 14; 251; 215; 3; 1; 116; 0; 0; 0; 0; 0; 0; 0] (repeat 0 256)
    = Some out /\
    out !! 26%nat = Some 32 /\ out !! 27%nat = Some 8.
Proof.
  assert (Hb : bytes [5; 205; 1; 14; 251; 215; 3; 1; 116; 0; 0; 0; 0; 0; 0; 0])
    by (apply bytesb_ok; reflexivity).
  assert (Hnz : Forall (fun c => c <> 0)
                  (take 6 [5; 205; 1; 14; 251; 215; 3; 1; 116; 0; 0; 0; 0; 0; 0; 0]))
    by (cbn [take]; repeat constructor; discriminate).
  assert (Hbs : backspace_token 3) by (eexists; split; reflexivity).
  destruct (trigg_expand_backspace_verbatim
              [5; 205; 1; 14; 251; 215; 3; 1; 116; 0; 0; 0; 0; 0; 0; 0] (repeat 0 256) 6 3
              eq_refl Hb eq_refl Hnz eq_refl Hbs) as (out & Hout & Hpre & H8 & Hw).
  exists out. split; [exact Hout|]. split; [|exact H8].
  apply (f_equal (fun l => l !! 26%nat)) in Hpre.
  rewrite lookup_take_lt in Hpre by (vm_compute; lia).
  rewrite Hpre. reflexivity.
Defined.

(** C4 as stated fails on the haiku of the source's header: the buffer
    holds "air", a space, the backspace byte and "--", where the teletype
    reading has "air--". *)
Lemma trigg_expand_not_teletype :
  backspace_token 3 /\
  (out ← trigg_expand [5; 205; 1; 14; 251; 215; 3; 1; 116; 0; 0; 0; 0; 0; 0; 0]
                      (repeat 0 256);
   Some (take 7 (drop 23 out))) = Some [97; 105; 114; 32; 8; 45; 45] /\
  take 7 (drop 23 (teletype_expand [5; 205; 1; 14; 251; 215; 3; 1; 116; 0; 0; 0; 0; 0; 0; 0]))
  = [97; 105; 114; 45; 45; 32; 10] /\
  trigg_expand [5; 205; 1; 14; 251; 215; 3; 1; 116; 0; 0; 0; 0; 0; 0; 0] (repeat 0 256)
  <> Some (teletype_expand [5; 205; 1; 14; 251; 215; 3; 1; 116; 0; 0; 0; 0; 0; 0; 0]).
Proof.
  split; [eexists; split; reflexivity|].
  split; [vm_compute; reflexivity|]. split; [vm_compute; reflexivity|].
  intros H. apply (f_equal (fun o => o ≫= (fun l : list Z => l !! 26%nat))) in H.
  vm_compute in H. discriminate.
Qed.

(** C10.  For a 16-byte token array that passes [trigg_syntax] and a
    256-byte buffer, [trigg_expand] completes with every store inside the
    buffer ([store] fails outside it).  A token adds at most 12 bytes, its
    separator included, so the text takes at most 192 bytes; the buffer
    holds that text and is zero from the end of the text to byte 255. *)
Theorem trigg_expand_in_bounds (T haiku : list Z) :
  length T = MAXH -> bytes T -> length haiku = HAIKUSIZE ->
  trigg_syntax T = Some 1 ->
  (forall t, (length (word_text t) <= 12)%nat) /\
  (length (plain_text T) <= 192)%nat /\
  exists out,
    trigg_expand T haiku = Some out /\
    length out = HAIKUSIZE /\
    take (length (plain_text T)) out = plain_text T /\
    forall i, (length (plain_text T) <= i < 256)%nat -> out !! i = Some 0.
Proof.
  intros HlT HT Hh _.
  pose proof (plain_text_length T) as Hpt. rewrite HlT in Hpt.
  change (12 * MAXH)%nat with 192%nat in Hpt.
  split; [exact word_text_length|]. split; [exact Hpt|].
  rewrite (trigg_expand_plain T haiku HlT HT Hh). eexists. split; [reflexivity|].
  change HAIKUSIZE with 256%nat.
  split; [rewrite length_app, repeat_length; lia|].
  split; [apply take_app_length|].
  intros i Hi. rewrite lookup_app_r by lia.
  apply lookup_repeat. lia.
Qed.

Lemma trigg_expand_in_bounds_witness :
  trigg_syntax [5; 205; 1; 14; 251; 215; 3; 1; 116; 0; 0; 0; 0; 0; 0; 0] = Some 1 /\
  exists out,
    trigg_expand [5; 205; 1; 14; 251; 215; 3; 1; 116; 0; 0; 0; 0; 0; 0; 0] (repeat 7 256)
    = Some out /\
    length out = 256%nat /\ out !! 255%nat = Some 0.
Proof.
  assert (Hb : bytes [5; 205; 1; 14; 251; 215; 3; 1; 116; 0; 0; 0; 0; 0; 0; 0])
    by (apply bytesb_ok; reflexivity).
  assert (Hs : trigg_syntax [5; 205; 1; 14; 251; 215; 3; 1; 116; 0; 0; 0; 0; 0; 0; 0] = Some 1)
    by (vm_compute; reflexivity).
  destruct (trigg_expand_in_bounds
              [5; 205; 1; 14; 251; 215; 3; 1; 116; 0; 0; 0; 0; 0; 0; 0] (repeat 7 256)
              eq_refl Hb eq_refl Hs) as (_ & Hlen & out & Hout & Hl & _ & Hz).
  split; [exact Hs|]. exists out. split; [exact Hout|]. split; [exact Hl|].
  apply Hz. lia.
Defined.

End TriggExpand.

Module TriggRandom.
Import Trigg TriggRef TriggSpec TriggGrammar.

(** ** The period of the generator *)

Lemma trigg_rand_lcg (s : Z) : trigg_rand s = (Z.shiftr (lcg s) 16, lcg s).
Proof. reflexivity. Qed.

Lemma lcg_affine (s : Z) : lcg s = affine 69069 262145 s.
Proof. unfold lcg, affine, uint32. f_equal. lia. Qed.

Lemma mod_congr (x y k m : Z) : x = y + k * m -> x mod m = y mod m.
Proof. intros ->. apply Z_mod_plus_full. Qed.

Lemma affine_compose (a c a' c' s : Z) :
  affine a c (affine a' c' s) = affine ((a * a') mod 2 ^ 32) ((a * c' + c) mod 2 ^ 32) s.
Proof.
  unfold affine. set (m := 2 ^ 32). assert (Hm : m <> 0) by (subst m; lia).
  rewrite (Z.mod_eq (a' * s + c') m), (Z.mod_eq (a * a') m), (Z.mod_eq (a * c' + c) m)
    by exact Hm.
  apply (mod_congr _ _ (- a * ((a' * s + c') / m) + (a * a') / m * s + (a * c' + c) / m)).
  ring.
Qed.

Lemma iter_pow2 (j : nat) (s : Z) :
  Nat.iter (2 ^ j) lcg s = affine (lcg_pow j).1 (lcg_pow j).2 s.
Proof.
  revert s. induction j as [|j IH]; intros s.
  - cbn [Nat.pow Nat.iter nat_rect lcg_pow fst snd]. apply lcg_affine.
  - replace (2 ^ S j)%nat with (2 ^ j + 2 ^ j)%nat by (cbn [Nat.pow]; lia).
    rewrite Nat.iter_add, !IH, affine_compose. cbn [lcg_pow].
    destruct (lcg_pow j) as [a c]. cbn [fst snd]. reflexivity.
Qed.

Lemma iter_65536 (s : Z) :
  Nat.iter (2 ^ 16) lcg s = affine 2659450881 2879062016 s.
Proof.
  rewrite iter_pow2.
  assert (H : lcg_pow 16 = (2659450881, 2879062016)) by (vm_compute; reflexivity).
  rewrite H. reflexivity.
Qed.

Lemma draw_eq (s : Z) : draw s = (s / 65536) mod 256.
Proof.
  unfold draw. change (MAXDICT - 1) with (Z.ones 8).
  rewrite Z.land_ones, Z.shiftr_div_pow2 by lia. reflexivity.
Qed.

(** 65536 steps keep the low 16 bits of the seed and add [delta] to the
    drawn index. *)
Lemma big_step (s : Z) :
  let x := affine 2659450881 2879062016 s in
  x mod 65536 = s mod 65536 /\ draw x = (draw s + delta s) mod 256.
Proof.
  cbv zeta. unfold affine.
  set (y := 4 * 10145 * s + 43931).
  replace (2659450881 * s + 2879062016) with (s + y * 65536) by (subst y; ring).
  set (z := s + y * 65536).
  assert (Hz : z mod 2 ^ 32 = z - 65536 * 65536 * (z / 2 ^ 32)).
  { rewrite (Z.mod_eq z (2 ^ 32)) by lia. change (2 ^ 32) with (65536 * 65536). ring. }
  split.
  - rewrite Hz.
    rewrite (mod_congr _ s (y - 65536 * (z / 2 ^ 32)) 65536); [reflexivity|].
    subst z. ring.
  - rewrite !draw_eq. rewrite Hz.
    replace (z - 65536 * 65536 * (z / 2 ^ 32))
      with (s + (y - 65536 * (z / 2 ^ 32)) * 65536) by (subst z; ring).
    rewrite Z.div_add by lia.
    unfold delta. fold y.
    rewrite (mod_congr _ (s / 65536 + y) (- 256 * (z / 2 ^ 32)) 256) by ring.
    rewrite Zplus_mod. reflexivity.
Qed.

Lemma delta_low (x s : Z) : x mod 65536 = s mod 65536 -> delta x = delta s.
Proof.
  intros H. unfold delta.
  assert (Hx : x = s + (x / 65536 - s / 65536) * 65536).
  { pose proof (Z.div_mod x 65536 ltac:(lia)). pose proof (Z.div_mod s 65536 ltac:(lia)).
    lia. }
  apply (mod_congr _ _ (1024 * 10145 * (x / 65536 - s / 65536))).
  rewrite Hx at 1. ring.
Qed.

Lemma delta_odd (s : Z) : 0 <= delta s < 256 /\ delta s mod 2 = 1.
Proof.
  unfold delta. split; [apply Z.mod_pos_bound; lia|].
  rewrite Z.mod_mod_divide by (exists 128; reflexivity).
  rewrite (mod_congr _ 1 (2 * 10145 * s + 21965) 2) by ring. reflexivity.
Qed.

Lemma iter_mul (A : Type) (f : A -> A) (j n : nat) (x : A) :
  Nat.iter (j * n) f x = Nat.iter j (Nat.iter n f) x.
Proof.
  induction j as [|j IH]; [reflexivity|].
  cbn [Nat.mul]. rewrite Nat.iter_add, IH. reflexivity.
Qed.

Lemma iter_big (j : nat) (s : Z) :
  let x := Nat.iter j (Nat.iter (2 ^ 16) lcg) s in
  x mod 65536 = s mod 65536 /\
  draw x = (draw s + Z.of_nat j * delta s) mod 256.
Proof.
  cbv zeta. induction j as [|j [IHl IHd]].
  - cbn [Nat.iter nat_rect]. split; [reflexivity|].
    rewrite Z.mul_0_l, Z.add_0_r. rewrite draw_eq. rewrite Z.mod_mod by lia. reflexivity.
  - rewrite Nat.iter_succ. rewrite iter_65536.
    destruct (big_step (Nat.iter j (Nat.iter (2 ^ 16) lcg) s)) as [Hl Hd].
    split; [congruence|].
    rewrite Hd, IHd, (delta_low _ _ IHl).
    rewrite Zplus_mod_idemp_l. f_equal. lia.
Qed.

Lemma odd_inverse_exists (d : Z) :
  0 <= d < 256 -> d mod 2 = 1 -> exists i, (d * i) mod 256 = 1.
Proof.
  intros Hd Hodd.
  assert (Hc : odd_inverse_check = true) by (vm_compute; reflexivity).
  unfold odd_inverse_check in Hc. rewrite forallb_forall in Hc.
  assert (Hin : In (Z.to_nat (d / 2)) (seq 0 128)).
  { apply in_seq. pose proof (Z.div_mod d 2 ltac:(lia)). lia. }
  pose proof (Hc (Z.to_nat (d / 2)) Hin) as Hk. apply Z.eqb_eq in Hk.
  exists (nth (Z.to_nat (d / 2)) odd_inverses 0).
  rewrite <- Hk. f_equal. f_equal. pose proof (Z.div_mod d 2 ltac:(lia)). lia.
Qed.

(** Adding an odd constant reaches every index within 256 additions. *)
Lemma odd_hits (d h t : Z) :
  0 <= d < 256 -> d mod 2 = 1 -> 0 <= t < 256 ->
  exists j : nat, (1 <= j <= 256)%nat /\ (h + Z.of_nat j * d) mod 256 = t.
Proof.
  intros Hd Hodd Ht.
  destruct (odd_inverse_exists d Hd Hodd) as [i Hinv].
  set (j0 := ((t - h) * i) mod 256).
  assert (Hj0 : 0 <= j0 < 256) by (apply Z.mod_pos_bound; lia).
  assert (Hval : (h + j0 * d) mod 256 = t).
  { transitivity (t mod 256); [|apply Z.mod_small; lia].
    subst j0. rewrite (Z.mod_eq ((t - h) * i) 256) by lia.
    rewrite (Z.mod_eq (d * i) 256) in Hinv by lia.
    apply (mod_congr _ _ ((t - h) * ((d * i) / 256) - ((t - h) * i) / 256 * d)).
    replace (h + ((t - h) * i - 256 * ((t - h) * i / 256)) * d)
      with (h + (t - h) * (d * i) - 256 * ((t - h) * i / 256) * d) by ring.
    replace (d * i) with (1 + 256 * (d * i / 256)) at 1 by lia. ring. }
  destruct (Z.eq_dec j0 0) as [E|E].
  - exists 256%nat. split; [lia|]. rewrite E in Hval.
    rewrite <- Hval. apply (mod_congr _ _ d). lia.
  - exists (Z.to_nat j0). split; [lia|]. rewrite Z2Nat.id by lia. exact Hval.
Qed.

(** ** The word loop returns *)

Lemma draw_byte (s : Z) : is_byte (draw s).
Proof. unfold draw. change (MAXDICT - 1) with 255. apply land_255_byte. Qed.

Lemma pick_word_reaches (k : nat) (slot seed : Z) (fuel : nat) :
  hit slot (Nat.iter (S k) lcg seed) = true -> (k < fuel)%nat ->
  exists w seed', pick_word fuel slot seed = Some (w, seed').
Proof.
  revert seed fuel. induction k as [|k IH]; intros seed fuel Hhit Hfuel;
    (destruct fuel as [|fuel]; [lia|]); cbn [pick_word]; rewrite trigg_rand_lcg;
    fold (draw (lcg seed)); destruct (dict_byte _ (draw_byte (lcg seed))) as [d Hd];
    rewrite Hd; cbn [mbind option_bind];
    destruct (Z.eqb_spec (Z.land (fe d) slot) 0) as [Hz|Hnz]; eauto.
  - cbn [Nat.iter nat_rect] in Hhit. unfold hit in Hhit. rewrite Hd in Hhit.
    rewrite Hz in Hhit. discriminate.
  - apply IH; [|lia]. rewrite Nat.iter_succ_r in Hhit. exact Hhit.
Qed.

Lemma ENOUGH_Z : Z.of_nat ENOUGH = 16777216.
Proof. unfold ENOUGH. apply Z2Nat.id. lia. Qed.

Lemma pick_word_total (slot seed : Z) (fuel : nat) :
  (exists t d, is_byte t /\ dict t = Some d /\ Z.land (fe d) slot <> 0) ->
  (ENOUGH <= fuel)%nat ->
  exists w seed', pick_word fuel slot seed = Some (w, seed').
Proof.
  intros (t & d & Ht & Hd & Hm) Hfuel.
  destruct (delta_odd seed) as [Hdl Hodd].
  destruct (odd_hits (delta seed) (draw seed) t Hdl Hodd Ht) as (j & Hj & Hhit).
  destruct (iter_big j seed) as [_ Hdraw]. rewrite Hhit in Hdraw.
  rewrite <- iter_mul in Hdraw.
  remember (j * 2 ^ 16)%nat as m eqn:Hmj.
  assert (Hmz : Z.of_nat m = Z.of_nat j * 65536)
    by (subst m; rewrite Nat2Z.inj_mul, Nat2Z.inj_pow; reflexivity).
  clear Hmj. destruct m as [|k]; [lia|].
  assert (Hlt : (k < fuel)%nat) by (pose proof ENOUGH_Z; lia).
  apply (pick_word_reaches k); [|exact Hlt].
  unfold hit. rewrite Hdraw, Hd. apply negb_true_iff. apply Z.eqb_neq. exact Hm.
Qed.

(** ** trigg_gen returns *)

Lemma slot_check_ok (fp : list Z) (f : Z) :
  fp ∈ Frame -> f ∈ fp -> f <> 0 -> Z.land f F_XLIT = 0 ->
  exists t d, is_byte t /\ dict t = Some d /\ Z.land (fe d) f <> 0.
Proof.
  intros Hfp Hf Hf0 Hx.
  assert (Hc : frames_check = true) by (vm_compute; reflexivity).
  unfold frames_check in Hc. rewrite forallb_forall in Hc.
  specialize (Hc fp (proj1 (list_elem_of_In _ _) Hfp)).
  rewrite forallb_forall in Hc. specialize (Hc f (proj1 (list_elem_of_In _ _) Hf)).
  unfold slot_check in Hc.
  rewrite (proj2 (Z.eqb_neq _ _) Hf0), (proj2 (Z.eqb_eq _ _) Hx) in Hc.
  cbn [negb orb] in Hc. apply existsb_exists in Hc as (d & Hin & Hm).
  apply list_elem_of_In, list_elem_of_lookup_1 in Hin as [i Hi].
  exists (Z.of_nat i), d. split; [|split].
  - apply lookup_lt_Some in Hi. rewrite Dict_length in Hi. unfold is_byte. lia.
  - unfold dict. rewrite Nat2Z.id. exact Hi.
  - apply negb_true_iff, Z.eqb_neq in Hm. exact Hm.
Qed.

Lemma gen_slots_total (fuel : nat) (fp0 fp : list Z) (seed : Z) :
  (ENOUGH <= fuel)%nat -> fp0 ∈ Frame -> fp ⊆ fp0 ->
  exists hp seed', gen_slots fuel fp seed = Some (hp, seed').
Proof.
  intros Hfuel Hfp0. revert seed. induction fp as [|f fp IH]; intros seed Hsub;
    cbn [gen_slots]; [eauto|].
  assert (Hsub' : fp ⊆ fp0) by (intros x Hx; apply Hsub; right; exact Hx).
  destruct (Z.eqb_spec f 0) as [Hf0|Hf0].
  - destruct (IH seed Hsub') as (hp & s' & H). rewrite H. cbn [mbind option_bind]. eauto.
  - destruct (Z.eqb_spec (Z.land f F_XLIT) 0) as [Hx|Hx]; cbn [negb].
    + destruct (pick_word_total f seed fuel) as (w & s1 & Hp); [|exact Hfuel|].
      { apply (slot_check_ok fp0); [exact Hfp0 | apply Hsub; left | exact Hf0 | exact Hx]. }
      rewrite Hp. cbn [mbind option_bind].
      destruct (IH s1 Hsub') as (hp & s' & H). rewrite H. cbn [mbind option_bind]. eauto.
    + destruct (IH seed Hsub') as (hp & s' & H). rewrite H. cbn [mbind option_bind]. eauto.
Qed.

(** With [ENOUGH] draws allowed for each word, [trigg_gen] returns from
    every seed. *)
Lemma trigg_gen_total (fuel : nat) (seed : Z) :
  (ENOUGH <= fuel)%nat ->
  exists T seed', trigg_gen fuel seed = Some (T, seed').
Proof.
  intros Hfuel. unfold trigg_gen. rewrite trigg_rand_lcg.
  destruct (lookup_lt_is_Some_2 Frame (Z.to_nat (Z.shiftr (lcg seed) 16 mod NFRAMES)))
    as [fp Hfp].
  { pose proof (Z.mod_pos_bound (Z.shiftr (lcg seed) 16) NFRAMES ltac:(unfold NFRAMES; lia)).
    unfold NFRAMES in *. change (length Frame) with 10%nat. lia. }
  rewrite Hfp. cbn [mbind option_bind].
  apply (gen_slots_total fuel fp); [exact Hfuel| |reflexivity].
  eapply list_elem_of_lookup_2. exact Hfp.
Qed.

End TriggRandom.

Module TriggHaiku.
Import Trigg TriggRef TriggSpec TriggGrammar TriggRandom.

(** C3, as the code has it.  For a 16-byte token array [T],
    [trigg_syntax T] returns 1 exactly when [T] fills the slots of some
    frame up to the frame's first zero slot and is zero there; each filled
    slot holds the literal index of an XLIT slot or a dictionary entry
    sharing a feature with the slot.  Tokens after that slot are not
    examined.  Every array that [trigg_gen] produces is of this kind, with
    zeros at all zero slots, and is accepted; and [trigg_gen] produces an
    array from every seed, once [ENOUGH] draws are allowed for each word. *)
Theorem trigg_syntax_frames (T : list Z) :
  length T = MAXH -> bytes T ->
  (trigg_syntax T = Some 1 \/ trigg_syntax T = Some 0) /\
  (trigg_syntax T = Some 1 <-> exists fp, fp ∈ Frame /\ accepts fp T) /\
  (forall fuel seed seed',
     trigg_gen fuel seed = Some (T, seed') ->
     trigg_syntax T = Some 1 /\ exists fp, fp ∈ Frame /\ generated fp T) /\
  (forall fuel seed,
     (ENOUGH <= fuel)%nat -> exists T' seed', trigg_gen fuel seed = Some (T', seed')).
Proof.
  intros HlT HT.
  destruct (trigg_syntax_cases T HlT HT) as [[He Ha]|[He Hna]].
  - rewrite He. split; [left; reflexivity|]. split; [split; auto|].
    split; [|intros fuel seed; apply trigg_gen_total].
    intros fuel seed seed' Hg. split; [reflexivity|].
    apply trigg_gen_generated in Hg as (_ & _ & Hgen). exact Hgen.
  - rewrite He. split; [right; reflexivity|]. split; [split; [discriminate|contradiction]|].
    split; [|intros fuel seed; apply trigg_gen_total].
    intros fuel seed seed' Hg. exfalso. apply Hna.
    apply trigg_gen_generated in Hg as (_ & _ & fp & Hin & Hgen).
    exists fp. split; [exact Hin | apply generated_accepts; exact Hgen].
Qed.

(** The haiku drawn from seed 1: "day mist / big air / travelling". *)
Lemma trigg_syntax_frames_witness :
  trigg_gen 64 1 = Some ([249; 223; 1; 93; 215; 1; 35; 0; 0; 0; 0; 0; 0; 0; 0; 0], 1529073447) /\
  trigg_syntax [249; 223; 1; 93; 215; 1; 35; 0; 0; 0; 0; 0; 0; 0; 0; 0] = Some 1.
Proof.
  assert (Hg : trigg_gen 64 1
               = Some ([249; 223; 1; 93; 215; 1; 35; 0; 0; 0; 0; 0; 0; 0; 0; 0], 1529073447))
    by (vm_compute; reflexivity).
  assert (Hb : bytes [249; 223; 1; 93; 215; 1; 35; 0; 0; 0; 0; 0; 0; 0; 0; 0])
    by (apply bytesb_ok; reflexivity).
  destruct (trigg_syntax_frames [249; 223; 1; 93; 215; 1; 35; 0; 0; 0; 0; 0; 0; 0; 0; 0]
              eq_refl Hb) as (_ & _ & H & _).
  split; [exact Hg|]. exact (proj1 (H _ _ _ Hg)).
Defined.

(** C3 as stated fails: the array below passes [trigg_syntax], its last
    byte lying after the terminating zero of its frame, and no run of
    [trigg_gen] produces it, whatever the seed, since the generator writes
    a zero at every zero slot. *)
Lemma trigg_syntax_accepts_ungenerated :
  trigg_syntax [249; 223; 1; 93; 215; 1; 35; 0; 0; 0; 0; 0; 0; 0; 0; 5] = Some 1 /\
  ~ exists fuel seed seed',
      trigg_gen fuel seed
      = Some ([249; 223; 1; 93; 215; 1; 35; 0; 0; 0; 0; 0; 0; 0; 0; 5], seed').
Proof.
  split; [vm_compute; reflexivity|].
  intros (fuel & seed & seed' & Hg).
  apply trigg_gen_generated in Hg as (_ & _ & fp & Hin & Hgen).
  destruct (Frame_row fp Hin) as [_ H15].
  pose proof (generated_zero_slot _ _ _ Hgen H15) as H. discriminate.
Qed.

End TriggHaiku.

(** * Properties of the Peach core *)

Module PeachMario.
Import Trigg Peach PeachRef TriggRef TriggSpec.

Lemma mario_mul_fold (n i : nat) (h : list Z) (m : Z) :
  (i + n <= length h)%nat ->
  mario_mul n i h m
  = Some (fold_left (fun mario b => (mario * b) mod 2 ^ 32) (take n (drop i h)) m).
Proof.
  revert i m. induction n as [|n IH]; intros i m Hlen; cbn [mario_mul].
  - rewrite take_0. reflexivity.
  - destruct (lookup_lt_is_Some_2 h i) as [b Hb]; [lia|].
    unfold load. rewrite Hb. cbn [mbind option_bind].
    rewrite IH by lia. rewrite (drop_S _ _ _ Hb). reflexivity.
Qed.

Lemma mario_32 (h : list Z) :
  length h = 32%nat ->
  generate_mario h = Some (Z.land (fold_left (fun mario b => (mario * b) mod 2 ^ 32)
                                             (tail h) (hd 0 h)) (PEACH_MAP - 1)) /\
  checkhash_mario h = generate_mario h.
Proof.
  intros Hlen. split; [|reflexivity].
  unfold generate_mario. destruct h as [|b0 h]; [discriminate|].
  cbn [load lookup list_lookup mbind option_bind hd tail].
  cbn [length] in Hlen.
  rewrite mario_mul_fold by (cbn [length HASHLEN]; unfold HASHLEN; lia).
  cbn [mbind option_bind drop]. rewrite drop_0.
  rewrite take_ge by (unfold HASHLEN; lia). reflexivity.
Qed.

(** The wrapping product, modulo a divisor of [2^32]. *)
Lemma wrapping_product (l : list Z) (m : Z) :
  fold_left (fun mario b => (mario * b) mod 2 ^ 32) l m mod 1048576
  = (m * fold_left Z.mul l 1) mod 1048576.
Proof.
  assert (Hdiv : forall x, (x mod 2 ^ 32) mod 1048576 = x mod 1048576).
  { intros x. apply Z.mod_mod_divide. exists (2 ^ 12). reflexivity. }
  assert (Hmul : forall l a, fold_left Z.mul l a = a * fold_left Z.mul l 1).
  { clear. induction l as [|x l IH]; intros a; cbn [fold_left]; [lia|].
    rewrite (IH (a * x)), (IH (1 * x)). lia. }
  revert m. induction l as [|b l IH]; intros m; cbn [fold_left].
  - f_equal. lia.
  - rewrite IH. rewrite (Hmul l (1 * b)).
    rewrite Z.mul_mod by lia. rewrite Hdiv. rewrite <- Z.mul_mod by lia.
    f_equal. lia.
Qed.

(** C7.  On a 32-byte [bt_hash], [peach_generate] and [peach_checkhash]
    compute the same starting index: [bt_hash[0]], multiplied in turn by
    [bt_hash[1]] to [bt_hash[31]] with 32-bit wrapping, then masked with
    0xFFFFF, which is the reduction modulo 1048576.  It is the product of
    the 32 bytes modulo 1048576. *)
Theorem mario_start (bt_hash : list Z) :
  length bt_hash = 32%nat ->
  generate_mario bt_hash = Some (spec_mario bt_hash) /\
  checkhash_mario bt_hash = Some (spec_mario bt_hash) /\
  spec_mario bt_hash
  = Z.land (fold_left (fun mario b => (mario * b) mod 2 ^ 32) (tail bt_hash) (hd 0 bt_hash))
           0xFFFFF /\
  spec_mario bt_hash = fold_left Z.mul bt_hash 1 mod 1048576.
Proof.
  intros Hlen. destruct (mario_32 bt_hash Hlen) as [Hg Hc].
  assert (Hland : spec_mario bt_hash
                  = Z.land (fold_left (fun mario b => (mario * b) mod 2 ^ 32)
                                      (tail bt_hash) (hd 0 bt_hash)) 0xFFFFF).
  { unfold spec_mario. change 0xFFFFF with (Z.ones 20).
    rewrite Z.land_ones by lia. reflexivity. }
  split; [|split; [|split]].
  - rewrite Hg, Hland. reflexivity.
  - rewrite Hc, Hg, Hland. reflexivity.
  - exact Hland.
  - unfold spec_mario. rewrite wrapping_product.
    destruct bt_hash as [|b0 l]; [discriminate|]. cbn [hd tail fold_left].
    assert (Hmul : forall l a, fold_left Z.mul l a = a * fold_left Z.mul l 1).
    { clear. induction l as [|x l IH]; intros a; cbn [fold_left]; [lia|].
      rewrite (IH (a * x)), (IH (1 * x)). lia. }
    rewrite (Hmul l (1 * b0)). f_equal. lia.
Qed.

(** A hash of odd bytes: 3, then 31 bytes 5. *)
Lemma mario_start_witness :
  generate_mario (3 :: repeat 5 31) = Some 508647 /\
  checkhash_mario (3 :: repeat 5 31) = Some 508647.
Proof.
  destruct (mario_start (3 :: repeat 5 31) eq_refl) as (Hg & Hc & _ & _).
  split; [rewrite Hg | rewrite Hc]; vm_compute; reflexivity.
Defined.

End PeachMario.

Module PeachNighthash.
Import Trigg Peach PeachRef TriggRef TriggSpec.

(** ** Sub-arrays *)

Lemma load_bytes_Some (buf : list Z) (off n : nat) :
  (off + n <= length buf)%nat -> load_bytes buf off n = Some (take n (drop off buf)).
Proof. intros H. unfold load_bytes. case_decide; [reflexivity | lia]. Qed.

Lemma load_bytes_whole (buf : list Z) :
  load_bytes buf 0 (length buf) = Some buf.
Proof. rewrite load_bytes_Some by lia. rewrite drop_0, firstn_all. reflexivity. Qed.

Lemma store_bytes_Some (buf : list Z) (off : nat) (vs : list Z) :
  (off + length vs <= length buf)%nat ->
  exists buf', store_bytes buf off vs = Some buf' /\ length buf' = length buf.
Proof.
  intros H. unfold store_bytes. case_decide; [|lia]. eexists. split; [reflexivity|].
  rewrite !length_app, length_take, length_drop. lia.
Qed.

Lemma store_bytes_whole (buf vs : list Z) :
  length vs = length buf -> store_bytes buf 0 vs = Some vs.
Proof.
  intros H. unfold store_bytes. case_decide; [|lia].
  rewrite take_0, drop_ge by lia. rewrite app_nil_r. reflexivity.
Qed.

Lemma load_bytes_inv (buf : list Z) (off n : nat) (v : list Z) :
  load_bytes buf off n = Some v ->
  v = take n (drop off buf) /\ (off + n <= length buf)%nat.
Proof.
  unfold load_bytes. case_decide; [|discriminate].
  intros H0. inversion H0. split; [reflexivity | assumption].
Qed.

Lemma store_bytes_inv (buf : list Z) (off : nat) (vs buf' : list Z) :
  store_bytes buf off vs = Some buf' ->
  buf' = take off buf ++ vs ++ drop (off + length vs) buf /\
  (off + length vs <= length buf)%nat.
Proof.
  unfold store_bytes. case_decide; [|discriminate].
  intros H0. inversion H0. split; [reflexivity | assumption].
Qed.

Lemma load_Some (data : list Z) (i : nat) :
  (i < length data)%nat -> exists b, load data i = Some b.
Proof. intros H. unfold load. apply lookup_lt_is_Some_2. exact H. Qed.

Lemma length_le_bytes (n : nat) (x : Z) : length (le_bytes n x) = n.
Proof. unfold le_bytes. rewrite length_map, length_seq. reflexivity. Qed.

Lemma length_bytes_of_float (f : spec_float) : length (bytes_of_float f) = 4%nat.
Proof. apply length_le_bytes. Qed.

Lemma land_3_bound (x : Z) : (Z.to_nat (Z.land x 3) <= 3)%nat.
Proof.
  change 3 with (Z.ones 2). rewrite Z.land_ones by lia.
  pose proof (Z.mod_pos_bound x (2 ^ 2) ltac:(lia)). change (2 ^ 2) with 4 in *. lia.
Qed.

Lemma land_7_cases (x : Z) :
  Z.land x 7 = 0 \/ Z.land x 7 = 1 \/ Z.land x 7 = 2 \/ Z.land x 7 = 3 \/
  Z.land x 7 = 4 \/ Z.land x 7 = 5 \/ Z.land x 7 = 6 \/ Z.land x 7 = 7.
Proof.
  assert (H : Z.land x 7 = x mod 8) by (apply (Z.land_ones x 3); lia).
  rewrite H. pose proof (Z.mod_pos_bound x 8 ltac:(lia)). lia.
Qed.

(** ** peach_dflop *)

Lemma kept_refl (txf : bool) (data : list Z) : kept txf data data.
Proof. split; auto. Qed.

Lemma kept_trans (txf : bool) (d1 d2 d3 : list Z) :
  kept txf d1 d2 -> kept txf d2 d3 -> kept txf d1 d3.
Proof.
  intros [H1 H1'] [H2 H2']. split; [congruence|].
  intros E. rewrite (H2' E), (H1' E). reflexivity.
Qed.

Lemma flp_read_ok (txf : bool) (data temp : list Z) (i : nat) :
  (i + 4 <= length data)%nat -> exists v, flp_read txf data temp i = Some v.
Proof.
  intros H. unfold flp_read. destruct txf; [|eauto].
  rewrite load_bytes_Some by lia. eauto.
Qed.

Lemma flp_write_ok (txf : bool) (data temp : list Z) (i : nat) (f : spec_float) :
  (i + 4 <= length data)%nat ->
  exists data' temp', flp_write txf data temp i f = Some (data', temp') /\
                      kept txf data data'.
Proof.
  intros H. unfold flp_write. destruct txf.
  - destruct (store_bytes_Some data i (bytes_of_float f)) as (d' & Hd & Hl);
      [rewrite length_bytes_of_float; lia|].
    rewrite Hd. cbn [mbind option_bind]. exists d', temp.
    split; [reflexivity|]. split; [exact Hl | discriminate].
  - exists data, (bytes_of_float f). split; [reflexivity | apply kept_refl].
Qed.

Lemma flp_fix_nan_ok (txf : bool) (data temp : list Z) (i : nat) (index : Z) :
  (i + 4 <= length data)%nat ->
  exists data' temp', flp_fix_nan txf data temp i index = Some (data', temp') /\
                      kept txf data data'.
Proof.
  intros H. unfold flp_fix_nan.
  destruct (flp_read_ok txf data temp i H) as [v Hv]. rewrite Hv. cbn [mbind option_bind].
  destruct (isnan (float_of_bytes v)).
  - apply flp_write_ok. exact H.
  - exists data, temp. split; [reflexivity | apply kept_refl].
Qed.

Lemma dflop_lane_ok (txf : bool) (index : Z) (data : list Z) (i : nat) (op : Z) :
  (i + 4 <= length data)%nat ->
  exists data' op', dflop_lane txf index data i op = Some (data', op') /\
                    kept txf data data'.
Proof.
  intros H. unfold dflop_lane.
  rewrite load_bytes_Some by lia. cbn [mbind option_bind].
  destruct (load_Some data i) as [b0 Hb0]; [lia|]. rewrite Hb0. cbn [mbind option_bind].
  set (shift := uint8 (Z.shiftl (Z.land b0 7 + 1) 1)).
  destruct (load_Some data (i + Z.to_nat (Z.land (Z.shiftr 0x26C34 shift) 3))) as [x Hx];
    [pose proof (land_3_bound (Z.shiftr 0x26C34 shift)); lia|].
  rewrite Hx. cbn [mbind option_bind].
  destruct (load_Some data (i + Z.to_nat (Z.land (Z.shiftr 0x14198 shift) 3))) as [y Hy];
    [pose proof (land_3_bound (Z.shiftr 0x14198 shift)); lia|].
  rewrite Hy. cbn [mbind option_bind].
  destruct (load_Some data (i + Z.to_nat (Z.land (Z.shiftr 0x3D6EC shift) 3))) as [s Hs];
    [pose proof (land_3_bound (Z.shiftr 0x3D6EC shift)); lia|].
  rewrite Hs. cbn [mbind option_bind].
  destruct (flp_fix_nan_ok txf data (take 4 (drop i data)) i index H)
    as (d1 & t1 & H1 & K1).
  rewrite H1. cbn [mbind option_bind].
  assert (L1 : (i + 4 <= length d1)%nat) by (destruct K1 as [E _]; lia).
  destruct (flp_read_ok txf d1 t1 i L1) as [v1 Hv1]. rewrite Hv1. cbn [mbind option_bind].
  match goal with
  | |- context [flp_write txf d1 t1 i ?r] =>
      destruct (flp_write_ok txf d1 t1 i r L1) as (d2 & t2 & H2 & K2); rewrite H2
  end.
  cbn [mbind option_bind].
  assert (L2 : (i + 4 <= length d2)%nat) by (destruct K2 as [E _]; lia).
  destruct (flp_fix_nan_ok txf d2 t2 i index L2) as (d3 & t3 & H3 & K3).
  rewrite H3. cbn [mbind option_bind].
  assert (L3 : (i + 4 <= length d3)%nat) by (destruct K3 as [E _]; lia).
  destruct (flp_read_ok txf d3 t3 i L3) as [v3 Hv3]. rewrite Hv3. cbn [mbind option_bind].
  eexists _, _. split; [reflexivity|].
  eapply kept_trans; [|exact K3]. eapply kept_trans; [exact K1 | exact K2].
Qed.

Lemma dflop_loop_ok (txf : bool) (index : Z) (n : nat) (data : list Z) (i : nat) (op : Z) :
  (i + 4 * n <= length data)%nat ->
  exists data' op', dflop_loop txf index n data i op = Some (data', op') /\
                    kept txf data data'.
Proof.
  revert data i op. induction n as [|n IH]; intros data i op H; cbn [dflop_loop].
  - exists data, op. split; [reflexivity | apply kept_refl].
  - destruct (dflop_lane_ok txf index data i op) as (d1 & op1 & H1 & K1); [lia|].
    rewrite H1. cbn [mbind option_bind].
    destruct (IH d1 (i + 4)%nat op1) as (d2 & op2 & H2 & K2);
      [destruct K1 as [E _]; lia|].
    exists d2, op2. split; [exact H2 | eapply kept_trans; eauto].
Qed.

Lemma peach_dflop_ok (data : list Z) (len : nat) (index : Z) (txf : bool) :
  (len <= length data)%nat ->
  exists data' op, peach_dflop data len index txf = Some (data', op) /\
                   kept txf data data'.
Proof.
  intros H. unfold peach_dflop. apply dflop_loop_ok.
  set (len' := (len - Z.to_nat (Z.land (Z.of_nat len) 3))%nat).
  pose proof (Nat.Div0.mul_div_le len' 4). lia.
Qed.


(** ** peach_dmemtx *)

Lemma store_ok (data : list Z) (i : nat) (v : Z) :
  (i < length data)%nat ->
  exists data', store data i v = Some data' /\ length data' = length data.
Proof.
  intros H. rewrite store_Some by exact H. eexists. split; [reflexivity|].
  apply length_insert.
Qed.

Lemma tx_range_ok (f : nat -> Z -> Z) (n z : nat) (data : list Z) :
  (z + n <= length data)%nat ->
  exists data', tx_range f n z data = Some data' /\ length data' = length data.
Proof.
  revert z data. induction n as [|n IH]; intros z data H; cbn [tx_range]; [eauto|].
  destruct (load_Some data z) as [b Hb]; [lia|]. rewrite Hb. cbn [mbind option_bind].
  destruct (store_ok data z (f z b)) as (d1 & H1 & L1); [lia|].
  rewrite H1. cbn [mbind option_bind].
  destruct (IH (S z) d1) as (d2 & H2 & L2); [lia|].
  exists d2. split; [exact H2 | congruence].
Qed.

Lemma tx_words_ok (width : nat) (f : Z -> Z) (n z : nat) (data : list Z) :
  ((z + n) * width <= length data)%nat ->
  exists data', tx_words width f n z data = Some data' /\ length data' = length data.
Proof.
  revert z data. induction n as [|n IH]; intros z data H; cbn [tx_words]; [eauto|].
  destruct (tx_range_ok (fun _ => f) width (z * width) data) as (d1 & H1 & L1); [nia|].
  rewrite H1. cbn [mbind option_bind].
  destruct (IH (S z) d1) as (d2 & H2 & L2); [rewrite L1; nia|].
  exists d2. split; [exact H2 | congruence].
Qed.

Lemma swap_halves_ok (always : bool) (n y z : nat) (data : list Z) :
  (y + n <= length data)%nat -> (z + n <= length data)%nat ->
  exists data', swap_halves always n y z data = Some data' /\ length data' = length data.
Proof.
  revert y z data. induction n as [|n IH]; intros y z data Hy Hz; cbn [swap_halves]; [eauto|].
  destruct (load_Some data z) as [bz Hbz]; [lia|]. rewrite Hbz. cbn [mbind option_bind].
  destruct (load_Some data y) as [by_ Hby]; [lia|]. rewrite Hby. cbn [mbind option_bind].
  assert (Hstep : exists d1, (if always || (by_ <? bz)
                              then d1 ← store data z by_; store d1 y bz
                              else Some data) = Some d1 /\ length d1 = length data).
  { destruct (always || (by_ <? bz)); [|eauto].
    destruct (store_ok data z by_) as (d0 & H0 & L0); [lia|].
    rewrite H0. cbn [mbind option_bind].
    destruct (store_ok d0 y bz) as (d1 & H1 & L1); [lia|].
    exists d1. split; [exact H1 | congruence]. }
  destruct Hstep as (d1 & H1 & L1). rewrite H1. cbn [mbind option_bind].
  destruct (IH (S y) (S z) d1) as (d2 & H2 & L2); [lia|lia|].
  exists d2. split; [exact H2 | congruence].
Qed.

Lemma xor_chain_ok (n y z : nat) (data : list Z) :
  (y + n <= length data)%nat -> (z + n <= length data)%nat ->
  exists data', xor_chain n y z data = Some data' /\ length data' = length data.
Proof.
  revert y z data. induction n as [|n IH]; intros y z data Hy Hz; cbn [xor_chain]; [eauto|].
  destruct (load_Some data z) as [bz Hbz]; [lia|]. rewrite Hbz. cbn [mbind option_bind].
  destruct (load_Some data y) as [by_ Hby]; [lia|]. rewrite Hby. cbn [mbind option_bind].
  destruct (store_ok data z (Z.lxor bz by_)) as (d1 & H1 & L1); [lia|].
  rewrite H1. cbn [mbind option_bind].
  destruct (IH (S y) (S z) d1) as (d2 & H2 & L2); [lia|lia|].
  exists d2. split; [exact H2 | congruence].
Qed.

Lemma words_fit (len : nat) :
  ((0 + len / 8) * 8 <= len)%nat /\
  ((2 * (len / 8) + (len / 4 - 2 * (len / 8))) * 4 <= len)%nat /\
  (len / 2 + len / 2 <= len)%nat.
Proof.
  pose proof (Nat.Div0.mul_div_le len 8). pose proof (Nat.Div0.mul_div_le len 4).
  pose proof (Nat.Div0.mul_div_le len 2).
  assert (2 * (len / 8) <= len / 4)%nat by (apply Nat.div_le_lower_bound; lia).
  lia.
Qed.

Lemma dmemtx_case_ok (len i : nat) (op : Z) (data : list Z) :
  (len <= length data)%nat ->
  exists data', dmemtx_case len i op data = Some data' /\ length data' = length data.
Proof.
  intros H. unfold dmemtx_case. destruct (words_fit len) as (W8 & W4 & W2).
  assert (Hwords : forall f,
            exists data', (d ← tx_words 8 f (len / 8) 0 data;
                           tx_words 4 f (len / 4 - 2 * (len / 8)) (2 * (len / 8)) d)
                          = Some data' /\ length data' = length data).
  { intros f. destruct (tx_words_ok 8 f (len / 8) 0 data) as (d1 & H1 & L1); [lia|].
    rewrite H1. cbn [mbind option_bind].
    destruct (tx_words_ok 4 f (len / 4 - 2 * (len / 8)) (2 * (len / 8)) d1)
      as (d2 & H2 & L2); [lia|].
    exists d2. split; [exact H2 | congruence]. }
  destruct (land_7_cases op) as [E|[E|[E|[E|[E|[E|[E|E]]]]]]]; rewrite E.
  - apply Hwords.
  - apply swap_halves_ok; lia.
  - apply Hwords.
  - apply tx_range_ok; lia.
  - apply tx_range_ok; lia.
  - apply tx_range_ok; lia.
  - apply swap_halves_ok; lia.
  - destruct len as [|len]; [cbn [Nat.sub xor_chain]; eauto|].
    apply xor_chain_ok; lia.
Qed.

Lemma dmemtx_loop_ok (len n i : nat) (data : list Z) (op : Z) :
  (len <= length data)%nat -> (i + n <= 8)%nat -> (8 <= length data)%nat ->
  exists data' op', dmemtx_loop len n i data op = Some (data', op') /\
                    length data' = length data.
Proof.
  revert i data op. induction n as [|n IH]; intros i data op Hlen Hi H8; cbn [dmemtx_loop].
  - eauto.
  - assert (Hidx : Z.to_nat (Z.land (Z.of_nat i) 31) = i).
    { change 31 with (Z.ones 5). rewrite Z.land_ones by lia.
      rewrite Z.mod_small by (change (2 ^ 5) with 32; lia). lia. }
    rewrite Hidx. destruct (load_Some data i) as [b Hb]; [lia|].
    rewrite Hb. cbn [mbind option_bind].
    destruct (dmemtx_case_ok len i (uint32 (op + b)) data Hlen) as (d1 & H1 & L1).
    rewrite H1. cbn [mbind option_bind].
    destruct (IH (S i) d1 (uint32 (op + b))) as (d2 & op2 & H2 & L2); [lia|lia|lia|].
    exists d2, op2. split; [exact H2 | congruence].
Qed.

Lemma peach_dmemtx_ok (data : list Z) (len : nat) (op : Z) :
  (len <= length data)%nat -> (8 <= length data)%nat ->
  exists data' op', peach_dmemtx data len op = Some (data', op') /\
                    length data' = length data.
Proof. intros H H8. apply dmemtx_loop_ok; [exact H | unfold PEACH_RNDS; lia | exact H8]. Qed.


(** ** peach_nighthash *)

Section WithHash.

Variable digest : hash_algo -> list Z -> list Z.

Lemma hash_input_ok (a : hash_algo) (inb : list Z) (inlen : nat) (index : Z)
    (hashindex : bool) :
  (inlen <= length inb)%nat ->
  hash_input digest a inb inlen index hashindex
  = Some (digest a (hashed inb inlen index hashindex),
          [(a, hashed inb inlen index hashindex)]).
Proof.
  intros H. unfold hash_input, hashed. rewrite load_bytes_Some by lia.
  rewrite drop_0. cbn [lift bindM hash_init hash_update hash_final ctx_algo ctx_msg app].
  destruct hashindex; cbn [hash_update ctx_algo ctx_msg]; [reflexivity|].
  rewrite app_nil_r. reflexivity.
Qed.

(** Nighthash returns; it runs one hash, over the first [inlen] bytes of
    the buffer as the float and memory passes left them, and over the
    index when asked; [out] is the digest, zero-filled to 32 bytes. *)
Lemma peach_nighthash_ok (inb : list Z) (inlen : nat) (index : Z) (hashindex txf : bool) :
  (inlen <= length inb)%nat -> (txf = true -> (8 <= length inb)%nat) ->
  exists inb' a,
    peach_nighthash digest inb inlen index hashindex txf
    = Some ((inb', digest a (hashed inb' inlen index hashindex)
                   ++ repeat 0 (32 - digest_size a)),
            [(a, hashed inb' inlen index hashindex)]) /\
    kept txf inb inb'.
Proof.
  intros Hlen H8. unfold peach_nighthash.
  destruct (peach_dflop_ok inb inlen index txf Hlen) as (d1 & op1 & H1 & K1).
  rewrite H1. cbn [lift bindM].
  assert (Htx : exists d2 op2,
            (if txf then lift (peach_dmemtx d1 inlen op1) else retM (d1, op1))
            = Some ((d2, op2), []) /\ kept txf inb d2).
  { destruct txf.
    - destruct K1 as [L1 _].
      destruct (peach_dmemtx_ok d1 inlen op1) as (d2 & op2 & H2 & L2);
        [lia | specialize (H8 eq_refl); lia |].
      rewrite H2. exists d2, op2. split; [reflexivity|].
      split; [congruence | discriminate].
    - exists d1, op1. split; [reflexivity | exact K1]. }
  destruct Htx as (d2 & op2 & H2 & K2). rewrite H2. cbn [bindM app].
  assert (L2 : (inlen <= length d2)%nat) by (destruct K2 as [E _]; lia).
  exists d2.
  destruct (land_7_cases op2) as [E|[E|[E|[E|[E|[E|[E|E]]]]]]]; rewrite E;
    cbv beta iota zeta;
    match goal with
    | |- context [hash_input digest ?a _ _ _ _] => exists a
    end;
    rewrite hash_input_ok by exact L2; cbn [bindM retM app];
    (split; [|exact K2]); cbn [digest_size Nat.sub repeat];
    rewrite ?app_nil_r; reflexivity.
Qed.

Lemma peach_nighthash_length (inb : list Z) (inlen : nat) (index : Z) (hashindex txf : bool)
    (r : list Z * list Z) (calls : list hash_call) :
  (forall a m, length (digest a m) = digest_size a) ->
  (inlen <= length inb)%nat -> (txf = true -> (8 <= length inb)%nat) ->
  peach_nighthash digest inb inlen index hashindex txf = Some (r, calls) ->
  length (fst r) = length inb /\ length (snd r) = 32%nat.
Proof.
  intros Hd Hlen H8 Hr.
  destruct (peach_nighthash_ok inb inlen index hashindex txf Hlen H8) as (inb' & a & H & K).
  rewrite H in Hr. inversion Hr; subst. cbn [fst snd].
  split; [exact (proj1 K)|].
  rewrite length_app, repeat_length, Hd. destruct a; reflexivity.
Qed.

(** C6.  With [txf] off, nighthash returns with the input buffer as it
    was: [peach_dflop] works on a copy of each lane and returns the data
    unchanged, [peach_dmemtx] is not run, and the one hash that is run
    reads the first [inlen] bytes of the unchanged buffer. *)
Theorem nighthash_input_unchanged (inb : list Z) (inlen : nat) (index : Z) (hashindex : bool) :
  (inlen <= length inb)%nat ->
  (exists op, peach_dflop inb inlen index false = Some (inb, op)) /\
  exists a,
    peach_nighthash digest inb inlen index hashindex false
    = Some ((inb, digest a (hashed inb inlen index hashindex)
                  ++ repeat 0 (32 - digest_size a)),
            [(a, hashed inb inlen index hashindex)]).
Proof.
  intros Hlen. split.
  - destruct (peach_dflop_ok inb inlen index false Hlen) as (d & op & H & [_ K]).
    rewrite (K eq_refl) in H. eauto.
  - destruct (peach_nighthash_ok inb inlen index hashindex false Hlen) as (d & a & H & [_ K]);
      [discriminate|].
    rewrite (K eq_refl) in H. eauto.
Qed.

End WithHash.

(** Nighthash over 13 bytes with the index hashed, [txf] off, and a stand-in
    for the hash functions. *)
Lemma nighthash_input_unchanged_witness :
  exists out calls,
    peach_nighthash (fun a _ => repeat 0 (digest_size a))
                    [1; 2; 3; 4; 5; 6; 7; 8; 9; 10; 11; 12; 13] 13 42 true false
    = Some (([1; 2; 3; 4; 5; 6; 7; 8; 9; 10; 11; 12; 13], out), calls).
Proof.
  assert (Hlen : (13 <= length [1; 2; 3; 4; 5; 6; 7; 8; 9; 10; 11; 12; 13])%nat)
    by (cbn [length]; lia).
  destruct (nighthash_input_unchanged (fun a _ => repeat 0 (digest_size a))
              [1; 2; 3; 4; 5; 6; 7; 8; 9; 10; 11; 12; 13] 13 42 true Hlen)
    as (_ & a & H).
  eexists _, _. exact H.
Defined.

End PeachNighthash.

Module PeachWalk.
Import Trigg Peach PeachRef TriggRef TriggSpec PeachNighthash.

(** ** Rules for [returns] *)

Lemma returns_ret {A : Type} (a : A) (Q : A -> list hash_call -> Prop) :
  Q a [] -> returns (retM a) Q.
Proof. intros H. exists a, []. split; [reflexivity | exact H]. Qed.

Lemma returns_lift {A : Type} (o : option A) (a : A) (Q : A -> list hash_call -> Prop) :
  o = Some a -> Q a [] -> returns (lift o) Q.
Proof. intros -> H. exists a, []. split; [reflexivity | exact H]. Qed.

Lemma returns_bind {A B : Type} (m : M A) (f : A -> M B)
    (P : A -> list hash_call -> Prop) (Q : B -> list hash_call -> Prop) :
  returns m P ->
  (forall a l1, P a l1 -> returns (f a) (fun b l2 => Q b (l1 ++ l2))) ->
  returns (bindM m f) Q.
Proof.
  intros (a & l1 & -> & Ha) Hf. destruct (Hf a l1 Ha) as (b & l2 & Hb & HQ).
  exists b, (l1 ++ l2). split; [|exact HQ]. cbn [bindM]. rewrite Hb. reflexivity.
Qed.

Lemma returns_bind_lift {A B : Type} (o : option A) (a : A) (f : A -> M B)
    (Q : B -> list hash_call -> Prop) :
  o = Some a -> returns (f a) Q -> returns (bindM (lift o) f) Q.
Proof.
  intros -> (b & l & H & HQ). exists b, l. split; [|exact HQ].
  cbn [lift bindM]. rewrite H. reflexivity.
Qed.

Lemma returns_bind_val {A B : Type} (m : M A) (f : A -> M B) (P : A -> Prop) (Q : B -> Prop) :
  returns m (fun a _ => P a) ->
  (forall a, P a -> returns (f a) (fun b _ => Q b)) ->
  returns (bindM m f) (fun b _ => Q b).
Proof.
  intros Hm Hf. eapply returns_bind; [exact Hm|].
  intros a l1 Ha. cbn beta. apply Hf. exact Ha.
Qed.

Lemma returns_weaken {A : Type} (m : M A) (P Q : A -> list hash_call -> Prop) :
  returns m P -> (forall a l, P a l -> Q a l) -> returns m Q.
Proof. intros (a & l & H & Ha) HPQ. exists a, l. split; [exact H | auto]. Qed.

Lemma returns_value {A : Type} (m : M A) (Q : A -> list hash_call -> Prop) :
  returns m Q -> exists a, value m = Some a /\ exists l, Q a l.
Proof. intros (a & l & -> & Ha). exists a. split; [reflexivity | eauto]. Qed.

Lemma value_returns {A : Type} (m : M A) (Q : A -> list hash_call -> Prop) (a : A) :
  returns m Q -> value m = Some a -> exists l, Q a l.
Proof.
  intros (a' & l & -> & Ha) Hv. cbn in Hv. inversion Hv; subst. eauto.
Qed.

Lemma returns_with_value {A : Type} (m : M A) (Q : A -> list hash_call -> Prop) :
  returns m Q -> returns m (fun a l => value m = Some a /\ Q a l).
Proof.
  intros (a & l & H & Ha). exists a, l. split; [exact H|].
  split; [rewrite H; reflexivity | exact Ha].
Qed.

(** ** Blocks of memory *)

Lemma map_nth_seq (vs : list Z) :
  List.map (fun k => nth k vs 0) (seq 0 (length vs)) = vs.
Proof.
  induction vs as [|v vs IH]; [reflexivity|].
  cbn [length seq List.map nth]. f_equal.
  rewrite <- seq_shift, List.map_map. exact IH.
Qed.

Lemma mem_read_write_same (m : Z -> Z) (off : Z) (vs : list Z) :
  mem_read (mem_write m off vs) off (length vs) = vs.
Proof.
  transitivity (List.map (fun k => nth k vs 0) (seq 0 (length vs))); [|apply map_nth_seq].
  unfold mem_read, mem_write.
  apply List.map_ext_in. intros k Hk. apply in_seq in Hk.
  case_decide; [|lia]. f_equal. lia.
Qed.

Lemma mem_read_write_other (m : Z -> Z) (off : Z) (vs : list Z) (off' : Z) (n : nat) :
  off' + Z.of_nat n <= off \/ off + Z.of_nat (length vs) <= off' ->
  mem_read (mem_write m off vs) off' n = mem_read m off' n.
Proof.
  intros H. unfold mem_read, mem_write.
  apply List.map_ext_in. intros k Hk. apply in_seq in Hk.
  case_decide; [lia | reflexivity].
Qed.

Lemma length_mem_read (m : Z -> Z) (off : Z) (n : nat) : length (mem_read m off n) = n.
Proof. unfold mem_read. rewrite length_map, length_seq. reflexivity. Qed.

Section WithHash.

Variable digest : hash_algo -> list Z -> list Z.
Hypothesis digest_len : forall a m, length (digest a m) = digest_size a.

(** ** Tiles *)

Lemma nighthash_returns (inb : list Z) (inlen : nat) (index : Z) (hashindex txf : bool) :
  (inlen <= length inb)%nat -> (txf = true -> (8 <= length inb)%nat) ->
  returns (peach_nighthash digest inb inlen index hashindex txf)
          (fun r _ => length (fst r) = length inb /\ length (snd r) = 32%nat).
Proof.
  intros Hlen H8.
  destruct (peach_nighthash_ok digest inb inlen index hashindex txf Hlen H8)
    as (inb' & a & H & K).
  eexists _, _. split; [exact H|].
  exact (peach_nighthash_length digest inb inlen index hashindex txf _ _
           digest_len Hlen H8 H).
Qed.

Lemma fill_rows_returns (n : nat) (index : Z) (done row : list Z) :
  length row = 32%nat ->
  returns (fill_rows digest n index done row)
          (fun tile _ => length tile = (length done + 32 * (n + 1))%nat).
Proof.
  revert done row. induction n as [|n IH]; intros done row Hrow; cbn [fill_rows].
  - apply returns_ret. rewrite length_app. lia.
  - eapply returns_bind.
    + apply (nighthash_returns row HASHLEN index true true);
        [unfold HASHLEN; lia | intros _; lia].
    + intros [row' next] l1 [Hr Hn]. cbn [fst snd] in Hr, Hn.
      eapply returns_weaken; [apply IH; exact Hn|].
      intros tile l Ht. cbn beta. rewrite Ht, length_app. lia.
Qed.

Lemma gen_tile_returns (phash : list Z) (index : Z) :
  length phash = 32%nat ->
  returns (gen_tile digest phash index) (fun tile _ => length tile = PEACH_TILE).
Proof.
  intros Hp. unfold gen_tile. eapply returns_bind.
  - apply (nighthash_returns (le_bytes 4 index ++ phash) PEACH_GEN index false true).
    + rewrite length_app, length_le_bytes, Hp. unfold PEACH_GEN. lia.
    + intros _. rewrite length_app, length_le_bytes, Hp. lia.
  - intros [seed' row] l1 [_ Hrow]. cbn [fst snd] in Hrow.
    eapply returns_weaken; [apply fill_rows_returns; exact Hrow|].
    intros tile l Ht. cbn beta. rewrite Ht. reflexivity.
Qed.

Lemma tile_value_Some (phash : list Z) (index : Z) :
  length phash = 32%nat ->
  exists tile, tile_value digest phash index = Some tile /\ length tile = PEACH_TILE.
Proof.
  intros Hp. destruct (gen_tile_returns phash index Hp) as (tile & l & H & Hl).
  exists tile. split; [|exact Hl]. unfold tile_value. rewrite H. reflexivity.
Qed.

(** ** peach_next *)

Lemma sum_words_Some (n k : nat) (hash : list Z) (acc : Z) :
  (4 * (k + n) <= length hash)%nat -> exists v, sum_words n k hash acc = Some v.
Proof.
  revert k acc. induction n as [|n IH]; intros k acc H; cbn [sum_words]; [eauto|].
  rewrite load_bytes_Some by lia. cbn [mbind option_bind]. apply IH. lia.
Qed.

Lemma land_map_range (x : Z) : 0 <= Z.land x (PEACH_MAP - 1) < PEACH_MAP.
Proof.
  change (PEACH_MAP - 1) with (Z.ones 20). rewrite Z.land_ones by lia.
  apply Z.mod_pos_bound. reflexivity.
Qed.

Lemma peach_next_returns (index : Z) (tile nonce : list Z) :
  (32 <= length nonce)%nat -> (PEACH_TILE <= length tile)%nat ->
  returns (peach_next digest index tile nonce) (fun v _ => 0 <= v < PEACH_MAP).
Proof.
  intros Hn Ht. unfold peach_next.
  eapply returns_bind_lift; [apply load_bytes_Some; lia|].
  eapply returns_bind_lift; [apply load_bytes_Some; lia|].
  rewrite !drop_0.
  eapply returns_bind_val.
  - apply (nighthash_returns _ PEACH_NEXT index false false); [|discriminate].
    rewrite !length_app, length_le_bytes, !length_take. unfold PEACH_NEXT, PEACH_TILE in *. lia.
  - intros [seed' hash] [_ Hh]. cbn [fst snd] in Hh.
    destruct (sum_words_Some 8 0 hash 0) as [v Hv]; [lia|].
    eapply returns_bind_lift; [exact Hv|].
    apply returns_ret. apply land_map_range.
Qed.


(** ** peach_gen *)

Lemma gen_tile_value (phash : list Z) (index : Z) :
  length phash = 32%nat ->
  returns (gen_tile digest phash index)
          (fun tile _ => tile_value digest phash index = Some tile /\
                         length tile = PEACH_TILE).
Proof.
  intros Hp. eapply returns_weaken.
  - apply returns_with_value. apply gen_tile_returns. exact Hp.
  - intros tile l [Hv Hl]. split; [exact Hv | exact Hl].
Qed.

Lemma peach_inv_phash (phash : list Z) (P : PEACH_ALGO) :
  peach_inv digest phash P -> length phash = 32%nat.
Proof.
  intros ((bt & _ & Hph) & _). unfold load_bytes in Hph.
  case_decide; [|discriminate]. inversion Hph.
  rewrite length_take, length_drop. unfold HASHLEN in *. lia.
Qed.

Lemma peach_gen_returns (phash : list Z) (P : PEACH_ALGO) (index : Z) :
  peach_inv digest phash P -> 0 <= index < PEACH_MAP ->
  returns (peach_gen digest P index) (fun r _ => gen_post digest phash P index r).
Proof.
  intros Hinv Hidx. pose proof (peach_inv_phash phash P Hinv) as Hp.
  destruct Hinv as ((bt & Hbt & Hph) & Htile & Hmc).
  assert (Hoff : uint32 (index * Z.of_nat PEACH_TILE) = index * Z.of_nat PEACH_TILE).
  { unfold uint32, PEACH_TILE, PEACH_MAP in *. apply Z.mod_small. lia. }
  unfold peach_gen. destruct Hmc as [[Hm Hc] | (m & c & Hm & Hc & Hsm & Hsc & Hcache)].
  - (* no map: the tile of the context *)
    rewrite Hc, Hm, Hbt. eapply returns_bind_lift; [reflexivity|]. cbv iota.
    eapply returns_bind_lift; [reflexivity|].
    eapply returns_bind_lift; [exact Hph|].
    eapply returns_bind_val; [apply gen_tile_value; exact Hp|].
    intros tile [Hv Hl].
    eapply returns_bind_lift; [apply store_bytes_whole; congruence|].
    apply returns_ret. unfold gen_post. cbn [fst snd p_tile p_bt p_map p_cache p_nonce p_diff].
    split; [|split; [|auto]].
    + split; [eauto|]. split; [exact Hl | left; auto].
    + exists tile. split; [|auto]. cbn [tile_at p_tile]. rewrite <- Hl. apply load_bytes_whole.
  - (* map and cache *)
    rewrite Hc, Hm, Hbt.
    assert (Hrd : buf_read c index 1 = Some [mem c index]).
    { unfold buf_read. case_decide as Hr; [|unfold PEACH_MAP in *; lia].
      unfold mem_read. cbn [seq List.map]. rewrite Z.add_0_r. reflexivity. }
    rewrite Hrd. cbn [mbind option_bind hd].
    eapply returns_bind_lift; [reflexivity|].
    destruct (Z.eqb_spec (mem c index) 0) as [Hz|Hnz]; cbn [negb].
    + (* not yet in the map *)
      eapply returns_bind_lift; [reflexivity|].
      eapply returns_bind_lift; [exact Hph|].
      eapply returns_bind_lift; [reflexivity|].
      assert (Hcw : exists c', buf_write c index [1] = Some c' /\ size c' = size c /\
                               mem c' = mem_write (mem c) index [1]).
      { unfold buf_write. case_decide as Hr; [|cbn [length] in Hr; unfold PEACH_MAP in *; lia].
        eexists. split; [reflexivity|]. split; reflexivity. }
      destruct Hcw as (c' & Hcw & Hsc' & Hmc').
      eapply returns_bind_lift; [exact Hcw|].
      eapply returns_bind_val; [apply gen_tile_value; exact Hp|].
      intros tile [Hv Hl].
      assert (Hmw : exists m', buf_write m (uint32 (index * Z.of_nat PEACH_TILE)) tile = Some m'
                               /\ size m' = size m /\
                               mem m' = mem_write (mem m) (index * Z.of_nat PEACH_TILE) tile).
      { rewrite Hoff. unfold buf_write.
        case_decide as Hr; [|rewrite Hl in Hr; unfold PEACH_TILE, PEACH_MAP, PEACH_SIZE in *; lia].
        eexists. split; [reflexivity|]. split; reflexivity. }
      destruct Hmw as (m' & Hmw & Hsm' & Hmm').
      eapply returns_bind_lift; [exact Hmw|].
      apply returns_ret. unfold gen_post.
      cbn [fst snd p_tile p_bt p_map p_cache p_nonce p_diff].
      assert (Hread : buf_read m' (uint32 (index * Z.of_nat PEACH_TILE)) PEACH_TILE = Some tile).
      { rewrite Hoff. unfold buf_read.
        case_decide as Hr;
          [|rewrite Hsm' in Hr; unfold PEACH_TILE, PEACH_MAP, PEACH_SIZE in *; lia].
        rewrite Hmm', <- Hl. f_equal. apply mem_read_write_same. }
      split; [|split; [|auto]].
      * split; [eauto|]. split; [exact Htile|]. right.
        exists m', c'. split; [reflexivity|]. split; [reflexivity|].
        split; [congruence|]. split; [congruence|].
        intros i Hi Hci. rewrite Hmm'.
        destruct (Z.eq_dec i index) as [->|Hne].
        -- rewrite Hv. f_equal. symmetry. rewrite <- Hl. apply mem_read_write_same.
        -- rewrite mem_read_write_other
             by (rewrite Hl; unfold PEACH_TILE; lia).
           apply Hcache; [exact Hi|].
           rewrite Hmc' in Hci. unfold mem_write in Hci.
           case_decide as Hr; [cbn [length] in Hr; lia | exact Hci].
      * exists tile. split; [|auto]. cbn [tile_at p_map mbind option_bind]. exact Hread.
    + (* already in the map *)
      apply returns_ret. unfold gen_post. cbn [fst snd].
      split; [|split; [|auto]].
      * split; [eauto|]. split; [exact Htile|]. right.
        exists m, c. repeat (split; [assumption|]). exact Hcache.
      * destruct (tile_value_Some phash index Hp) as (tile & Hv & Hl).
        exists tile. split; [|auto]. cbn [tile_at]. rewrite Hm. cbn [mbind option_bind].
        rewrite Hoff. unfold buf_read.
        case_decide as Hr; [|unfold PEACH_TILE, PEACH_MAP, PEACH_SIZE in *; lia].
        rewrite (Hcache index Hidx Hnz) in Hv. exact Hv.
Qed.


(** ** The walk *)

Lemma peach_jump_returns (phash nonce : list Z) (n : nat) (P : PEACH_ALGO) (mario : Z)
    (r : tileref) (t : list Z) :
  peach_inv digest phash P -> tile_at P r = Some t -> length t = PEACH_TILE ->
  (32 <= length nonce)%nat ->
  returns (peach_jump digest n P mario r nonce)
          (fun res _ => jump_post digest phash nonce P n mario t res).
Proof.
  intros Hinv Ht Hl Hn. revert P mario r t Hinv Ht Hl.
  induction n as [|n IH]; intros P mario r t Hinv Ht Hl; cbn [peach_jump].
  - apply returns_ret. unfold jump_post. cbn [fst snd walk_value]. eauto 10.
  - eapply returns_bind_lift; [exact Ht|].
    eapply returns_bind.
    + apply returns_with_value. apply (peach_next_returns mario t nonce); [exact Hn | lia].
    + intros v l1 [Hv Hr]. cbn beta.
      eapply returns_bind.
      * apply (peach_gen_returns phash P v Hinv Hr).
      * intros [r1 P1] l2 (Hinv1 & (t1 & Ht1 & Hv1 & Hl1) & Hbt1 & Hn1 & Hd1).
        cbn [fst snd] in *. eapply returns_weaken; [apply (IH P1 v r1 t1); assumption|].
        intros [r2 P2] l3 (Hinv2 & (t2 & Ht2 & Hv2 & Hl2) & Hbt2 & Hn2 & Hd2).
        cbn [fst snd] in *. unfold jump_post. cbn [fst snd walk_value].
        split; [exact Hinv2|]. split; [|repeat split; congruence].
        exists t2. split; [exact Ht2|]. split; [|exact Hl2].
        rewrite Hv. cbn [mbind option_bind]. rewrite Hv1. cbn [mbind option_bind]. exact Hv2.
Qed.

(** ** trigg_eval returns *)

Lemma eval_coarse_Some (n : nat) (h : list Z) (bp : nat) :
  (bp + n <= length h)%nat ->
  exists z bp', eval_coarse n h bp = Some (z, bp') /\ (z = true -> bp' = (bp + n)%nat).
Proof.
  revert bp. induction n as [|n IH]; intros bp H; cbn [eval_coarse].
  - exists true, bp. split; [reflexivity | intros _; lia].
  - destruct (load_Some h bp) as [b Hb]; [lia|]. rewrite Hb. cbn [mbind option_bind].
    destruct (b =? 0); cbn [negb].
    + destruct (IH (S bp)) as (z & bp' & Hz & Hbp); [lia|].
      exists z, bp'. split; [exact Hz | intros E; rewrite (Hbp E); lia].
    + exists false, (S bp). split; [reflexivity | discriminate].
Qed.

Lemma trigg_eval_Some (h : list Z) (d : Z) :
  length h = 32%nat -> exists r, trigg_eval h d = Some r /\ (r = 0 \/ r = 1).
Proof.
  intros Hlen. unfold trigg_eval.
  assert (Hd : 0 <= uint8 d < 256) by (apply Z.mod_pos_bound; lia).
  set (d' := uint8 d) in *.
  assert (Hn : 0 <= Z.shiftr d' 3 < 32).
  { rewrite Z.shiftr_div_pow2 by lia. change (2 ^ 3) with 8.
    pose proof (Z.div_mod d' 8 ltac:(lia)). pose proof (Z.mod_pos_bound d' 8 ltac:(lia)). lia. }
  rewrite (uint8_id (Z.shiftr d' 3)) by lia.
  destruct (eval_coarse_Some (Z.to_nat (Z.shiftr d' 3)) h 0) as (z & bp' & Hz & Hbp); [lia|].
  rewrite Hz. cbn [mbind option_bind]. destruct z; cbn [negb]; [|eauto].
  destruct (Z.land d' 7 =? 0); [eauto|].
  destruct (load_Some h bp') as [b Hb]; [rewrite (Hbp eq_refl); lia|].
  rewrite Hb. cbn [mbind option_bind].
  destruct (Z.land b (Z.lnot (Z.shiftr 255 (Z.land d' 7))) =? 0); cbn [negb]; eauto.
Qed.

(** ** The two searches *)

Lemma mario_range (bt_hash : list Z) :
  length bt_hash = 32%nat ->
  exists mario, generate_mario bt_hash = Some mario /\ 0 <= mario < PEACH_MAP.
Proof.
  intros Hl. destruct (PeachMario.mario_32 bt_hash Hl) as [Hg _].
  eexists. split; [exact Hg | apply land_map_range].
Qed.

Lemma returns_bind_hash {B : Type} (ctx : hash_ctx) (f : list Z -> M B)
    (Q : B -> list hash_call -> Prop) :
  returns (f (digest (ctx_algo ctx) (ctx_msg ctx)))
          (fun b l2 => Q b ((ctx_algo ctx, ctx_msg ctx) :: l2)) ->
  returns (bindM (hash_final digest ctx) f) Q.
Proof.
  intros (b & l2 & H & HQ). exists b, ((ctx_algo ctx, ctx_msg ctx) :: l2).
  split; [|exact HQ]. unfold hash_final. cbn [bindM]. rewrite H. reflexivity.
Qed.

Lemma zero_context_inv (bt : list Z) :
  (32 <= length bt)%nat ->
  peach_inv digest (take 32 bt)
    {| p_bt := Some bt; p_map := None; p_cache := None;
       p_tile := p_tile peach_zero; p_nonce := p_nonce peach_zero;
       p_diff := p_diff peach_zero |}.
Proof.
  intros H. split; [|split].
  - exists bt. split; [reflexivity|]. cbn [p_bt]. rewrite load_bytes_Some by (unfold HASHLEN; lia).
    rewrite drop_0. reflexivity.
  - reflexivity.
  - left. split; reflexivity.
Qed.

Lemma peach_checkhash_returns (bt : list Z) (out : option (list Z)) :
  length bt = 160%nat ->
  trigg_syntax (take 16 (drop 92 bt)) = Some 1 ->
  trigg_syntax (take 16 (drop 108 bt)) = Some 1 ->
  (forall o, out = Some o -> (32 <= length o)%nat) ->
  returns (peach_checkhash digest bt out) (check_post digest bt out).
Proof.
  intros Hlen Hs1 Hs2 Hout. unfold peach_checkhash.
  eapply returns_bind_lift; [apply load_bytes_Some; lia|].
  eapply returns_bind_lift; [exact Hs1|]. cbn [Z.eqb Pos.eqb].
  eapply returns_bind_lift; [apply load_bytes_Some; lia|].
  eapply returns_bind_lift; [exact Hs2|]. cbn [Z.eqb Pos.eqb].
  eapply returns_bind_lift; [apply load_bytes_Some; lia|].
  rewrite drop_0.
  apply returns_bind_hash. cbn [hash_init hash_update ctx_algo ctx_msg app].
  set (bt_hash := digest SHA256 (take 124 bt)).
  assert (Hbh : length bt_hash = 32%nat) by (subst bt_hash; rewrite digest_len; reflexivity).
  destruct (mario_range bt_hash Hbh) as (mario & Hmario & Hrange).
  eapply returns_weaken with
    (P := fun res _ =>
            exists hash d,
              final_hash digest (take 32 bt) (take 32 (drop 92 bt)) bt_hash = Some hash /\
              length hash = 32%nat /\ bt !! 56%nat = Some d /\
              trigg_eval hash d = Some (fst res) /\ (fst res = 0 \/ fst res = 1) /\
              snd res = match out with
                        | Some o => Some (hash ++ drop 32 o)
                        | None => None
                        end).
  2:{ intros res l (hash & d & H). exists hash, d. intuition. }
  eapply returns_bind_lift; [exact Hmario|].
  eapply returns_bind_lift; [apply load_bytes_Some; lia|].
  pose proof (zero_context_inv bt ltac:(lia)) as Hinv0.
  eapply returns_bind; [apply (peach_gen_returns _ _ mario Hinv0 Hrange)|].
  intros [r1 P1] l1 (Hinv1 & (t1 & Ht1 & Hv1 & Hl1) & _). cbn [fst snd] in *. cbn beta.
  eapply returns_bind.
  { apply (peach_jump_returns (take 32 bt) (take 32 (drop 92 bt)) PEACH_JUMP P1 mario r1 t1);
      [assumption | assumption | assumption | rewrite length_take, length_drop; lia]. }
  intros [r2 P2] l2 (Hinv2 & (t2 & Ht2 & Hv2 & Hl2) & _). cbn [fst snd] in *. cbn beta.
  eapply returns_bind_lift;
    [change HASHLEN with 32%nat; rewrite <- Hbh; apply load_bytes_whole|].
  eapply returns_bind_lift; [exact Ht2|].
  apply returns_bind_hash. cbn [hash_init hash_update ctx_algo ctx_msg app].
  set (hash := digest SHA256 (bt_hash ++ t2)).
  assert (Hh : length hash = 32%nat) by (subst hash; rewrite digest_len; reflexivity).
  assert (Hfinal : final_hash digest (take 32 bt) (take 32 (drop 92 bt)) bt_hash = Some hash).
  { unfold final_hash. rewrite Hmario. cbn [mbind option_bind]. rewrite Hv1.
    cbn [mbind option_bind]. rewrite Hv2. reflexivity. }
  destruct (lookup_lt_is_Some_2 bt 56) as [d Hd]; [lia|].
  destruct (trigg_eval_Some hash d Hh) as (r & Hr & Hr01).
  assert (Hcopy : match out with
                  | Some o =>
                      h32 ← load_bytes hash 0 HASHLEN;
                      o' ← store_bytes o 0 h32;
                      Some (Some o')
                  | None => Some None
                  end
                  = Some (match out with
                          | Some o => Some (hash ++ drop 32 o)
                          | None => None
                          end)).
  { destruct out as [o|]; [|reflexivity].
    change HASHLEN with 32%nat. rewrite <- Hh at 1. rewrite load_bytes_whole.
    cbn [mbind option_bind]. unfold store_bytes.
    specialize (Hout o eq_refl). case_decide; [|lia].
    rewrite take_0, Hh. reflexivity. }
  eapply returns_bind_lift; [exact Hcopy|].
  eapply returns_bind_lift; [exact Hd|].
  eapply returns_bind_lift; [exact Hr|].
  apply returns_ret. exists hash, d. cbn [fst snd]. auto 10.
Qed.

Lemma generate_attempt_returns (phash bt : list Z) (P : PEACH_ALGO) (out : list Z) :
  peach_inv digest phash P -> p_bt P = Some bt -> (92 <= length bt)%nat ->
  length (p_nonce P) = 32%nat -> (32 <= length out)%nat ->
  returns (generate_attempt digest P out) (attempt_post digest phash bt P out).
Proof.
  intros Hinv Hbt Hlen Hn Hout. unfold generate_attempt.
  eapply returns_bind_lift; [exact Hbt|].
  eapply returns_bind_lift; [apply load_bytes_Some; lia|].
  eapply returns_bind_lift; [rewrite <- Hn; apply load_bytes_whole|].
  rewrite drop_0.
  apply returns_bind_hash. cbn [hash_init hash_update ctx_algo ctx_msg app].
  set (bt_hash := digest SHA256 (take 92 bt ++ p_nonce P)).
  assert (Hbh : length bt_hash = 32%nat) by (subst bt_hash; rewrite digest_len; reflexivity).
  destruct (mario_range bt_hash Hbh) as (mario & Hmario & Hrange).
  eapply returns_weaken with
    (P := fun res _ =>
            exists hash ev,
              final_hash digest phash (p_nonce P) bt_hash = Some hash /\
              trigg_eval hash (uint8 (p_diff P)) = Some ev /\ (ev = 0 \/ ev = 1) /\
              fst (fst res) = ev /\
              snd (fst res) = (if ev =? 0 then out else p_nonce P ++ drop 32 out) /\
              peach_inv digest phash (snd res)).
  2:{ intros res l (hash & ev & H). exists hash, ev. intuition. }
  eapply returns_bind_lift; [exact Hmario|].
  eapply returns_bind; [apply (peach_gen_returns _ _ mario Hinv Hrange)|].
  intros [r1 P1] l1 (Hinv1 & (t1 & Ht1 & Hv1 & Hl1) & Hbt1 & Hn1 & Hd1).
  cbn [fst snd] in *. cbn beta.
  eapply returns_bind.
  { apply (peach_jump_returns phash (p_nonce P1) PEACH_JUMP P1 mario r1 t1);
      [assumption | assumption | assumption | rewrite Hn1, Hn; lia]. }
  intros [r2 P2] l2 (Hinv2 & (t2 & Ht2 & Hv2 & Hl2) & Hbt2 & Hn2 & Hd2).
  cbn [fst snd] in *. cbn beta.
  eapply returns_bind_lift;
    [change HASHLEN with 32%nat; rewrite <- Hbh; apply load_bytes_whole|].
  eapply returns_bind_lift; [exact Ht2|].
  apply returns_bind_hash. cbn [hash_init hash_update ctx_algo ctx_msg app].
  set (hash := digest SHA256 (bt_hash ++ t2)).
  assert (Hh : length hash = 32%nat) by (subst hash; rewrite digest_len; reflexivity).
  assert (Hfinal : final_hash digest phash (p_nonce P) bt_hash = Some hash).
  { unfold final_hash. rewrite Hmario. cbn [mbind option_bind]. rewrite Hv1.
    cbn [mbind option_bind]. rewrite <- Hn1, Hv2. reflexivity. }
  destruct (trigg_eval_Some hash (uint8 (p_diff P)) Hh) as (ev & Hev & Hev01).
  rewrite Hd2, Hd1.
  eapply returns_bind_lift; [exact Hev|].
  destruct Hev01 as [-> | ->]; cbn [Z.eqb negb].
  - apply returns_ret. exists hash, 0. cbn [fst snd Z.eqb]. auto 10.
  - assert (Hst : store_bytes out 0 (p_nonce P) = Some (p_nonce P ++ drop 32 out)).
    { unfold store_bytes. case_decide; [|lia]. rewrite take_0, Hn. reflexivity. }
    eapply returns_bind_lift; [exact Hst|].
    apply returns_ret. exists hash, 1. cbn [fst snd Z.eqb Pos.eqb]. auto 10.
Qed.

End WithHash.

End PeachWalk.

Module PeachCheck.
Import Trigg Peach PeachRef TriggRef TriggSpec TriggGrammar PeachNighthash PeachWalk.

(** ** Reading a computation backwards *)

Lemma bind_value_inv {A B : Type} (m : M A) (f : A -> M B) (b : B) :
  value (bindM m f) = Some b -> exists a, value m = Some a /\ value (f a) = Some b.
Proof.
  unfold value, bindM. destruct m as [[a l1]|]; [|discriminate].
  destruct (f a) as [[b' l2]|] eqn:Hf; [|discriminate].
  cbn. intros H. inversion H; subst. exists a. rewrite Hf. split; reflexivity.
Qed.

Lemma lift_value_inv {A : Type} (o : option A) (a : A) :
  value (lift o) = Some a -> o = Some a.
Proof. destruct o; cbn; [intros H; inversion H; reflexivity | discriminate]. Qed.

Lemma uint8_le_value (l : list Z) (b : Z) :
  is_byte b -> head l = Some b -> uint8 (le_value l) = b.
Proof.
  intros Hb Hl. destruct l as [|x l]; [discriminate|]. inversion Hl; subst x.
  cbn [le_value fold_right]. unfold uint8, is_byte in *.
  rewrite (TriggRandom.mod_congr _ b (fold_right (fun b0 acc => b0 + 256 * acc) 0 l) 256)
    by ring.
  apply Z.mod_small. exact Hb.
Qed.

Section WithHash.

Variable digest : hash_algo -> list Z -> list Z.
Hypothesis digest_len : forall a m, length (digest a m) = digest_size a.

(** A half of the nonce that fails the syntax check ends the check. *)
Lemma peach_checkhash_rejects (bt : list Z) (out : option (list Z)) :
  length bt = 160%nat -> bytes bt ->
  trigg_syntax (take 16 (drop 92 bt)) = Some 0 \/
  trigg_syntax (take 16 (drop 108 bt)) = Some 0 ->
  peach_checkhash digest bt out = Some ((0, out), []).
Proof.
  intros Hlen Hb Hfail.
  assert (Hb1 : bytes (take 16 (drop 92 bt))) by (apply Forall_take, Forall_drop; exact Hb).
  assert (Hl1 : length (take 16 (drop 92 bt)) = MAXH)
    by (rewrite length_take, length_drop, Hlen; reflexivity).
  unfold peach_checkhash.
  rewrite !load_bytes_Some by lia. cbn [lift bindM].
  destruct (trigg_syntax_cases _ Hl1 Hb1) as [[H1 _]|[H1 _]]; rewrite H1; cbn [lift bindM].
  - destruct Hfail as [H0|H0]; [congruence|]. rewrite H0. reflexivity.
  - reflexivity.
Qed.

(** C9.  For a trailer of 160 bytes: when either half of the nonce fails
    [trigg_syntax], [peach_checkhash] returns 0 having run no hash, with
    [out] as it was.  When both halves pass, it returns: the value is
    what [trigg_eval] gives on the final hash at the difficulty
    [bt->difficulty[0]], and a non-null [out] holds the final hash in its
    first 32 bytes, whatever that value is. *)
Theorem peach_checkhash_results (bt : list Z) (out : option (list Z)) :
  length bt = 160%nat -> bytes bt ->
  (forall o, out = Some o -> (32 <= length o)%nat) ->
  (trigg_syntax (take 16 (drop 92 bt)) = Some 0 \/
   trigg_syntax (take 16 (drop 108 bt)) = Some 0 ->
   peach_checkhash digest bt out = Some ((0, out), [])) /\
  (trigg_syntax (take 16 (drop 92 bt)) = Some 1 ->
   trigg_syntax (take 16 (drop 108 bt)) = Some 1 ->
   exists hash d r calls,
     peach_checkhash digest bt out
     = Some ((r, match out with
                 | Some o => Some (hash ++ drop 32 o)
                 | None => None
                 end), calls) /\
     final_hash digest (take 32 bt) (take 32 (drop 92 bt)) (digest SHA256 (take 124 bt))
     = Some hash /\
     length hash = 32%nat /\
     bt !! 56%nat = Some d /\
     trigg_eval hash d = Some r /\ (r = 0 \/ r = 1)).
Proof.
  intros Hlen Hb Hout.
  split.
  - apply peach_checkhash_rejects; assumption.
  - intros H1 H2.
    destruct (peach_checkhash_returns digest digest_len bt out Hlen H1 H2 Hout)
      as ([r out'] & calls & Hc & hash & d & Hf & Hh & Hd & Hev & H01 & Ho & _).
    cbn [fst snd] in *. subst out'. exists hash, d, r, calls. auto 10.
Qed.


(** The nonce lies at bytes 92 to 124 of the trailer. *)
Lemma trailer_split (bt : list Z) :
  take 124 bt = take 92 bt ++ take 32 (drop 92 bt).
Proof.
  rewrite <- (take_drop 92 bt) at 1.
  rewrite take_app, take_take. replace (124 `min` 92)%nat with 92%nat by lia.
  f_equal. destruct (decide (92 <= length bt)%nat) as [H|H].
  - rewrite length_take. replace (124 - 92 `min` length bt)%nat with 32%nat by lia.
    reflexivity.
  - rewrite (drop_ge bt 92) by lia. rewrite !take_nil. reflexivity.
Qed.

(** C1, as the code has it.  Take a trailer [bt] of 160 bytes and a
    context in use on [bt] whose nonce has been advanced to [bt.nonce] and
    whose difficulty was read from [bt].  Both functions hash the same
    124 bytes first: [peach_checkhash] the first 124 bytes of the trailer,
    [peach_generate] the first 92 bytes and then the nonce.
    [peach_check] returns 1 exactly when both halves of [bt.nonce] pass
    [trigg_syntax] and the final hash of the walk meets the difficulty
    [bt->difficulty[0]]; and that is exactly when both halves pass
    [trigg_syntax] and [peach_generate], from its first hash on, returns 1
    and writes [bt.nonce] to [out]. *)
Theorem peach_check_generate (bt : list Z) (P : PEACH_ALGO) (out : list Z) :
  length bt = 160%nat -> bytes bt ->
  peach_inv digest (take 32 bt) P -> p_bt P = Some bt ->
  p_nonce P = take 32 (drop 92 bt) ->
  p_diff P = le_value (take 4 (drop 56 bt)) ->
  (32 <= length out)%nat ->
  take 124 bt = take 92 bt ++ take 32 (drop 92 bt) /\
  returns (generate_attempt digest P out)
          (fun _ calls => head calls = Some (SHA256, take 124 bt)) /\
  (trigg_syntax (take 16 (drop 92 bt)) = Some 1 ->
   trigg_syntax (take 16 (drop 108 bt)) = Some 1 ->
   returns (peach_checkhash digest bt None)
           (fun _ calls => head calls = Some (SHA256, take 124 bt))) /\
  (value (peach_checkhash digest bt None) = Some (1, None) <->
   trigg_syntax (take 16 (drop 92 bt)) = Some 1 /\
   trigg_syntax (take 16 (drop 108 bt)) = Some 1 /\
   exists hash d,
     final_hash digest (take 32 bt) (take 32 (drop 92 bt)) (digest SHA256 (take 124 bt))
     = Some hash /\
     bt !! 56%nat = Some d /\ trigg_eval hash d = Some 1) /\
  (value (peach_checkhash digest bt None) = Some (1, None) <->
   trigg_syntax (take 16 (drop 92 bt)) = Some 1 /\
   trigg_syntax (take 16 (drop 108 bt)) = Some 1 /\
   exists P', value (generate_attempt digest P out)
              = Some (1, take 32 (drop 92 bt) ++ drop 32 out, P')).
Proof.
  intros Hlen Hb Hinv Hbt Hnonce Hdiff Hout.
  pose proof (trailer_split bt) as Hsplit.
  assert (Hn32 : length (p_nonce P) = 32%nat)
    by (rewrite Hnonce, length_take, length_drop, Hlen; reflexivity).
  destruct (generate_attempt_returns digest digest_len (take 32 bt) bt P out
              Hinv Hbt ltac:(lia) Hn32 Hout)
    as ([[rg og] Pg] & lg & Hg & hash & ev & Hfin & Hev & Hev01 & Hr & Ho & _ & Hhead).
  cbn [fst snd] in Hr, Ho. rewrite Hnonce in Hfin, Ho, Hhead.
  rewrite <- Hsplit in Hfin, Hhead.
  assert (Hnone : forall o : list Z, None = Some o -> (32 <= length o)%nat) by discriminate.
  destruct (lookup_lt_is_Some_2 bt 56) as [d Hd]; [lia|].
  assert (Hd8 : uint8 (p_diff P) = d).
  { rewrite Hdiff. apply uint8_le_value; [exact (bytes_lookup _ _ _ Hb Hd)|].
    rewrite (drop_S _ _ _ Hd). reflexivity. }
  assert (Hb1 : bytes (take 16 (drop 92 bt))) by (apply Forall_take, Forall_drop; exact Hb).
  assert (Hl1 : length (take 16 (drop 92 bt)) = MAXH)
    by (rewrite length_take, length_drop, Hlen; reflexivity).
  assert (Hb2 : bytes (take 16 (drop 108 bt))) by (apply Forall_take, Forall_drop; exact Hb).
  assert (Hl2 : length (take 16 (drop 108 bt)) = MAXH)
    by (rewrite length_take, length_drop, Hlen; reflexivity).
  assert (Hsyn : value (peach_checkhash digest bt None) = Some (1, None) ->
                 trigg_syntax (take 16 (drop 92 bt)) = Some 1 /\
                 trigg_syntax (take 16 (drop 108 bt)) = Some 1).
  { intros Hv. split.
    - destruct (trigg_syntax_cases _ Hl1 Hb1) as [[H _]|[H _]]; [exact H|]. exfalso.
      rewrite (peach_checkhash_rejects bt None Hlen Hb (or_introl H)) in Hv.
      discriminate.
    - destruct (trigg_syntax_cases _ Hl2 Hb2) as [[H _]|[H _]]; [exact H|]. exfalso.
      rewrite (peach_checkhash_rejects bt None Hlen Hb (or_intror H)) in Hv.
      discriminate. }
  split; [exact Hsplit|]. split; [|split; [|split]].
  - exists (rg, og, Pg), lg. split; [exact Hg | exact Hhead].
  - intros H1 H2. eapply returns_weaken;
      [exact (peach_checkhash_returns digest digest_len bt None Hlen H1 H2 Hnone)|].
    intros res l (hash0 & d' & _ & _ & _ & _ & _ & _ & Hhead0). exact Hhead0.
  - split.
    + intros Hv. destruct (Hsyn Hv) as [H1 H2].
      split; [exact H1|]. split; [exact H2|].
      destruct (peach_checkhash_returns digest digest_len bt None Hlen H1 H2 Hnone)
        as ([rc oc] & lc & Hc & hash' & d' & Hfin' & _ & Hd' & Hev' & _ & _ & _).
      cbn [fst snd] in Hev'. rewrite Hc in Hv. cbn in Hv. inversion Hv; subst rc oc.
      exists hash', d'. auto.
    + intros (H1 & H2 & hash0 & d0 & Hfin0 & Hd0 & Hev0).
      destruct (peach_checkhash_returns digest digest_len bt None Hlen H1 H2 Hnone)
        as ([rc oc] & lc & Hc & hash' & d' & Hfin' & _ & Hd' & Hev' & _ & Hoc & _).
      cbn [fst snd] in Hev', Hoc.
      rewrite Hfin0 in Hfin'. inversion Hfin'; subst hash'.
      rewrite Hd0 in Hd'. inversion Hd'; subst d'.
      assert (Hrc : rc = 1) by congruence.
      rewrite Hc. cbn. subst rc oc. reflexivity.
  - rewrite Hd8 in Hev.
    split.
    + intros Hv. destruct (Hsyn Hv) as [H1 H2].
      split; [exact H1|]. split; [exact H2|].
      destruct (peach_checkhash_returns digest digest_len bt None Hlen H1 H2 Hnone)
        as ([rc oc] & lc & Hc & hash' & d' & Hfin' & _ & Hd' & Hev' & _ & _ & _).
      cbn [fst snd] in Hev'. rewrite Hc in Hv. cbn in Hv. inversion Hv; subst rc oc.
      rewrite Hfin in Hfin'. inversion Hfin'; subst hash'.
      rewrite Hd in Hd'. inversion Hd'; subst d'.
      assert (Hev1 : ev = 1) by congruence. subst ev.
      exists Pg. rewrite Hg. cbn. cbn [Z.eqb] in Ho. subst rg og. reflexivity.
    + intros (H1 & H2 & P' & Hv).
      destruct (peach_checkhash_returns digest digest_len bt None Hlen H1 H2 Hnone)
        as ([rc oc] & lc & Hc & hash' & d' & Hfin' & _ & Hd' & Hev' & _ & Hoc & _).
      cbn [fst snd] in Hev', Hoc.
      rewrite Hfin in Hfin'. inversion Hfin'; subst hash'.
      rewrite Hd in Hd'. inversion Hd'; subst d'.
      rewrite Hg in Hv. cbn in Hv.
      assert (Hrg : rg = 1) by (inversion Hv; reflexivity).
      assert (Hrc : rc = 1) by congruence.
      rewrite Hc. cbn. subst rc oc. reflexivity.
Qed.

(** [peach_generate] is the advance of the nonce followed by
    [generate_attempt]: what it writes to [out] on success is the nonce
    whose second half [trigg_gen] has just drawn. *)
Lemma peach_generate_emits (P : PEACH_ALGO) (out : list Z) (fuel : nat) (seed : Z)
    (out' : list Z) (P' : PEACH_ALGO) (seed' : Z) :
  value (peach_generate digest P out fuel seed) = Some (1, out', P', seed') ->
  exists haiku,
    trigg_gen fuel seed = Some (haiku, seed') /\
    take 16 (drop 16 out') = haiku.
Proof.
  unfold peach_generate. intros H.
  apply bind_value_inv in H as (n2 & Hn2 & H). apply lift_value_inv in Hn2.
  apply bind_value_inv in H as (nonce1 & Hn1 & H). apply lift_value_inv in Hn1.
  apply bind_value_inv in H as ([haiku s1] & Hgen & H). apply lift_value_inv in Hgen.
  apply bind_value_inv in H as (nonce2 & Hst & H). apply lift_value_inv in Hst.
  apply bind_value_inv in H as ([[r o] P1] & Hatt & H).
  cbn in H. inversion H; subst r o P1 s1. clear H.
  exists haiku. split; [exact Hgen|].
  destruct (trigg_gen_generated _ _ _ _ Hgen) as (Hlh & _ & _).
  change MAXH with 16%nat in Hlh.
  (* the nonce of the context after the advance *)
  apply store_bytes_inv in Hst as [-> Hroom]. rewrite Hlh in Hroom.
  set (A := take 16 nonce1). set (B := drop (16 + length haiku) nonce1).
  assert (HA : length A = 16%nat) by (subst A; rewrite length_take; lia).
  (* the attempt, read backwards to the store on [out] *)
  unfold generate_attempt in Hatt. cbn [p_bt p_nonce p_diff] in Hatt.
  apply bind_value_inv in Hatt as (bt & _ & Hatt).
  apply bind_value_inv in Hatt as (known & _ & Hatt).
  apply bind_value_inv in Hatt as (nonce & Hnonce & Hatt). apply lift_value_inv in Hnonce.
  apply bind_value_inv in Hatt as (bt_hash & _ & Hatt).
  apply bind_value_inv in Hatt as (mario & _ & Hatt).
  apply bind_value_inv in Hatt as ([r1 P1] & _ & Hatt).
  apply bind_value_inv in Hatt as ([r2 P2] & _ & Hatt).
  apply bind_value_inv in Hatt as (h & _ & Hatt).
  apply bind_value_inv in Hatt as (t & _ & Hatt).
  apply bind_value_inv in Hatt as (hash & _ & Hatt).
  apply bind_value_inv in Hatt as (r & _ & Hatt).
  destruct (negb (r =? 0)); [|cbn in Hatt; inversion Hatt].
  apply bind_value_inv in Hatt as (o & Ho & Hatt). apply lift_value_inv in Ho.
  assert (Hoo : o = out') by (cbn in Hatt; inversion Hatt; reflexivity).
  subst o. clear Hatt.
  apply store_bytes_inv in Ho as [-> _].
  apply load_bytes_inv in Hnonce as [-> _].
  rewrite take_0, !drop_0. cbn [app].
  assert (Hn : take 32 (A ++ haiku ++ B) = A ++ haiku).
  { rewrite app_assoc. apply take_app_length'. rewrite length_app. lia. }
  subst A B. rewrite Hn, <- app_assoc.
  rewrite drop_app_length' by (symmetry; exact HA).
  apply take_app_length'. lia.
Qed.

End WithHash.

Lemma zero_digest_len (a : hash_algo) (m : list Z) :
  length (zero_digest a m) = digest_size a.
Proof. apply repeat_length. Qed.

Lemma trailer_example_bytes : length trailer_example = 160%nat /\ bytes trailer_example.
Proof. split; [reflexivity | apply bytesb_ok; reflexivity]. Qed.

Lemma context_example_inv :
  peach_inv zero_digest (take 32 trailer_example) context_example.
Proof.
  split; [|split].
  - exists trailer_example. split; reflexivity.
  - reflexivity.
  - left. split; reflexivity.
Qed.

(** The check of [trailer_example] with a buffer for the hash. *)
Lemma peach_checkhash_results_witness :
  exists hash d r calls,
    peach_checkhash zero_digest trailer_example (Some (repeat 9 32))
    = Some ((r, Some (hash ++ drop 32 (repeat 9 32))), calls) /\
    length hash = 32%nat /\ trigg_eval hash d = Some r.
Proof.
  destruct trailer_example_bytes as [Hlen Hb].
  assert (Hout : forall o, Some (repeat 9 32) = Some o -> (32 <= length o)%nat).
  { intros o Ho. inversion Ho. subst o. vm_compute. lia. }
  destruct (peach_checkhash_results zero_digest zero_digest_len trailer_example
              (Some (repeat 9 32)) Hlen Hb Hout) as [_ H].
  assert (H1 : trigg_syntax (take 16 (drop 92 trailer_example)) = Some 1)
    by (vm_compute; reflexivity).
  assert (H2 : trigg_syntax (take 16 (drop 108 trailer_example)) = Some 1)
    by (vm_compute; reflexivity).
  destruct (H H1 H2) as (hash & d & r & calls & Hc & _ & Hh & _ & Hev & _).
  exists hash, d, r, calls. auto.
Defined.

(** [trailer_example] passes the check, so the search accepts its nonce. *)
Lemma peach_check_generate_witness :
  exists P',
    value (generate_attempt zero_digest context_example (repeat 0 32))
    = Some (1, take 32 (drop 92 trailer_example) ++ drop 32 (repeat 0 32), P').
Proof.
  destruct trailer_example_bytes as [Hlen Hb].
  assert (Hout : (32 <= length (repeat 0 32))%nat) by (vm_compute; lia).
  destruct (peach_check_generate zero_digest zero_digest_len trailer_example
              context_example (repeat 0 32) Hlen Hb context_example_inv
              eq_refl eq_refl eq_refl Hout) as (_ & _ & _ & _ & Hiff).
  assert (Hc : value (peach_checkhash zero_digest trailer_example None) = Some (1, None))
    by (vm_compute; reflexivity).
  destruct (proj1 Hiff Hc) as (_ & _ & HP). exact HP.
Defined.

(** C1 as stated fails.  [trailer_trailing] has difficulty 0 and a nonce
    whose second half carries a byte after its terminating zero.  Whatever
    the hash functions, [peach_check] returns 1 on it, and no run of
    [peach_generate] writes this nonce, since the half that [trigg_gen]
    draws is zero from its terminator on. *)
Lemma peach_check_accepts_unemitted :
  length trailer_trailing = 160%nat /\
  forall digest : hash_algo -> list Z -> list Z,
    (forall a m, length (digest a m) = digest_size a) ->
    value (peach_checkhash digest trailer_trailing None) = Some (1, None) /\
    forall P out fuel seed out' P' seed',
      value (peach_generate digest P out fuel seed) = Some (1, out', P', seed') ->
      take 32 out' <> take 32 (drop 92 trailer_trailing).
Proof.
  split; [reflexivity|]. intros digest digest_len.
  assert (Hnone : forall o : list Z, None = Some o -> (32 <= length o)%nat) by discriminate.
  split.
  - assert (H1 : trigg_syntax (take 16 (drop 92 trailer_trailing)) = Some 1)
      by (vm_compute; reflexivity).
    assert (H2 : trigg_syntax (take 16 (drop 108 trailer_trailing)) = Some 1)
      by (vm_compute; reflexivity).
    destruct (peach_checkhash_returns digest digest_len trailer_trailing None
                eq_refl H1 H2 Hnone)
      as ([r o] & calls & Hc & hash & d & _ & _ & Hd & Hev & _ & Ho & _).
    cbn [fst snd] in Hev, Ho. rewrite Hc. cbn.
    assert (Hd0 : d = 0) by (vm_compute in Hd; inversion Hd; reflexivity).
    subst d o. change (trigg_eval hash 0) with (Some 1) in Hev.
    inversion Hev. reflexivity.
  - intros P out fuel seed out' P' seed' Hv Heq.
    destruct (peach_generate_emits digest P out fuel seed out' P' seed' Hv)
      as (haiku & Hgen & Hh).
    destruct (trigg_gen_generated _ _ _ _ Hgen) as (_ & _ & fp & Hin & Hg).
    destruct (Frame_row fp Hin) as [_ H15].
    pose proof (generated_zero_slot _ _ _ Hg H15) as Hz.
    rewrite <- Hh, take_drop_commute in Hz.
    change (16 + 16)%nat with 32%nat in Hz. rewrite Heq in Hz.
    vm_compute in Hz. discriminate.
Qed.

End PeachCheck.

Module PeachSolve.
Import Trigg Peach PeachRef TriggRef TriggSpec TriggGrammar TriggRandom PeachNighthash.

(** ** The zero fill of the map and the cache *)

Lemma mem_write_zeros (m : Z -> Z) (off a : Z) :
  mem_write m off (repeat 0 8) a = if decide (off <= a < off + 8) then 0 else m a.
Proof.
  unfold mem_write. change (Z.of_nat (length (repeat 0 8))) with 8.
  case_decide; [|reflexivity]. apply nth_repeat.
Qed.

Lemma zero_iter (n : N) (i0 : Z) (m : Z -> Z) :
  let r := N.iter n
             (fun st : Z * (Z -> Z) =>
                (fst st + 1, mem_write (snd st) (8 * fst st) (repeat 0 8)))
             (i0, m) in
  fst r = i0 + Z.of_N n /\
  forall a, snd r a = if decide (8 * i0 <= a < 8 * (i0 + Z.of_N n)) then 0 else m a.
Proof.
  cbv zeta. induction n as [|n [IH1 IH2]] using N.peano_ind.
  - cbn [N.iter fst snd]. split; [lia|]. intros a. case_decide; [lia | reflexivity].
  - rewrite N.iter_succ. cbn [fst snd]. split; [lia|].
    intros a. rewrite mem_write_zeros, IH1, IH2.
    repeat case_decide; try reflexivity; lia.
Qed.

Lemma zero_qwords_spec (len : Z) (m : Z -> Z) (a : Z) :
  0 <= len ->
  zero_qwords len m a = if decide (0 <= a < 8 * len) then 0 else m a.
Proof.
  intros Hlen. unfold zero_qwords.
  destruct (zero_iter (Z.to_N len) 0 m) as [_ H]. rewrite H.
  repeat case_decide; try reflexivity; lia.
Qed.

Lemma buf_zero_spec (b : buffer) (len : Z) :
  0 <= len -> 8 * len <= size b ->
  exists b', buf_zero b len = Some b' /\ blk b' = blk b /\ size b' = size b /\
             forall a, 0 <= a < 8 * len -> mem b' a = 0.
Proof.
  intros Hlen Hsize. unfold buf_zero. case_decide; [|lia].
  eexists. split; [reflexivity|]. cbn [blk size mem]. repeat split.
  intros a Ha. rewrite zero_qwords_spec by exact Hlen. case_decide; [reflexivity | lia].
Qed.

(** ** The heap *)

Lemma free_fresh (h : heap) (p : positive) :
  p ∉ h -> ({[ p ]} ∪ h) ∖ {[ p ]} = h.
Proof. intros Hp. set_solver. Qed.

Lemma fresh_in (h : heap) (p : positive) : p ∈ ({[ p ]} ∪ h : heap).
Proof. set_solver. Qed.

Lemma fresh_distinct (h : heap) (p q : positive) :
  q ∉ ({[ p ]} ∪ h : heap) -> p <> q /\ q ∉ h.
Proof. intros Hq. set_solver. Qed.

(** C8.  When either allocation fails, [peach_solve] returns 1; the
    context is all zero, with no map, no cache, no trailer, difficulty 0
    and a zero nonce, and the heap is as before the call: a buffer that
    was acquired has been freed.  When both allocations succeed (on a
    trailer that holds its difficulty field, with draws enough for the
    generator), it returns 0 with the map and the cache live in the heap,
    distinct, of 1 GiB and 1 MiB, and zero throughout; the context refers
    to the trailer, holds its difficulty, and the second half of its nonce
    is a haiku that passes [trigg_syntax]. *)
Theorem peach_solve_allocation (bt : list Z) (h : heap) (rmap rcache : option (Z -> Z))
    (fuel : nat) (seed : Z) :
  (rmap = None \/ rcache = None ->
   peach_solve bt h rmap rcache fuel seed = Some (1, peach_zero, h, seed)) /\
  (is_Some rmap -> is_Some rcache -> (60 <= length bt)%nat -> (ENOUGH <= fuel)%nat ->
   exists P h' seed' bm bc,
     peach_solve bt h rmap rcache fuel seed = Some (0, P, h', seed') /\
     p_map P = Some bm /\ p_cache P = Some bc /\
     blk bm <> blk bc /\ (blk bm ∉ h) /\ (blk bc ∉ h) /\
     h' = {[ blk bc ]} ∪ ({[ blk bm ]} ∪ h) /\
     size bm = PEACH_SIZE /\ size bc = PEACH_MAP /\
     (forall a, 0 <= a < PEACH_SIZE -> mem bm a = 0) /\
     (forall a, 0 <= a < PEACH_MAP -> mem bc a = 0) /\
     p_bt P = Some bt /\
     p_diff P = le_value (take 4 (drop 56 bt)) /\
     take 16 (p_nonce P) = repeat 0 16 /\
     trigg_syntax (drop 16 (p_nonce P)) = Some 1).
Proof.
  split.
  - intros Hfail. unfold peach_solve, malloc, peach_free, free.
    destruct rmap as [jm|], rcache as [jc|];
      [destruct Hfail; discriminate| | |];
      cbn [p_bt p_map p_cache p_tile p_nonce p_diff blk mbind option_bind].
    + case_decide as Hin; [|exfalso; apply Hin, fresh_in]. cbn [mbind option_bind].
      rewrite (free_fresh h (fresh h) (is_fresh h)). reflexivity.
    + case_decide as Hin; [|exfalso; apply Hin, fresh_in]. cbn [mbind option_bind].
      rewrite (free_fresh h (fresh h) (is_fresh h)). reflexivity.
    + reflexivity.
  - intros [jm ->] [jc ->] Hbt Hfuel. unfold peach_solve, malloc.
    set (idm := fresh h). set (h1 := {[ idm ]} ∪ h). set (idc := fresh h1).
    destruct (buf_zero_spec {| blk := idm; size := PEACH_SIZE; mem := jm |}
                (Z.shiftr PEACH_SIZE 3)) as (bm & Hbm & Hkm & Hsm & Hzm);
      [vm_compute; discriminate | vm_compute; discriminate |].
    destruct (buf_zero_spec {| blk := idc; size := PEACH_MAP; mem := jc |}
                (Z.shiftr PEACH_MAP 3)) as (bc & Hbc & Hkc & Hsc & Hzc);
      [vm_compute; discriminate | vm_compute; discriminate |].
    rewrite Hbm. cbn [mbind option_bind]. rewrite Hbc. cbn [mbind option_bind].
    rewrite load_bytes_Some by lia. cbn [mbind option_bind].
    destruct (trigg_gen_total fuel seed Hfuel) as (haiku & seed' & Hgen).
    rewrite Hgen. cbn [mbind option_bind].
    destruct (trigg_gen_generated _ _ _ _ Hgen) as (Hlh & _ & _).
    change MAXH with 16%nat in Hlh.
    assert (Hst : store_bytes (p_nonce peach_zero) 16 haiku
                  = Some (repeat 0 16 ++ haiku)).
    { unfold store_bytes. rewrite Hlh. cbn [p_nonce peach_zero]. case_decide as Hr;
        [|rewrite repeat_length in Hr; lia].
      f_equal. rewrite drop_ge by (rewrite repeat_length; lia). rewrite app_nil_r.
      reflexivity. }
    cbn [p_nonce p_tile p_bt p_diff peach_zero]. cbn [p_nonce peach_zero] in Hst.
    rewrite Hst.
    cbn [mbind option_bind].
    pose proof (is_fresh h) as Hf1. pose proof (is_fresh h1) as Hf2.
    fold idm in Hf1. fold idc in Hf2.
    eexists _, _, _, bm, bc. split; [reflexivity|].
    cbn [p_map p_cache p_bt p_diff p_nonce]. rewrite Hkm, Hkc, Hsm, Hsc.
    cbn [size blk].
    split; [reflexivity|]. split; [reflexivity|].
    destruct (fresh_distinct h idm idc Hf2) as [Hne Hnc].
    split; [exact Hne|]. split; [exact Hf1|]. split; [exact Hnc|].
    split; [reflexivity|]. split; [reflexivity|]. split; [reflexivity|].
    split; [exact Hzm|]. split; [exact Hzc|].
    split; [reflexivity|]. split; [reflexivity|].
    split.
    + apply take_app_length'. rewrite repeat_length. reflexivity.
    + rewrite drop_app_length' by (rewrite repeat_length; reflexivity).
      exact (trigg_gen_accepted _ _ _ _ Hgen).
Qed.

(** The map is refused; and both buffers are granted. *)
Lemma peach_solve_allocation_witness :
  peach_solve (repeat 0 160) ∅ None (Some (fun _ => 7)) 0 1 = Some (1, peach_zero, ∅, 1) /\
  exists P h' seed',
    peach_solve (repeat 0 160) ∅ (Some (fun _ => 7)) (Some (fun _ => 7)) ENOUGH 1
    = Some (0, P, h', seed').
Proof.
  split.
  - apply (peach_solve_allocation (repeat 0 160) ∅ None (Some (fun _ => 7)) 0 1).
    left. reflexivity.
  - assert (Hm : is_Some (Some (fun _ : Z => 7))) by (eexists; reflexivity).
    assert (Hl : (60 <= length (repeat 0 160))%nat) by (rewrite repeat_length; lia).
    destruct (peach_solve_allocation (repeat 0 160) ∅ (Some (fun _ => 7)) (Some (fun _ => 7))
                ENOUGH 1) as [_ H].
    destruct (H Hm Hm Hl (le_n _)) as (P & h' & seed' & bm & bc & Hs & _).
    exists P, h', seed'. exact Hs.
Defined.

End PeachSolve.

(** * Further properties of the Trigg core *)

Module TriggMore.
Import Trigg TriggRef MoreRef TriggSpec TriggGrammar TriggExpand.

(** ** The evaluator *)

(** X1.  The evaluator is monotone in the difficulty: a 32-byte hash that
    meets a difficulty meets every lower one. *)
Theorem trigg_eval_monotone (h : list Z) (d d' : Z) :
  length h = 32%nat -> bytes h -> 0 <= d' <= d -> d < 256 ->
  trigg_eval h d = Some 1 -> trigg_eval h d' = Some 1.
Proof.
  intros Hlen Hb Hd' Hd Hev.
  destruct (trigg_eval_cases h d Hlen Hb ltac:(lia)) as [[_ Hz]|[H0 _]]; [|congruence].
  destruct (trigg_eval_cases h d' Hlen Hb ltac:(lia)) as [[H1 _]|[_ Hnz]]; [exact H1|].
  exfalso. apply Hnz.
  apply (zero_prefix_lt h d' Hlen Hb ltac:(lia)).
  apply (zero_prefix_lt h d Hlen Hb ltac:(lia)) in Hz.
  eapply Z.lt_le_trans; [exact Hz|].
  apply Z.pow_le_mono_r; lia.
Qed.

Lemma trigg_eval_monotone_witness :
  trigg_eval (0 :: 0 :: 31 :: repeat 255 29) 7 = Some 1.
Proof.
  apply (trigg_eval_monotone (0 :: 0 :: 31 :: repeat 255 29) 19 7).
  - reflexivity.
  - apply bytesb_ok. reflexivity.
  - lia.
  - lia.
  - reflexivity.
Defined.

Lemma eval_coarse_prefix (n : nat) (h h' : list Z) (bp : nat) :
  take (bp + n) h = take (bp + n) h' ->
  eval_coarse n h bp = eval_coarse n h' bp.
Proof.
  revert bp. induction n as [|n IH]; intros bp Ht; [reflexivity|].
  cbn [eval_coarse]. unfold load.
  assert (Hl : h !! bp = h' !! bp).
  { rewrite <- (lookup_take_lt h (bp + S n) bp) by lia.
    rewrite <- (lookup_take_lt h' (bp + S n) bp) by lia. rewrite Ht. reflexivity. }
  rewrite Hl. destruct (h' !! bp) as [b|]; [|reflexivity]. cbn [mbind option_bind].
  destruct (negb (b =? 0)); [reflexivity|].
  apply IH. replace (S bp + n)%nat with (bp + S n)%nat by lia. exact Ht.
Qed.

Lemma eval_coarse_end (n : nat) (h : list Z) (bp bp' : nat) :
  eval_coarse n h bp = Some (true, bp') -> bp' = (bp + n)%nat.
Proof.
  revert bp. induction n as [|n IH]; intros bp H; cbn [eval_coarse] in H.
  - inversion H. lia.
  - destruct (load h bp) as [b|]; [|discriminate]. cbn [mbind option_bind] in H.
    destruct (negb (b =? 0)); [discriminate|].
    apply IH in H. lia.
Qed.

(** X2.  At difficulty [d] the evaluator reads the first [(d + 7) / 8]
    bytes of the hash and no other: on two buffers, of any length, that
    agree on these bytes it does the same, be it a result or a read
    outside the buffer. *)
Theorem trigg_eval_reads_prefix (h h' : list Z) (d : Z) :
  0 <= d < 256 ->
  take (Z.to_nat ((d + 7) / 8)) h = take (Z.to_nat ((d + 7) / 8)) h' ->
  trigg_eval h d = trigg_eval h' d.
Proof.
  intros Hd Ht. unfold trigg_eval.
  rewrite (uint8_id d Hd).
  assert (Hq : Z.shiftr d 3 = d / 8) by (rewrite Z.shiftr_div_pow2 by lia; reflexivity).
  assert (Hr : Z.land d 7 = d mod 8)
    by (change 7 with (Z.ones 3); rewrite Z.land_ones by lia; reflexivity).
  rewrite Hq, Hr.
  pose proof (Z.div_mod d 8 ltac:(lia)) as Hdm.
  pose proof (Z.mod_pos_bound d 8 ltac:(lia)) as Hm.
  pose proof (Z.div_mod (d + 7) 8 ltac:(lia)) as Hdm7.
  pose proof (Z.mod_pos_bound (d + 7) 8 ltac:(lia)) as Hm7.
  rewrite (uint8_id (d / 8)) by lia.
  assert (Hc : eval_coarse (Z.to_nat (d / 8)) h 0 = eval_coarse (Z.to_nat (d / 8)) h' 0).
  { apply eval_coarse_prefix. cbn [Nat.add].
    apply (f_equal (take (Z.to_nat (d / 8)))) in Ht.
    rewrite !take_take in Ht.
    replace (Z.to_nat (d / 8) `min` Z.to_nat ((d + 7) / 8))%nat
      with (Z.to_nat (d / 8)) in Ht by lia.
    exact Ht. }
  rewrite Hc.
  destruct (eval_coarse (Z.to_nat (d / 8)) h' 0) as [[zero bp]|] eqn:He; [|reflexivity].
  cbn [mbind option_bind].
  destruct zero; cbn [negb]; [|reflexivity].
  apply eval_coarse_end in He. cbn [Nat.add] in He. subst bp.
  destruct (Z.eqb_spec (d mod 8) 0) as [E|E]; [reflexivity|].
  assert (Hl : load h (Z.to_nat (d / 8)) = load h' (Z.to_nat (d / 8))).
  { unfold load.
    rewrite <- (lookup_take_lt h (Z.to_nat ((d + 7) / 8))) by lia.
    rewrite <- (lookup_take_lt h' (Z.to_nat ((d + 7) / 8))) by lia.
    rewrite Ht. reflexivity. }
  rewrite Hl. reflexivity.
Qed.

Lemma trigg_eval_reads_prefix_witness :
  trigg_eval [0; 0; 31] 19 = trigg_eval (0 :: 0 :: 31 :: repeat 255 29) 19.
Proof.
  apply (trigg_eval_reads_prefix [0; 0; 31] (0 :: 0 :: 31 :: repeat 255 29) 19).
  - lia.
  - reflexivity.
Defined.

(** ** The number of tokens *)

Lemma first_zero_le (l : list Z) : (first_zero l <= length l)%nat.
Proof.
  induction l as [|x l IH]; cbn [first_zero length]; [lia|].
  destruct (x =? 0); lia.
Qed.

Lemma first_zero_lookup (l : list Z) :
  (first_zero l < length l)%nat -> l !! first_zero l = Some 0.
Proof.
  induction l as [|x l IH]; cbn [first_zero length]; [lia|].
  destruct (Z.eqb_spec x 0) as [->|Hx]; [reflexivity|].
  intros H. cbn. apply IH. lia.
Qed.

Lemma first_zero_nonzero (l : list Z) :
  Forall (fun c => c <> 0) (take (first_zero l) l).
Proof.
  induction l as [|x l IH]; cbn [first_zero]; [constructor|].
  destruct (Z.eqb_spec x 0) as [->|Hx]; [constructor|].
  cbn [take]. constructor; assumption.
Qed.

Lemma literal_check_ok (f : Z) : literal_check f = true -> literal_ok f.
Proof.
  unfold literal_check, literal_ok. intros H Hx.
  apply orb_true_iff in H as [H|H].
  - apply Z.eqb_eq in H. contradiction.
  - apply negb_true_iff, Z.eqb_neq in H. exact H.
Qed.

Lemma Frame_literals (fp : list Z) : fp ∈ Frame -> Forall literal_ok fp.
Proof.
  intros Hin.
  assert (Hc : forallb (forallb literal_check) Frame = true) by (vm_compute; reflexivity).
  rewrite forallb_forall in Hc. apply list_elem_of_In in Hin.
  specialize (Hc fp Hin). rewrite forallb_forall in Hc.
  apply Forall_forall. intros f Hf. apply literal_check_ok, Hc.
  apply list_elem_of_In. exact Hf.
Qed.

Lemma Frame_sizes (fp : list Z) : fp ∈ Frame -> (7 <= first_zero fp <= 13)%nat.
Proof.
  intros Hin.
  assert (Hc : frame_sizes_check = true) by (vm_compute; reflexivity).
  unfold frame_sizes_check in Hc. rewrite forallb_forall in Hc.
  apply list_elem_of_In in Hin. specialize (Hc fp Hin).
  apply andb_true_iff in Hc as [H1 H2].
  apply Nat.leb_le in H1, H2. lia.
Qed.

(** A token that fills a slot is not the token 0. *)
Lemma slot_match_nonzero (f t : Z) :
  f <> 0 -> literal_ok f -> is_byte t -> slot_match f t -> t <> 0.
Proof.
  intros Hf Hlit Ht Hm. unfold slot_match in Hm.
  destruct (Z.eqb_spec (Z.land f F_XLIT) 0) as [Hx|Hx].
  - destruct Hm as (d & Hd & Hfe). intros ->.
    apply Hfe. rewrite (proj2 (dict_fe_zero 0 d Ht Hd) eq_refl). reflexivity.
  - subst t. apply Hlit. exact Hx.
Qed.

Lemma accepts_first_zero (fp T : list Z) :
  Forall literal_ok fp -> bytes T -> accepts fp T -> first_zero T = first_zero fp.
Proof.
  intros Hlit Hb Ha. induction Ha as [|fp T|f t fp T Hf Hm Ha IH].
  - reflexivity.
  - reflexivity.
  - inversion Hlit as [|? ? Hl Hlit']; subst. inversion Hb as [|? ? Hbt Hb']; subst.
    cbn [first_zero].
    pose proof (slot_match_nonzero f t Hf Hl Hbt Hm) as Ht.
    destruct (Z.eqb_spec t 0) as [?|_]; [contradiction|].
    destruct (Z.eqb_spec f 0) as [?|_]; [contradiction|].
    f_equal. apply IH; assumption.
Qed.

(** X3.  A token array that passes [trigg_syntax] has between 7 and 13
    tokens: its first zero lies at an index from 7 to 13, so the array of
    zeros, and every array beginning with the token 0, is refused. *)
Theorem trigg_syntax_token_count (T : list Z) :
  length T = MAXH -> bytes T -> trigg_syntax T = Some 1 ->
  (7 <= first_zero T <= 13)%nat /\
  T !! first_zero T = Some 0 /\
  Forall (fun c => c <> 0) (take (first_zero T) T).
Proof.
  intros Hlen Hb Hs.
  destruct (trigg_syntax_cases T Hlen Hb) as [[_ (fp & Hin & Ha)]|[H0 _]]; [|congruence].
  pose proof (accepts_first_zero fp T (Frame_literals fp Hin) Hb Ha) as Hfz.
  pose proof (Frame_sizes fp Hin) as Hsz. rewrite <- Hfz in Hsz.
  split; [exact Hsz|]. split; [|apply first_zero_nonzero].
  apply first_zero_lookup. rewrite Hlen. change MAXH with 16%nat. lia.
Qed.

Lemma trigg_syntax_token_count_witness :
  (7 <= first_zero [249; 223; 1; 93; 215; 1; 35; 0; 0; 0; 0; 0; 0; 0; 0; 0]%Z <= 13)%nat.
Proof.
  apply (trigg_syntax_token_count [249; 223; 1; 93; 215; 1; 35; 0; 0; 0; 0; 0; 0; 0; 0; 0]).
  - reflexivity.
  - apply bytesb_ok. reflexivity.
  - vm_compute. reflexivity.
Defined.

(** ** What follows the terminator *)

Lemma accepts_prefix (fp T T' : list Z) :
  Forall literal_ok fp -> bytes T -> length T = length T' ->
  take (S (first_zero T)) T = take (S (first_zero T)) T' ->
  accepts fp T -> accepts fp T'.
Proof.
  intros Hlit Hb Hlen Ht Ha. revert T' Hlen Ht.
  induction Ha as [|fp T|f t fp T Hf Hm Ha IH]; intros T' Hlen Ht.
  - destruct T'; [constructor | discriminate].
  - destruct T' as [|t' T']; [discriminate|].
    cbn in Ht. inversion Ht; subst t'. constructor.
  - destruct T' as [|t' T']; [discriminate|].
    inversion Hlit as [|? ? Hl Hlit']; subst. inversion Hb as [|? ? Hbt Hb']; subst.
    pose proof (slot_match_nonzero f t Hf Hl Hbt Hm) as Hnz.
    cbn [first_zero] in Ht. destruct (Z.eqb_spec t 0) as [?|_]; [contradiction|].
    cbn [take] in Ht. inversion Ht as [[Ht1 Ht2]]. subst t'.
    constructor; [exact Hf | exact Hm |].
    apply IH; [assumption | assumption | cbn in Hlen; lia | exact Ht2].
Qed.

Lemma first_zero_prefix (T T' : list Z) :
  length T = length T' ->
  take (S (first_zero T)) T = take (S (first_zero T)) T' ->
  first_zero T' = first_zero T.
Proof.
  revert T'. induction T as [|t T IH]; intros T' Hlen Ht.
  - destruct T'; [reflexivity | discriminate].
  - destruct T' as [|t' T']; [discriminate|].
    cbn [first_zero] in *. destruct (Z.eqb_spec t 0) as [->|Hnz].
    + cbn in Ht. inversion Ht; subst t'. reflexivity.
    + cbn [take] in Ht. inversion Ht as [[Ht1 Ht2]]. subst t'.
      destruct (Z.eqb_spec t 0) as [?|_]; [contradiction|].
      f_equal. apply IH; [cbn in Hlen; lia | exact Ht2].
Qed.

(** X4.  [trigg_syntax] decides on the tokens up to the first zero and on
    nothing else: two arrays that agree up to and including the first
    zero of one of them get the same answer. *)
Theorem trigg_syntax_ignores_tail (T T' : list Z) :
  length T = MAXH -> length T' = MAXH -> bytes T -> bytes T' ->
  take (S (first_zero T)) T = take (S (first_zero T)) T' ->
  trigg_syntax T = trigg_syntax T'.
Proof.
  intros Hlen Hlen' Hb Hb' Ht.
  assert (Hll : length T = length T') by congruence.
  pose proof (first_zero_prefix T T' Hll Ht) as Hfz.
  destruct (trigg_syntax_cases T Hlen Hb) as [[H1 (fp & Hin & Ha)]|[H0 Hna]];
    destruct (trigg_syntax_cases T' Hlen' Hb') as [[H1' (fp' & Hin' & Ha')]|[H0' Hna']];
    try congruence.
  - exfalso. apply Hna'. exists fp. split; [exact Hin|].
    exact (accepts_prefix fp T T' (Frame_literals fp Hin) Hb Hll Ht Ha).
  - exfalso. apply Hna. exists fp'. split; [exact Hin'|].
    apply (accepts_prefix fp' T' T (Frame_literals fp' Hin') Hb'); [congruence| |exact Ha'].
    rewrite Hfz. symmetry. exact Ht.
Qed.

Lemma trigg_syntax_ignores_tail_witness :
  trigg_syntax [249; 223; 1; 93; 215; 1; 35; 0; 0; 0; 0; 0; 0; 0; 0; 0]
  = trigg_syntax [249; 223; 1; 93; 215; 1; 35; 0; 9; 0; 0; 7; 0; 0; 0; 5].
Proof.
  apply trigg_syntax_ignores_tail.
  - reflexivity.
  - reflexivity.
  - apply bytesb_ok. reflexivity.
  - apply bytesb_ok. reflexivity.
  - reflexivity.
Defined.

(** ** Expansion *)

Lemma plain_text_prefix (T T' : list Z) :
  length T = length T' ->
  take (S (first_zero T)) T = take (S (first_zero T)) T' ->
  plain_text T = plain_text T'.
Proof.
  revert T'. induction T as [|t T IH]; intros T' Hlen Ht.
  - destruct T'; [reflexivity | discriminate].
  - destruct T' as [|t' T']; [discriminate|].
    cbn [first_zero] in Ht. cbn [plain_text].
    destruct (Z.eqb_spec t 0) as [->|Hnz].
    + cbn in Ht. inversion Ht; subst t'. reflexivity.
    + cbn [take] in Ht. inversion Ht as [[Ht1 Ht2]]. subst t'.
      destruct (Z.eqb_spec t 0) as [?|_]; [contradiction|].
      f_equal. apply IH; [cbn in Hlen; lia | exact Ht2].
Qed.

(** X5.  [trigg_expand] writes all 256 bytes of its buffer from the
    tokens before the first zero alone: what the buffer held and what
    follows the first zero token do not show in the result, for any 16
    bytes of tokens, valid or not. *)
Theorem trigg_expand_overwrites (T T' haiku haiku' : list Z) :
  length T = MAXH -> length T' = MAXH -> bytes T -> bytes T' ->
  length haiku = HAIKUSIZE -> length haiku' = HAIKUSIZE ->
  take (S (first_zero T)) T = take (S (first_zero T)) T' ->
  exists out,
    trigg_expand T haiku = Some out /\ trigg_expand T' haiku' = Some out /\
    length out = HAIKUSIZE.
Proof.
  intros Hlen Hlen' Hb Hb' Hh Hh' Ht.
  rewrite (trigg_expand_plain T haiku Hlen Hb Hh).
  rewrite (trigg_expand_plain T' haiku' Hlen' Hb' Hh').
  rewrite <- (plain_text_prefix T T' ltac:(congruence) Ht).
  eexists. split; [reflexivity|]. split; [reflexivity|].
  pose proof (plain_text_length T) as Hp. rewrite Hlen in Hp.
  change MAXH with 16%nat in Hp. change HAIKUSIZE with 256%nat.
  rewrite length_app, repeat_length. lia.
Qed.

Lemma trigg_expand_overwrites_witness :
  trigg_expand [249; 223; 1; 93; 215; 1; 35; 0; 0; 0; 0; 0; 0; 0; 0; 0] (repeat 0 256)
  = trigg_expand [249; 223; 1; 93; 215; 1; 35; 0; 9; 0; 0; 7; 0; 0; 0; 5] (repeat 77 256).
Proof.
  destruct (trigg_expand_overwrites
              [249; 223; 1; 93; 215; 1; 35; 0; 0; 0; 0; 0; 0; 0; 0; 0]
              [249; 223; 1; 93; 215; 1; 35; 0; 9; 0; 0; 7; 0; 0; 0; 5]
              (repeat 0 256) (repeat 77 256))
    as (out & H1 & H2 & _).
  - reflexivity.
  - reflexivity.
  - apply bytesb_ok. reflexivity.
  - apply bytesb_ok. reflexivity.
  - reflexivity.
  - reflexivity.
  - reflexivity.
  - rewrite H1, H2. reflexivity.
Defined.

End TriggMore.

(** * The Trigg proof of work *)

Module TriggWork.
Import Trigg Peach TriggPow TriggRef PeachRef MoreRef.
Import TriggSpec TriggGrammar TriggExpand PeachNighthash PeachWalk.

(** ** Running a computation forwards *)

Lemma bindM_lift_Some {A B : Type} (a : A) (f : A -> M B) :
  bindM (lift (Some a)) f = f a.
Proof. cbn [lift bindM]. destruct (f a) as [[b l]|]; reflexivity. Qed.

Lemma bindM_ret {A B : Type} (a : A) (f : A -> M B) :
  bindM (retM a) f = f a.
Proof. unfold retM, bindM. destruct (f a) as [[b l]|]; reflexivity. Qed.

Lemma bindM_Some_eq {A B : Type} (a : A) (l : list hash_call) (f : A -> M B)
    (b : B) (l2 : list hash_call) :
  f a = Some (b, l2) -> bindM (Some (a, l)) f = Some (b, l ++ l2).
Proof. intros H. cbn [bindM]. rewrite H. reflexivity. Qed.

Lemma bindM_lift_None {A B : Type} (f : A -> M B) : bindM (lift None) f = None.
Proof. reflexivity. Qed.

Lemma load_bytes_prefix (A B : list Z) :
  load_bytes (A ++ B) 0 (length A) = Some A.
Proof.
  rewrite load_bytes_Some by (rewrite length_app; lia).
  rewrite drop_0. apply f_equal, take_app_length.
Qed.

Lemma length_expanded (T : list Z) :
  length T = MAXH -> length (expanded T) = 256%nat.
Proof.
  intros Hlen. unfold expanded. pose proof (plain_text_length T) as Hp.
  rewrite Hlen in Hp. change MAXH with 16%nat in Hp. change HAIKUSIZE with 256%nat.
  rewrite length_app, repeat_length. lia.
Qed.

Lemma trigg_expand_expanded (T haiku : list Z) :
  length T = MAXH -> bytes T -> length haiku = 256%nat ->
  trigg_expand T haiku = Some (expanded T).
Proof. intros. apply trigg_expand_plain; assumption. Qed.

(** ** Fields of a trailer *)

Lemma sub_range (l X : list Z) (k n m : nat) :
  (k + n <= m)%nat -> (m <= length l)%nat ->
  take n (drop k (take m l ++ X)) = take n (drop k l).
Proof.
  intros Hkn Hm.
  rewrite drop_app_le by (rewrite length_take; lia).
  rewrite take_app_le by (rewrite length_drop, length_take; lia).
  rewrite !take_drop_commute, take_take.
  replace ((k + n) `min` m)%nat with (k + n)%nat by lia. reflexivity.
Qed.

Lemma sub_range_take (l : list Z) (k n m : nat) :
  (k + n <= m)%nat -> take n (drop k (take m l)) = take n (drop k l).
Proof.
  intros Hkn. rewrite !take_drop_commute, take_take.
  replace ((k + n) `min` m)%nat with (k + n)%nat by lia. reflexivity.
Qed.

Lemma length_with_nonce (bt nonce : list Z) :
  length bt = 160%nat -> length nonce = 32%nat -> length (with_nonce bt nonce) = 160%nat.
Proof.
  intros Hlen Hn. unfold with_nonce.
  rewrite !length_app, length_take, length_drop. lia.
Qed.

Lemma with_nonce_before (bt nonce : list Z) (k n : nat) :
  length bt = 160%nat -> (k + n <= 92)%nat ->
  take n (drop k (with_nonce bt nonce)) = take n (drop k bt).
Proof. intros Hlen Hk. unfold with_nonce. apply sub_range; lia. Qed.

Lemma with_nonce_lookup (bt nonce : list Z) (i : nat) :
  length bt = 160%nat -> (i < 92)%nat -> (with_nonce bt nonce) !! i = bt !! i.
Proof.
  intros Hlen Hi. unfold with_nonce.
  rewrite lookup_app_l by (rewrite length_take; lia).
  apply lookup_take_lt. exact Hi.
Qed.

Lemma with_nonce_halves (bt A B : list Z) :
  length bt = 160%nat -> length A = 16%nat -> length B = 16%nat ->
  take 16 (drop 92 (with_nonce bt (A ++ B))) = A /\
  take 16 (drop 108 (with_nonce bt (A ++ B))) = B.
Proof.
  intros Hlen HA HB. unfold with_nonce.
  assert (H92 : length (take 92 bt) = 92%nat) by (rewrite length_take; lia).
  split.
  - rewrite drop_app_length' by (symmetry; exact H92).
    rewrite <- app_assoc. apply take_app_length'. symmetry. exact HA.
  - replace 108%nat with (92 + 16)%nat by reflexivity.
    rewrite <- drop_drop, drop_app_length' by (symmetry; exact H92).
    rewrite <- app_assoc, drop_app_length' by (symmetry; exact HA).
    apply take_app_length'. symmetry. exact HB.
Qed.


Section WithHash.

Variable digest : hash_algo -> list Z -> list Z.
Hypothesis digest_len : forall a m, length (digest a m) = digest_size a.

(** The hash of a context whose chain fields have their sizes. *)
Lemma sha256_chain (T : TRIGG_ALGO) :
  length (t_mroot T) = 32%nat -> length (t_haiku T) = 256%nat ->
  length (t_haiku2 T) = 16%nat -> length (t_bnum T) = 8%nat ->
  sha256 digest (chain T) 312
  = Some (digest SHA256 (t_mroot T ++ t_haiku T ++ t_haiku2 T ++ t_bnum T),
          [(SHA256, t_mroot T ++ t_haiku T ++ t_haiku2 T ++ t_bnum T)]).
Proof.
  intros H1 H2 H3 H4. unfold sha256, chain.
  assert (Hl : load_bytes (t_mroot T ++ t_haiku T ++ t_haiku2 T ++ t_bnum T ++ t_haiku1 T)
                          0 312
               = Some (t_mroot T ++ t_haiku T ++ t_haiku2 T ++ t_bnum T)).
  { replace 312%nat with (length (t_mroot T ++ t_haiku T ++ t_haiku2 T ++ t_bnum T))
      by (rewrite !length_app; lia).
    replace (t_mroot T ++ t_haiku T ++ t_haiku2 T ++ t_bnum T ++ t_haiku1 T)
      with ((t_mroot T ++ t_haiku T ++ t_haiku2 T ++ t_bnum T) ++ t_haiku1 T)
      by (rewrite <- !app_assoc; reflexivity).
    apply load_bytes_prefix. }
  rewrite Hl. reflexivity.
Qed.

(** The check of a trailer whose nonce passes both syntax checks. *)
Lemma trigg_checkhash_passed (T : TRIGG_ALGO) (bt : list Z) (out : option (list Z)) :
  length bt = 160%nat -> bytes bt -> trigg_sized T ->
  (forall o, out = Some o -> (32 <= length o)%nat) ->
  trigg_syntax (take 16 (drop 92 bt)) = Some 1 ->
  trigg_syntax (take 16 (drop 108 bt)) = Some 1 ->
  exists d r,
    bt !! 56%nat = Some d /\
    trigg_eval (digest SHA256 (trigg_chain bt)) d = Some r /\ (r = 0 \/ r = 1) /\
    trigg_checkhash digest T bt out
    = Some ((r, match out with
                | Some o => Some (digest SHA256 (trigg_chain bt) ++ drop 32 o)
                | None => None
                end), [(SHA256, trigg_chain bt)]).
Proof.
  intros Hlen Hb (Hs1 & Hs2 & Hs3 & Hs4 & Hs5) Hout H1 H2.
  assert (Hb1 : bytes (take 16 (drop 92 bt))) by (apply Forall_take, Forall_drop; exact Hb).
  assert (Hl1 : length (take 16 (drop 92 bt)) = MAXH)
    by (rewrite length_take, length_drop, Hlen; reflexivity).
  destruct (lookup_lt_is_Some_2 bt 56) as [d Hd]; [lia|].
  pose proof (digest_len SHA256 (trigg_chain bt)) as Hh. cbn [digest_size] in Hh.
  destruct (trigg_eval_Some (digest SHA256 (trigg_chain bt)) d Hh) as (r & Hev & Hr).
  exists d, r. split; [exact Hd|]. split; [exact Hev|]. split; [exact Hr|].
  unfold trigg_checkhash.
  rewrite (load_bytes_Some bt 92 16), bindM_lift_Some by lia.
  rewrite H1, bindM_lift_Some. cbn [Z.eqb].
  rewrite (load_bytes_Some bt 108 16), bindM_lift_Some by lia.
  rewrite H2, bindM_lift_Some. cbn [Z.eqb].
  rewrite (load_bytes_Some bt 60 32), bindM_lift_Some by lia.
  rewrite (store_bytes_whole (t_mroot T)), bindM_lift_Some
    by (rewrite length_take, length_drop, Hlen, Hs1; reflexivity).
  rewrite (store_bytes_whole (t_haiku2 T)), bindM_lift_Some
    by (rewrite length_take, length_drop, Hlen, Hs3; reflexivity).
  rewrite (load_bytes_Some bt 32 8), bindM_lift_Some by lia.
  rewrite (store_bytes_whole (t_bnum T)), bindM_lift_Some
    by (rewrite length_take, length_drop, Hlen, Hs4; reflexivity).
  rewrite (trigg_expand_expanded _ _ Hl1 Hb1 Hs2), bindM_lift_Some.
  rewrite sha256_chain; cbn [t_mroot t_haiku t_haiku2 t_bnum];
    [|rewrite length_take, length_drop, Hlen; reflexivity
     |apply length_expanded; exact Hl1
     |rewrite length_take, length_drop, Hlen; reflexivity
     |rewrite length_take, length_drop, Hlen; reflexivity].
  fold (trigg_chain bt).
  assert (Ho : match out with
               | Some o =>
                   h32 ← load_bytes (digest SHA256 (trigg_chain bt)) 0 HASHLEN;
                   o' ← store_bytes o 0 h32;
                   Some (Some o')
               | None => Some None
               end
               = Some (match out with
                       | Some o => Some (digest SHA256 (trigg_chain bt) ++ drop 32 o)
                       | None => None
                       end)).
  { destruct out as [o|]; [|reflexivity].
    change HASHLEN with 32%nat.
    rewrite <- Hh at 1. rewrite load_bytes_whole. cbn [mbind option_bind].
    specialize (Hout o eq_refl).
    unfold store_bytes. rewrite Hh. cbn [Nat.add].
    destruct (decide (32 <= length o)%nat) as [_|?]; [|lia].
    rewrite take_0. reflexivity. }
  eapply eq_trans.
  { apply bindM_Some_eq. cbv beta. rewrite Ho, bindM_lift_Some.
    unfold load. rewrite Hd, bindM_lift_Some, Hev, bindM_lift_Some. reflexivity. }
  reflexivity.
Qed.

(** A half of the nonce that fails the syntax check ends the check. *)
Lemma trigg_checkhash_rejected (T : TRIGG_ALGO) (bt : list Z) (out : option (list Z)) :
  length bt = 160%nat -> bytes bt ->
  trigg_syntax (take 16 (drop 92 bt)) = Some 0 \/
  trigg_syntax (take 16 (drop 108 bt)) = Some 0 ->
  trigg_checkhash digest T bt out = Some ((0, out), []).
Proof.
  intros Hlen Hb Hfail.
  assert (Hb1 : bytes (take 16 (drop 92 bt))) by (apply Forall_take, Forall_drop; exact Hb).
  assert (Hl1 : length (take 16 (drop 92 bt)) = MAXH)
    by (rewrite length_take, length_drop, Hlen; reflexivity).
  unfold trigg_checkhash.
  rewrite (load_bytes_Some bt 92 16), bindM_lift_Some by lia.
  destruct (trigg_syntax_cases _ Hl1 Hb1) as [[H1 _]|[H1 _]];
    rewrite H1, bindM_lift_Some; cbn [Z.eqb]; [|reflexivity].
  destruct Hfail as [H0|H0]; [congruence|].
  rewrite (load_bytes_Some bt 108 16), bindM_lift_Some by lia.
  rewrite H0, bindM_lift_Some. reflexivity.
Qed.

(** X6.  For a trailer of 160 bytes: when either half of the nonce fails
    [trigg_syntax], [trigg_checkhash] returns 0 having run no hash, with
    [out] as it was.  When both pass, it runs one SHA-256, over the 312
    bytes of the TRIGG chain of the trailer, returns what [trigg_eval]
    gives on that hash at [bt->difficulty[0]], and a non-null [out] holds
    the hash whatever the value.  What the local context held on entry
    does not show in the result. *)
Theorem trigg_checkhash_results (T : TRIGG_ALGO) (bt : list Z) (out : option (list Z)) :
  length bt = 160%nat -> bytes bt -> trigg_sized T ->
  (forall o, out = Some o -> (32 <= length o)%nat) ->
  (trigg_syntax (take 16 (drop 92 bt)) = Some 0 \/
   trigg_syntax (take 16 (drop 108 bt)) = Some 0 ->
   trigg_checkhash digest T bt out = Some ((0, out), [])) /\
  (trigg_syntax (take 16 (drop 92 bt)) = Some 1 ->
   trigg_syntax (take 16 (drop 108 bt)) = Some 1 ->
   length (trigg_chain bt) = 312%nat /\
   exists d r,
     bt !! 56%nat = Some d /\
     trigg_eval (digest SHA256 (trigg_chain bt)) d = Some r /\ (r = 0 \/ r = 1) /\
     trigg_checkhash digest T bt out
     = Some ((r, match out with
                 | Some o => Some (digest SHA256 (trigg_chain bt) ++ drop 32 o)
                 | None => None
                 end), [(SHA256, trigg_chain bt)])).
Proof.
  intros Hlen Hb Hs Hout. split.
  - apply trigg_checkhash_rejected; assumption.
  - intros H1 H2. split.
    + unfold trigg_chain. rewrite !length_app, length_expanded
        by (rewrite length_take, length_drop, Hlen; reflexivity).
      rewrite !length_take, !length_drop, Hlen. reflexivity.
    + apply trigg_checkhash_passed; assumption.
Qed.

(** X7.  [trigg_checkhash] reads the block number, the first byte of the
    difficulty, the merkle root and the nonce of the trailer, and nothing
    else of it: on two trailers that agree on bytes 32 to 39, 56 and 60 to
    123 it returns the same and runs the same hash. *)
Theorem trigg_checkhash_fields (T T' : TRIGG_ALGO) (bt bt' : list Z)
    (out : option (list Z)) :
  length bt = 160%nat -> length bt' = 160%nat -> bytes bt -> bytes bt' ->
  trigg_sized T -> trigg_sized T' ->
  (forall o, out = Some o -> (32 <= length o)%nat) ->
  take 8 (drop 32 bt) = take 8 (drop 32 bt') ->
  (bt !! 56%nat) = (bt' !! 56%nat) ->
  take 64 (drop 60 bt) = take 64 (drop 60 bt') ->
  trigg_checkhash digest T bt out = trigg_checkhash digest T' bt' out.
Proof.
  intros Hlen Hlen' Hb Hb' Hs Hs' Hout Hbnum Hd Hmn.
  assert (Hsub : forall k n, (k + n <= 64)%nat ->
                   take n (drop (60 + k) bt) = take n (drop (60 + k) bt')).
  { intros k n Hk. rewrite <- !drop_drop.
    rewrite <- (sub_range_take (drop 60 bt) k n 64 Hk).
    rewrite <- (sub_range_take (drop 60 bt') k n 64 Hk). rewrite Hmn. reflexivity. }
  pose proof (Hsub 0%nat 32%nat ltac:(lia)) as Hm.
  pose proof (Hsub 32%nat 16%nat ltac:(lia)) as Hn1.
  pose proof (Hsub 48%nat 16%nat ltac:(lia)) as Hn2.
  cbn [Nat.add] in Hm, Hn1, Hn2.
  assert (Hc : trigg_chain bt = trigg_chain bt').
  { unfold trigg_chain. rewrite Hm, Hn1, Hn2, Hbnum. reflexivity. }
  assert (Hb1 : bytes (take 16 (drop 92 bt))) by (apply Forall_take, Forall_drop; exact Hb).
  assert (Hl1 : length (take 16 (drop 92 bt)) = MAXH)
    by (rewrite length_take, length_drop, Hlen; reflexivity).
  assert (Hb2 : bytes (take 16 (drop 108 bt))) by (apply Forall_take, Forall_drop; exact Hb).
  assert (Hl2 : length (take 16 (drop 108 bt)) = MAXH)
    by (rewrite length_take, length_drop, Hlen; reflexivity).
  destruct (trigg_syntax_cases _ Hl1 Hb1) as [[H1 _]|[H1 _]].
  - destruct (trigg_syntax_cases _ Hl2 Hb2) as [[H2 _]|[H2 _]].
    + destruct (trigg_checkhash_passed T bt out Hlen Hb Hs Hout H1 H2)
        as (d & r & Hd1 & Hev & _ & ->).
      rewrite Hn1 in H1. rewrite Hn2 in H2.
      destruct (trigg_checkhash_passed T' bt' out Hlen' Hb' Hs' Hout H1 H2)
        as (d' & r' & Hd1' & Hev' & _ & ->).
      rewrite <- Hc in *. assert (d' = d) by congruence. subst d'.
      assert (r' = r) by congruence. subst r'. reflexivity.
    + rewrite (trigg_checkhash_rejected T bt out Hlen Hb (or_intror H2)).
      rewrite Hn2 in H2.
      rewrite (trigg_checkhash_rejected T' bt' out Hlen' Hb' (or_intror H2)). reflexivity.
  - rewrite (trigg_checkhash_rejected T bt out Hlen Hb (or_introl H1)).
    rewrite Hn1 in H1.
    rewrite (trigg_checkhash_rejected T' bt' out Hlen' Hb' (or_introl H1)). reflexivity.
Qed.

(** ** The search *)




(** A context in use serves any trailer with the same fields before the
    nonce. *)
Lemma trigg_inv_with_nonce (bt nonce : list Z) (T : TRIGG_ALGO) :
  length bt = 160%nat -> trigg_inv bt T -> trigg_inv (with_nonce bt nonce) T.
Proof.
  intros Hlen (Hs & Hm & Hbn & Hdf & Hrest).
  split; [exact Hs|].
  rewrite !(with_nonce_before bt nonce) by (exact Hlen || lia).
  auto.
Qed.


(** X9.  [trigg_solve] puts a context in use on the trailer: with draws
    enough for the generator it returns, the context holds the merkle
    root, block number and difficulty of the trailer and a secondary
    haiku that passes [trigg_syntax]; the expanded haiku and the primary
    haiku are as they were. *)
Theorem trigg_solve_in_use (T : TRIGG_ALGO) (bt : list Z) (fuel : nat) (seed : Z) :
  trigg_sized T -> (92 <= length bt)%nat -> (ENOUGH <= fuel)%nat ->
  exists T' seed',
    trigg_solve T bt fuel seed = Some (T', seed') /\
    trigg_inv bt T' /\
    t_haiku T' = t_haiku T /\ t_haiku1 T' = t_haiku1 T.
Proof.
  intros (Hs1 & Hs2 & Hs3 & Hs4 & Hs5) Hlen Hfuel.
  destruct (TriggRandom.trigg_gen_total fuel seed Hfuel) as (drawn & seed' & Hgen).
  destruct (trigg_gen_generated _ _ _ _ Hgen) as (Hld & Hbd & _).
  change MAXH with 16%nat in Hld.
  pose proof (trigg_gen_accepted _ _ _ _ Hgen) as Hsd.
  unfold trigg_solve.
  rewrite !load_bytes_Some by lia. cbn [mbind option_bind].
  rewrite (store_bytes_whole (t_mroot T))
    by (rewrite length_take, length_drop, Hs1; lia).
  cbn [mbind option_bind].
  rewrite (store_bytes_whole (t_bnum T))
    by (rewrite length_take, length_drop, Hs4; lia).
  cbn [mbind option_bind]. rewrite Hgen. cbn [mbind option_bind].
  rewrite (store_bytes_whole (t_haiku2 T) drawn) by congruence.
  cbn [mbind option_bind].
  eexists. eexists. split; [reflexivity|].
  cbn [t_haiku t_haiku1]. split; [|split; reflexivity].
  split; [|cbn [t_mroot t_bnum t_diff t_haiku2]; auto].
  unfold trigg_sized. cbn [t_mroot t_haiku t_haiku2 t_bnum t_haiku1].
  rewrite !length_take, !length_drop. repeat split; lia.
Qed.

End WithHash.

(** ** The properties at work *)

Lemma junk_context_sized : trigg_sized junk_context.
Proof. repeat split. Qed.

Lemma trigg_checkhash_results_witness :
  trigg_checkhash zero_digest junk_context trailer_example (Some (repeat 9 40))
  = Some ((1, Some (repeat 0 32 ++ repeat 9 8)), [(SHA256, trigg_chain trailer_example)]).
Proof.
  destruct PeachCheck.trailer_example_bytes as [Hlen Hb].
  assert (Hout : forall o, Some (repeat 9 40) = Some o -> (32 <= length o)%nat).
  { intros o Ho. inversion Ho. subst o. vm_compute. lia. }
  destruct (trigg_checkhash_results zero_digest PeachCheck.zero_digest_len junk_context
              trailer_example (Some (repeat 9 40)) Hlen Hb junk_context_sized Hout)
    as [_ H].
  destruct H as (_ & d & r & Hd & Hev & _ & Heq);
    [vm_compute; reflexivity | vm_compute; reflexivity |].
  rewrite Heq. vm_compute in Hd. inversion Hd; subst d.
  change (trigg_eval (zero_digest SHA256 (trigg_chain trailer_example)) 0) with (Some 1)
    in Hev.
  inversion Hev; subst r. reflexivity.
Defined.

Lemma trigg_checkhash_fields_witness :
  trigg_checkhash zero_digest junk_context trailer_example None
  = trigg_checkhash zero_digest junk_context
      (repeat 5 32 ++ drop 32 (take 124 trailer_example) ++ repeat 6 36) None.
Proof.
  destruct PeachCheck.trailer_example_bytes as [Hlen Hb].
  apply (trigg_checkhash_fields zero_digest PeachCheck.zero_digest_len).
  - exact Hlen.
  - reflexivity.
  - exact Hb.
  - apply bytesb_ok. vm_compute. reflexivity.
  - exact junk_context_sized.
  - exact junk_context_sized.
  - discriminate.
  - reflexivity.
  - reflexivity.
  - reflexivity.
Defined.



Lemma trigg_solve_in_use_witness :
  exists T' seed',
    trigg_solve junk_context trailer_example ENOUGH 1 = Some (T', seed') /\
    trigg_inv trailer_example T'.
Proof.
  destruct (trigg_solve_in_use junk_context trailer_example ENOUGH 1)
    as (T' & seed' & Hs & Hinv & _).
  - exact junk_context_sized.
  - vm_compute. lia.
  - apply Nat.le_refl.
  - exists T', seed'. split; assumption.
Defined.

End TriggWork.

(** * Further properties of the Peach core *)

Module PeachMore.
Import Trigg Peach TriggPow TriggRef PeachRef MoreRef.
Import TriggSpec TriggGrammar PeachMario PeachNighthash PeachWalk TriggWork.

(** ** The starting index *)

Lemma product_cons (x : Z) (l : list Z) :
  fold_left Z.mul (x :: l) 1 = x * fold_left Z.mul l 1.
Proof.
  assert (Hmul : forall l a, fold_left Z.mul l a = a * fold_left Z.mul l 1).
  { clear. induction l as [|y l IH]; intros a; cbn [fold_left]; [lia|].
    rewrite (IH (a * y)), (IH (1 * y)). lia. }
  cbn [fold_left]. rewrite (Hmul l (1 * x)). lia.
Qed.

Lemma product_zero (l : list Z) : 0 ∈ l -> fold_left Z.mul l 1 = 0.
Proof.
  induction l as [|x l IH]; intros Hin; [inversion Hin|].
  rewrite product_cons. apply elem_of_cons in Hin as [<-|Hin]; [lia|].
  rewrite (IH Hin). lia.
Qed.

Lemma product_even (l : list Z) :
  (2 ^ Z.of_nat (even_bytes l) | fold_left Z.mul l 1).
Proof.
  induction l as [|x l IH].
  - exists 1. reflexivity.
  - rewrite product_cons. cbn [even_bytes].
    destruct (Z.even x) eqn:Hx.
    + apply Z.even_spec in Hx as [k ->]. destruct IH as [q Hq]. rewrite Hq.
      exists (k * q). rewrite Nat2Z.inj_add, Z.pow_add_r by lia.
      change (2 ^ Z.of_nat 1) with 2. lia.
    + cbn [Nat.add]. apply Z.divide_mul_r. exact IH.
Qed.

(** X10.  The starting index collapses to 0 on every hash with a zero
    byte, and on every hash with 20 even bytes or more, in
    [peach_generate] and in [peach_checkhash] alike: the search then
    starts from tile 0. *)
Theorem mario_collapses (bt_hash : list Z) :
  length bt_hash = 32%nat ->
  0 ∈ bt_hash \/ (20 <= even_bytes bt_hash)%nat ->
  generate_mario bt_hash = Some 0 /\ checkhash_mario bt_hash = Some 0.
Proof.
  intros Hlen Hz. destruct (mario_32 bt_hash Hlen) as [Hg Hc].
  rewrite Hc, Hg. enough (H : fold_left Z.mul bt_hash 1 mod 1048576 = 0).
  { assert (Hm : Z.land (fold_left (fun mario b => (mario * b) mod 2 ^ 32)
                                   (tail bt_hash) (hd 0 bt_hash)) (PEACH_MAP - 1) = 0).
    { change (PEACH_MAP - 1) with (Z.ones 20). rewrite Z.land_ones by lia.
      change (2 ^ 20) with 1048576. rewrite wrapping_product.
      destruct bt_hash as [|b0 l]; [discriminate|]. cbn [hd tail].
      rewrite <- product_cons. exact H. }
    rewrite Hm. split; reflexivity. }
  destruct Hz as [Hz|He].
  - rewrite (product_zero _ Hz). reflexivity.
  - apply Z.mod_divide; [lia|].
    apply Z.divide_trans with (2 ^ Z.of_nat (even_bytes bt_hash)); [|apply product_even].
    exists (2 ^ (Z.of_nat (even_bytes bt_hash) - 20)).
    change 1048576 with (2 ^ 20). rewrite <- Z.pow_add_r by lia. f_equal. lia.
Qed.

Lemma mario_collapses_witness :
  generate_mario (repeat 2 20 ++ repeat 3 12) = Some 0.
Proof.
  apply (mario_collapses (repeat 2 20 ++ repeat 3 12)).
  - reflexivity.
  - right. vm_compute. lia.
Defined.

Section WithHash.

Variable digest : hash_algo -> list Z -> list Z.
Hypothesis digest_len : forall a m, length (digest a m) = digest_size a.

(** ** The jump *)

(** X11.  [peach_next] returns an index inside the map, having run one
    hash, over the 1060 bytes of the nonce, the index as four bytes, least
    significant first, and the tile. *)
Theorem peach_next_seed (index : Z) (tile nonce : list Z) :
  (32 <= length nonce)%nat -> (PEACH_TILE <= length tile)%nat ->
  exists a v,
    peach_next digest index tile nonce
    = Some (v, [(a, take 32 nonce ++ le_bytes 4 index ++ take PEACH_TILE tile)]) /\
    0 <= v < PEACH_MAP /\
    length (take 32 nonce ++ le_bytes 4 index ++ take PEACH_TILE tile) = PEACH_NEXT.
Proof.
  intros Hn Ht. unfold peach_next.
  rewrite (load_bytes_Some nonce 0 32), bindM_lift_Some by lia.
  rewrite (load_bytes_Some tile 0 PEACH_TILE), bindM_lift_Some by lia.
  rewrite !drop_0.
  set (seed := take 32 nonce ++ le_bytes 4 index ++ take PEACH_TILE tile).
  assert (Hs : length seed = PEACH_NEXT).
  { subst seed. rewrite !length_app, length_le_bytes, !length_take.
    unfold PEACH_NEXT, PEACH_TILE in *. lia. }
  destruct (peach_nighthash_ok digest seed PEACH_NEXT index false false)
    as (seed' & a & Hnh & _ & Hk); [rewrite Hs; lia | discriminate |].
  rewrite (Hk eq_refl) in Hnh. clear Hk seed'.
  assert (Hm : hashed seed PEACH_NEXT index false = seed).
  { unfold hashed. rewrite app_nil_r. apply take_ge. rewrite Hs. lia. }
  rewrite Hm in Hnh. rewrite Hnh.
  set (hash := digest a seed ++ repeat 0 (32 - digest_size a)).
  assert (Hh : length hash = 32%nat).
  { subst hash. rewrite length_app, repeat_length, digest_len. destruct a; reflexivity. }
  destruct (sum_words_Some 8 0 hash 0) as [v Hv]; [lia|].
  exists a, (Z.land v (PEACH_MAP - 1)). split; [|split; [apply land_map_range | exact Hs]].
  eapply eq_trans.
  { apply bindM_Some_eq. cbv beta iota. rewrite Hv, bindM_lift_Some. reflexivity. }
  reflexivity.
Qed.

(** ** The check *)

(** X13.  [peach_checkhash] reads the first 124 bytes of the trailer and
    no other: the solve time and the block hash do not show in what it
    returns. *)
Theorem peach_checkhash_reads (bt bt' : list Z) (out : option (list Z)) :
  length bt = 160%nat -> length bt' = 160%nat -> bytes bt -> bytes bt' ->
  (forall o, out = Some o -> (32 <= length o)%nat) ->
  take 124 bt = take 124 bt' ->
  value (peach_checkhash digest bt out) = value (peach_checkhash digest bt' out).
Proof.
  intros Hlen Hlen' Hb Hb' Hout Ht.
  assert (Hsub : forall k n, (k + n <= 124)%nat ->
                   take n (drop k bt) = take n (drop k bt')).
  { intros k n Hk. rewrite <- (sub_range_take bt k n 124 Hk).
    rewrite <- (sub_range_take bt' k n 124 Hk). rewrite Ht. reflexivity. }
  pose proof (Hsub 92%nat 16%nat ltac:(lia)) as Hn1.
  pose proof (Hsub 108%nat 16%nat ltac:(lia)) as Hn2.
  pose proof (Hsub 92%nat 32%nat ltac:(lia)) as Hn.
  pose proof (Hsub 0%nat 32%nat ltac:(lia)) as Hp. rewrite !drop_0 in Hp.
  assert (Hd : bt !! 56%nat = bt' !! 56%nat).
  { rewrite <- (lookup_take_lt bt 124 56) by lia.
    rewrite <- (lookup_take_lt bt' 124 56) by lia. rewrite Ht. reflexivity. }
  assert (Hb1 : bytes (take 16 (drop 92 bt))) by (apply Forall_take, Forall_drop; exact Hb).
  assert (Hl1 : length (take 16 (drop 92 bt)) = MAXH)
    by (rewrite length_take, length_drop, Hlen; reflexivity).
  assert (Hb2 : bytes (take 16 (drop 108 bt))) by (apply Forall_take, Forall_drop; exact Hb).
  assert (Hl2 : length (take 16 (drop 108 bt)) = MAXH)
    by (rewrite length_take, length_drop, Hlen; reflexivity).
  destruct (trigg_syntax_cases _ Hl1 Hb1) as [[H1 _]|[H1 _]].
  - destruct (trigg_syntax_cases _ Hl2 Hb2) as [[H2 _]|[H2 _]].
    + destruct (peach_checkhash_returns digest digest_len bt out Hlen H1 H2 Hout)
        as ([r o] & calls & -> & hash & d & Hf & _ & Hd1 & Hev & _ & Ho & _).
      rewrite Hn1 in H1. rewrite Hn2 in H2.
      destruct (peach_checkhash_returns digest digest_len bt' out Hlen' H1 H2 Hout)
        as ([r' o'] & calls' & -> & hash' & d' & Hf' & _ & Hd1' & Hev' & _ & Ho' & _).
      cbn [fst snd] in *.
      rewrite <- Hp, <- Hn, <- Ht, Hf in Hf'. inversion Hf'; subst hash'.
      rewrite <- Hd, Hd1 in Hd1'. inversion Hd1'; subst d'.
      rewrite Hev in Hev'. inversion Hev'; subst r' o o'. reflexivity.
    + rewrite (PeachCheck.peach_checkhash_rejects digest bt out Hlen Hb (or_intror H2)).
      rewrite Hn2 in H2.
      rewrite (PeachCheck.peach_checkhash_rejects digest bt' out Hlen' Hb' (or_intror H2)).
      reflexivity.
  - rewrite (PeachCheck.peach_checkhash_rejects digest bt out Hlen Hb (or_introl H1)).
    rewrite Hn1 in H1.
    rewrite (PeachCheck.peach_checkhash_rejects digest bt' out Hlen' Hb' (or_introl H1)).
    reflexivity.
Qed.

End WithHash.

(** ** The properties at work *)

Lemma peach_next_seed_witness :
  exists a v,
    peach_next zero_digest 5 (repeat 1 1024) (repeat 2 32)
    = Some (v, [(a, repeat 2 32 ++ le_bytes 4 5 ++ repeat 1 1024)]).
Proof.
  destruct (peach_next_seed zero_digest PeachCheck.zero_digest_len 5
              (repeat 1 1024) (repeat 2 32)) as (a & v & H & _).
  - vm_compute. lia.
  - vm_compute. lia.
  - exists a, v. exact H.
Defined.

Lemma peach_checkhash_reads_witness :
  value (peach_checkhash zero_digest trailer_example None)
  = value (peach_checkhash zero_digest (take 124 trailer_example ++ repeat 9 36) None).
Proof.
  destruct PeachCheck.trailer_example_bytes as [Hlen Hb].
  apply (peach_checkhash_reads zero_digest PeachCheck.zero_digest_len).
  - exact Hlen.
  - reflexivity.
  - exact Hb.
  - apply bytesb_ok. vm_compute. reflexivity.
  - discriminate.
  - reflexivity.
Defined.

End PeachMore.

(** * The Peach search *)

Module PeachMining.
Import Trigg Peach TriggPow TriggRef PeachRef MoreRef.
Import TriggSpec TriggGrammar PeachMario PeachNighthash PeachWalk TriggWork.

Lemma returns_both {A : Type} (m : M A) (Q1 Q2 : A -> list hash_call -> Prop) :
  returns m Q1 -> returns m Q2 -> returns m (fun a l => Q1 a l /\ Q2 a l).
Proof.
  intros (a & l & Hm & H1) (a' & l' & Hm' & H2).
  rewrite Hm in Hm'. inversion Hm'; subst a' l'.
  exists a, l. auto.
Qed.

Lemma take_with_nonce (bt nonce : list Z) :
  length bt = 160%nat -> length nonce = 32%nat ->
  take 124 (with_nonce bt nonce) = take 92 bt ++ nonce /\
  take 32 (drop 92 (with_nonce bt nonce)) = nonce.
Proof.
  intros Hlen Hn. unfold with_nonce.
  assert (H92 : length (take 92 bt) = 92%nat) by (rewrite length_take; lia).
  split.
  - rewrite app_assoc. apply take_app_length'. rewrite length_app. lia.
  - rewrite drop_app_length' by (symmetry; exact H92).
    apply take_app_length'. symmetry. exact Hn.
Qed.

Section WithHash.

Variable digest : hash_algo -> list Z -> list Z.
Hypothesis digest_len : forall a m, length (digest a m) = digest_size a.

(** The attempt leaves the trailer pointer, the nonce and the difficulty
    of the context as they are. *)
Lemma generate_attempt_frame (phash bt : list Z) (P : PEACH_ALGO) (out : list Z) :
  peach_inv digest phash P -> p_bt P = Some bt -> (92 <= length bt)%nat ->
  length (p_nonce P) = 32%nat -> (32 <= length out)%nat ->
  returns (generate_attempt digest P out)
          (fun res _ => p_bt (snd res) = p_bt P /\ p_nonce (snd res) = p_nonce P /\
                        p_diff (snd res) = p_diff P).
Proof.
  intros Hinv Hbt Hlen Hn Hout. unfold generate_attempt.
  eapply returns_bind_lift; [exact Hbt|].
  eapply returns_bind_lift; [apply load_bytes_Some; lia|].
  eapply returns_bind_lift; [rewrite <- Hn; apply load_bytes_whole|].
  rewrite drop_0.
  apply returns_bind_hash. cbn [hash_init hash_update ctx_algo ctx_msg app].
  set (bt_hash := digest SHA256 (take 92 bt ++ p_nonce P)).
  assert (Hbh : length bt_hash = 32%nat) by (subst bt_hash; rewrite digest_len; reflexivity).
  destruct (mario_range bt_hash Hbh) as (mario & Hmario & Hrange).
  eapply returns_weaken with
    (P := fun res _ => p_bt (snd res) = p_bt P /\ p_nonce (snd res) = p_nonce P /\
                       p_diff (snd res) = p_diff P).
  2:{ intros res l H. exact H. }
  eapply returns_bind_lift; [exact Hmario|].
  eapply returns_bind; [apply (peach_gen_returns _ digest_len _ _ mario Hinv Hrange)|].
  intros [r1 P1] l1 (Hinv1 & (t1 & Ht1 & Hv1 & Hl1) & Hbt1 & Hn1 & Hd1).
  cbn [fst snd] in *. cbn beta.
  eapply returns_bind.
  { apply (peach_jump_returns _ digest_len phash (p_nonce P1) PEACH_JUMP P1 mario r1 t1);
      [assumption | assumption | assumption | rewrite Hn1, Hn; lia]. }
  intros [r2 P2] l2 (Hinv2 & (t2 & Ht2 & Hv2 & Hl2) & Hbt2 & Hn2 & Hd2).
  cbn [fst snd] in *. cbn beta.
  eapply returns_bind_lift;
    [change HASHLEN with 32%nat; rewrite <- Hbh; apply load_bytes_whole|].
  eapply returns_bind_lift; [exact Ht2|].
  apply returns_bind_hash. cbn [hash_init hash_update ctx_algo ctx_msg app].
  set (hash := digest SHA256 (bt_hash ++ t2)).
  assert (Hh : length hash = 32%nat) by (subst hash; rewrite digest_len; reflexivity).
  destruct (trigg_eval_Some hash (uint8 (p_diff P)) Hh) as (ev & Hev & Hev01).
  rewrite Hd2, Hd1.
  eapply returns_bind_lift; [exact Hev|].
  assert (Hall : p_bt P2 = p_bt P /\ p_nonce P2 = p_nonce P /\ p_diff P2 = p_diff P)
    by (repeat split; congruence).
  destruct Hev01 as [-> | ->]; cbn [Z.eqb negb].
  - apply returns_ret. exact Hall.
  - assert (Hst : store_bytes out 0 (p_nonce P) = Some (p_nonce P ++ drop 32 out)).
    { unfold store_bytes. case_decide; [|lia]. rewrite take_0, Hn. reflexivity. }
    eapply returns_bind_lift; [exact Hst|].
    apply returns_ret. exact Hall.
Qed.

(** [peach_generate] is the advance of the nonce, then the attempt. *)
Lemma peach_generate_advance (P : PEACH_ALGO) (out : list Z) (fuel : nat) (seed : Z) :
  length (p_nonce P) = 32%nat ->
  peach_generate digest P out fuel seed
  = match trigg_gen fuel seed with
    | Some (haiku, seed') =>
        bindM (generate_attempt digest
                 {| p_bt := p_bt P; p_map := p_map P; p_cache := p_cache P;
                    p_tile := p_tile P; p_nonce := drop 16 (p_nonce P) ++ haiku;
                    p_diff := p_diff P |} out)
              (fun res => retM (res, seed'))
    | None => None
    end.
Proof.
  intros Hn. unfold peach_generate.
  rewrite (load_bytes_Some (p_nonce P) 16 16), bindM_lift_Some by lia.
  assert (Hd : take 16 (drop 16 (p_nonce P)) = drop 16 (p_nonce P))
    by (apply take_ge; rewrite length_drop; lia).
  rewrite Hd.
  assert (Hl : length (drop 16 (p_nonce P)) = 16%nat) by (rewrite length_drop; lia).
  assert (Hs1 : store_bytes (p_nonce P) 0 (drop 16 (p_nonce P))
                = Some (drop 16 (p_nonce P) ++ drop 16 (p_nonce P))).
  { unfold store_bytes. rewrite Hl. cbn [Nat.add].
    destruct (decide (16 <= length (p_nonce P))%nat) as [_|?]; [|lia].
    rewrite take_0. reflexivity. }
  rewrite Hs1, bindM_lift_Some.
  destruct (trigg_gen fuel seed) as [[haiku seed']|] eqn:Hgen; [|reflexivity].
  rewrite bindM_lift_Some.
  destruct (trigg_gen_generated _ _ _ _ Hgen) as (Hlh & _ & _).
  change MAXH with 16%nat in Hlh.
  assert (Hs2 : store_bytes (drop 16 (p_nonce P) ++ drop 16 (p_nonce P)) 16 haiku
                = Some (drop 16 (p_nonce P) ++ haiku)).
  { unfold store_bytes. rewrite Hlh.
    case_decide as Hr; [|rewrite length_app in Hr; lia].
    rewrite take_app_length' by (symmetry; exact Hl).
    rewrite (drop_ge (drop 16 (p_nonce P) ++ drop 16 (p_nonce P)))
      by (rewrite length_app; lia).
    rewrite app_nil_r. reflexivity. }
  rewrite Hs2, bindM_lift_Some.
  destruct (generate_attempt digest _ out) as [[[[r o] P'] l]|]; reflexivity.
Qed.

(** X14.  One attempt of the search on a context in use on the trailer
    [bt].  The context stays in use on [bt], and the first half of its
    nonce is the former second half.  A failed attempt leaves [out] as it
    was.  A successful one writes the nonce of the context to [out], and
    the trailer [bt] with this nonce passes [peach_check]. *)
Theorem peach_generate_checked (bt : list Z) (P : PEACH_ALGO) (out : list Z)
    (fuel : nat) (seed : Z) (r : Z) (out' : list Z) (P' : PEACH_ALGO) (seed' : Z)
    (calls : list hash_call) :
  length bt = 160%nat -> bytes bt -> peach_in_use digest bt P ->
  (32 <= length out)%nat ->
  peach_generate digest P out fuel seed = Some ((r, out', P', seed'), calls) ->
  peach_in_use digest bt P' /\
  take 16 (p_nonce P') = drop 16 (p_nonce P) /\
  (r = 0 -> out' = out) /\
  (r <> 0 ->
   r = 1 /\ take 32 out' = p_nonce P' /\ drop 32 out' = drop 32 out /\
   value (peach_checkhash digest (with_nonce bt (take 32 out')) None) = Some (1, None)).
Proof.
  intros Hlen Hb (Hinv & Hbt & Hdf & Hn & Hsyn) Hout Hrun.
  rewrite (peach_generate_advance P out fuel seed Hn) in Hrun.
  destruct (trigg_gen fuel seed) as [[haiku s1]|] eqn:Hgen; [|discriminate].
  destruct (trigg_gen_generated _ _ _ _ Hgen) as (Hlh & Hbh & _).
  change MAXH with 16%nat in Hlh.
  pose proof (trigg_gen_accepted _ _ _ _ Hgen) as Hsh.
  set (N := drop 16 (p_nonce P) ++ haiku) in *.
  set (P1 := {| p_bt := p_bt P; p_map := p_map P; p_cache := p_cache P;
                p_tile := p_tile P; p_nonce := N; p_diff := p_diff P |}) in *.
  assert (Hl16 : length (drop 16 (p_nonce P)) = 16%nat) by (rewrite length_drop; lia).
  assert (HN : length N = 32%nat) by (subst N; rewrite length_app; lia).
  assert (Hinv1 : peach_inv digest (take 32 bt) P1) by exact Hinv.
  destruct (returns_both _ _ _
              (generate_attempt_returns digest digest_len (take 32 bt) bt P1 out
                 Hinv1 Hbt ltac:(lia) HN Hout)
              (generate_attempt_frame (take 32 bt) bt P1 out Hinv1 Hbt ltac:(lia) HN Hout))
    as ([[rg og] Pg] & lg & Hg & (hash & ev & Hfin & Hev & Hev01 & Hr & Ho & Hinvg & _)
        & Hbtg & Hng & Hdg).
  cbn [fst snd p_bt p_nonce p_diff P1] in *.
  rewrite Hg in Hrun. cbn [bindM retM] in Hrun.
  injection Hrun as <- <- <- <- <-.
  assert (Hhalf : take 16 N = drop 16 (p_nonce P) /\ drop 16 N = haiku).
  { subst N. split; [apply take_app_length' | apply drop_app_length']; symmetry; exact Hl16. }
  destruct Hhalf as [Hh1 Hh2].
  split; [|split; [|split]].
  - split; [exact Hinvg|]. split; [congruence|]. split; [congruence|].
    rewrite Hng. split; [exact HN|]. rewrite Hh2. exact Hsh.
  - rewrite Hng. exact Hh1.
  - intros E. rewrite Ho, <- Hr, E. reflexivity.
  - intros Hnz. rewrite Hr in *. destruct Hev01 as [-> | ->]; [congruence|].
    cbn [Z.eqb] in Ho. rewrite Ho, Hng.
    assert (Ht : take 32 (N ++ drop 32 out) = N)
      by (apply take_app_length'; symmetry; exact HN).
    split; [reflexivity|]. split; [exact Ht|].
    split; [apply drop_app_length'; symmetry; exact HN|].
    rewrite Ht.
    assert (Hlen' : length (with_nonce bt N) = 160%nat)
      by (apply length_with_nonce; assumption).
    destruct (with_nonce_halves bt (drop 16 (p_nonce P)) haiku Hlen Hl16 Hlh) as [Hw1 Hw2].
    fold N in Hw1, Hw2.
    destruct (take_with_nonce bt N Hlen HN) as [Hw3 Hw4].
    destruct (peach_checkhash_returns digest digest_len (with_nonce bt N) None Hlen')
      as ([rc oc] & lc & Hc & hash' & d & Hfin' & _ & Hd & Hev' & _ & Hoc & _);
      [rewrite Hw1; exact Hsyn | rewrite Hw2; exact Hsh | discriminate |].
    cbn [fst snd] in *. subst oc.
    rewrite Hw3, Hw4 in Hfin'.
    assert (Hp : take 32 (with_nonce bt N) = take 32 bt).
    { rewrite <- (drop_0 (with_nonce bt N)), <- (drop_0 bt) at 1.
      apply with_nonce_before; [exact Hlen | lia]. }
    rewrite Hp, Hfin in Hfin'. inversion Hfin'; subst hash'.
    rewrite with_nonce_lookup in Hd by (exact Hlen || lia).
    assert (Hd8 : uint8 (p_diff P) = d).
    { rewrite Hdf. apply PeachCheck.uint8_le_value; [exact (bytes_lookup _ _ _ Hb Hd)|].
      rewrite (drop_S _ _ _ Hd). reflexivity. }
    rewrite Hd8 in Hev. assert (rc = 1) by congruence. subst rc.
    rewrite Hc. reflexivity.
Qed.

(** On a context in use the attempt runs to its end. *)
Lemma peach_generate_runs (bt : list Z) (P : PEACH_ALGO) (out : list Z)
    (fuel : nat) (seed : Z) (haiku : list Z) (seed' : Z) :
  length bt = 160%nat -> peach_in_use digest bt P -> (32 <= length out)%nat ->
  trigg_gen fuel seed = Some (haiku, seed') ->
  exists r out' P' calls,
    peach_generate digest P out fuel seed = Some ((r, out', P', seed'), calls).
Proof.
  intros Hlen (Hinv & Hbt & Hdf & Hn & Hsyn) Hout Hgen.
  rewrite (peach_generate_advance P out fuel seed Hn), Hgen.
  destruct (trigg_gen_generated _ _ _ _ Hgen) as (Hlh & _ & _).
  change MAXH with 16%nat in Hlh.
  set (P1 := {| p_bt := p_bt P; p_map := p_map P; p_cache := p_cache P;
                p_tile := p_tile P; p_nonce := drop 16 (p_nonce P) ++ haiku;
                p_diff := p_diff P |}).
  assert (HN : length (p_nonce P1) = 32%nat)
    by (cbn [p_nonce P1]; rewrite length_app, length_drop; lia).
  assert (Hinv1 : peach_inv digest (take 32 bt) P1) by exact Hinv.
  destruct (generate_attempt_returns digest digest_len (take 32 bt) bt P1 out
              Hinv1 Hbt ltac:(lia) HN Hout) as ([[rg og] Pg] & lg & Hg & _).
  rewrite Hg. cbn [bindM retM]. eauto.
Qed.

End WithHash.

(** ** Setting up and tearing down *)

Lemma release_both (h : heap) (p q : positive) :
  p ∉ h -> q ∉ h -> p <> q ->
  p ∈ ({[ q ]} ∪ ({[ p ]} ∪ h) : heap) /\
  q ∈ (({[ q ]} ∪ ({[ p ]} ∪ h)) ∖ {[ p ]} : heap) /\
  (({[ q ]} ∪ ({[ p ]} ∪ h)) ∖ {[ p ]}) ∖ {[ q ]} = h.
Proof. intros Hp Hq Hpq. repeat split; set_solver. Qed.

(** What [peach_solve] returns when both buffers are granted. *)
Lemma peach_solve_granted (bt : list Z) (h : heap) (jm jc : Z -> Z)
    (fuel : nat) (seed : Z) :
  (60 <= length bt)%nat -> (ENOUGH <= fuel)%nat ->
  exists bm bc haiku seed',
    peach_solve bt h (Some jm) (Some jc) fuel seed
    = Some (0, {| p_bt := Some bt; p_map := Some bm; p_cache := Some bc;
                  p_tile := repeat 0 PEACH_TILE; p_nonce := repeat 0 16 ++ haiku;
                  p_diff := le_value (take 4 (drop 56 bt)) |},
            {[ blk bc ]} ∪ ({[ blk bm ]} ∪ h), seed') /\
    blk bm <> blk bc /\ (blk bm ∉ h) /\ (blk bc ∉ h) /\
    size bm = PEACH_SIZE /\ size bc = PEACH_MAP /\
    (forall a, 0 <= a < PEACH_MAP -> mem bc a = 0) /\
    length haiku = 16%nat /\ trigg_syntax haiku = Some 1.
Proof.
  intros Hbt Hfuel. unfold peach_solve, malloc.
  set (idm := fresh h). set (h1 := {[ idm ]} ∪ h). set (idc := fresh h1).
  destruct (PeachSolve.buf_zero_spec {| blk := idm; size := PEACH_SIZE; mem := jm |}
              (Z.shiftr PEACH_SIZE 3)) as (bm & Hbm & Hkm & Hsm & Hzm);
    [vm_compute; discriminate | vm_compute; discriminate |].
  destruct (PeachSolve.buf_zero_spec {| blk := idc; size := PEACH_MAP; mem := jc |}
              (Z.shiftr PEACH_MAP 3)) as (bc & Hbc & Hkc & Hsc & Hzc);
    [vm_compute; discriminate | vm_compute; discriminate |].
  rewrite Hbm. cbn [mbind option_bind]. rewrite Hbc. cbn [mbind option_bind].
  rewrite load_bytes_Some by lia. cbn [mbind option_bind].
  destruct (TriggRandom.trigg_gen_total fuel seed Hfuel) as (haiku & seed' & Hgen).
  rewrite Hgen. cbn [mbind option_bind].
  destruct (trigg_gen_generated _ _ _ _ Hgen) as (Hlh & _ & _).
  change MAXH with 16%nat in Hlh.
  assert (Hst : store_bytes (repeat 0 32) 16 haiku = Some (repeat 0 16 ++ haiku)).
  { unfold store_bytes. rewrite Hlh. case_decide as Hr;
      [|rewrite repeat_length in Hr; lia].
    f_equal. rewrite drop_ge by (rewrite repeat_length; lia). rewrite app_nil_r.
    reflexivity. }
  cbn [p_nonce p_tile p_bt p_diff peach_zero]. rewrite Hst. cbn [mbind option_bind].
  pose proof (is_fresh h) as Hf1. pose proof (is_fresh h1) as Hf2.
  fold idm in Hf1. fold idc in Hf2.
  destruct (PeachSolve.fresh_distinct h idm idc Hf2) as [Hne Hnc].
  exists bm, bc, haiku, seed'. rewrite Hkm, Hkc.
  split; [reflexivity|].
  split; [exact Hne|]. split; [exact Hf1|]. split; [exact Hnc|].
  split; [exact Hsm|]. split; [exact Hsc|]. split; [exact Hzc|].
  split; [exact Hlh | exact (trigg_gen_accepted _ _ _ _ Hgen)].
Qed.

(** X15.  When both buffers are granted, [peach_solve] puts the context
    in use on the trailer: the search can start on it.  Nothing is cached
    yet. *)
Theorem peach_solve_in_use (digest : hash_algo -> list Z -> list Z)
    (bt : list Z) (h : heap) (rmap rcache : option (Z -> Z)) (fuel : nat) (seed : Z) :
  is_Some rmap -> is_Some rcache -> (60 <= length bt)%nat -> (ENOUGH <= fuel)%nat ->
  exists P h' seed',
    peach_solve bt h rmap rcache fuel seed = Some (0, P, h', seed') /\
    peach_in_use digest bt P /\
    exists c, p_cache P = Some c /\ forall i, 0 <= i < PEACH_MAP -> mem c i = 0.
Proof.
  intros [jm ->] [jc ->] Hbt Hfuel.
  destruct (peach_solve_granted bt h jm jc fuel seed Hbt Hfuel)
    as (bm & bc & haiku & seed' & Hs & _ & _ & _ & Hsm & Hsc & Hzc & Hlh & Hsyn).
  eexists _, _, _. split; [exact Hs|]. split.
  - split; [|split; [reflexivity|split; [reflexivity|split]]].
    + split; [|split].
      * exists bt. split; [reflexivity|]. apply load_bytes_Some. unfold HASHLEN. lia.
      * cbn [p_tile]. apply repeat_length.
      * right. exists bm, bc. cbn [p_map p_cache].
        split; [reflexivity|]. split; [reflexivity|]. split; [exact Hsm|].
        split; [exact Hsc|]. intros i Hi Hnz. exfalso. apply Hnz, Hzc, Hi.
    + cbn [p_nonce]. rewrite length_app, repeat_length. lia.
    + cbn [p_nonce]. rewrite drop_app_length' by (rewrite repeat_length; reflexivity).
      exact Hsyn.
  - exists bc. split; [reflexivity | exact Hzc].
Qed.

(** X16.  [peach_free] after a successful [peach_solve] gives both
    buffers back: the heap is as before [peach_solve], the context has
    neither map nor cache, and a second [peach_free] frees nothing. *)
Theorem peach_solve_free (bt : list Z) (h : heap) (rmap rcache : option (Z -> Z))
    (fuel : nat) (seed : Z) :
  is_Some rmap -> is_Some rcache -> (60 <= length bt)%nat -> (ENOUGH <= fuel)%nat ->
  exists P h' seed' P0,
    peach_solve bt h rmap rcache fuel seed = Some (0, P, h', seed') /\
    peach_free P h' = Some (P0, h) /\
    p_map P0 = None /\ p_cache P0 = None /\
    p_bt P0 = p_bt P /\ p_nonce P0 = p_nonce P /\ p_diff P0 = p_diff P /\
    peach_free P0 h = Some (P0, h).
Proof.
  intros [jm ->] [jc ->] Hbt Hfuel.
  destruct (peach_solve_granted bt h jm jc fuel seed Hbt Hfuel)
    as (bm & bc & haiku & seed' & Hs & Hne & Hm & Hc & _).
  destruct (release_both h (blk bm) (blk bc) Hm Hc Hne) as (Hin1 & Hin2 & Hh).
  eexists _, _, _, _. split; [exact Hs|].
  split; [|split; [|split; [|split; [|split; [|split]]]]].
  - unfold peach_free, free. cbn [p_map p_cache mbind option_bind].
    case_decide; [|contradiction]. cbn [mbind option_bind].
    case_decide; [|contradiction]. cbn [mbind option_bind].
    rewrite Hh. reflexivity.
  - reflexivity.
  - reflexivity.
  - reflexivity.
  - reflexivity.
  - reflexivity.
  - reflexivity.
Qed.

(** ** The properties at work *)

Lemma miner_example_in_use : peach_in_use zero_digest trailer_example miner_example.
Proof.
  split; [|split; [reflexivity|split; [reflexivity|split; [reflexivity|]]]].
  - split; [|split].
    + exists trailer_example. split; reflexivity.
    + reflexivity.
    + right. eexists _, _. split; [reflexivity|]. split; [reflexivity|].
      split; [reflexivity|]. split; [reflexivity|].
      intros i _ Hnz. contradiction Hnz. reflexivity.
  - vm_compute. reflexivity.
Qed.

(** An attempt of a miner on [trailer_example], from seed 1. *)
Lemma peach_generate_checked_witness :
  exists r out' P' seed' calls,
    peach_generate zero_digest miner_example (repeat 0 32) 64 1
    = Some ((r, out', P', seed'), calls) /\
    peach_in_use zero_digest trailer_example P' /\
    (r <> 0 ->
     value (peach_checkhash zero_digest (with_nonce trailer_example (take 32 out')) None)
     = Some (1, None)).
Proof.
  destruct PeachCheck.trailer_example_bytes as [Hlen Hb].
  assert (Hout : (32 <= length (repeat 0 32))%nat) by (vm_compute; lia).
  assert (Hgen : trigg_gen 64 1 = Some (haiku_example, 1529073447))
    by (vm_compute; reflexivity).
  destruct (peach_generate_runs zero_digest PeachCheck.zero_digest_len trailer_example
              miner_example (repeat 0 32) 64 1 _ _ Hlen miner_example_in_use Hout Hgen)
    as (r & out' & P' & calls & Hrun).
  destruct (peach_generate_checked zero_digest PeachCheck.zero_digest_len trailer_example
              miner_example (repeat 0 32) 64 1 r out' P' _ calls
              Hlen Hb miner_example_in_use Hout Hrun) as (Hin & _ & _ & Hok).
  exists r, out', P', 1529073447, calls.
  split; [exact Hrun|]. split; [exact Hin|].
  intros Hnz. destruct (Hok Hnz) as (_ & _ & _ & Hc). exact Hc.
Defined.

Lemma peach_solve_in_use_witness :
  exists P h' seed',
    peach_solve trailer_example ∅ (Some (fun _ => 7)) (Some (fun _ => 7)) ENOUGH 1
    = Some (0, P, h', seed') /\
    peach_in_use zero_digest trailer_example P.
Proof.
  destruct (peach_solve_in_use zero_digest trailer_example ∅
              (Some (fun _ => 7)) (Some (fun _ => 7)) ENOUGH 1)
    as (P & h' & seed' & Hs & Hin & _).
  - eexists. reflexivity.
  - eexists. reflexivity.
  - vm_compute. lia.
  - apply Nat.le_refl.
  - exists P, h', seed'. split; assumption.
Defined.

Lemma peach_solve_free_witness :
  exists P h' seed' P0,
    peach_solve trailer_example ∅ (Some (fun _ => 7)) (Some (fun _ => 7)) ENOUGH 1
    = Some (0, P, h', seed') /\
    peach_free P h' = Some (P0, ∅).
Proof.
  destruct (peach_solve_free trailer_example ∅
              (Some (fun _ => 7)) (Some (fun _ => 7)) ENOUGH 1)
    as (P & h' & seed' & P0 & Hs & Hf & _).
  - eexists. reflexivity.
  - eexists. reflexivity.
  - vm_compute. lia.
  - apply Nat.le_refl.
  - exists P, h', seed', P0. split; assumption.
Defined.

End PeachMining.

(** * The tile cache *)

Module PeachCache.
Import Trigg Peach TriggPow TriggRef PeachRef MoreRef.
Import TriggSpec PeachNighthash PeachWalk TriggWork.

Lemma cache_read (c : buffer) (index : Z) :
  size c = PEACH_MAP -> 0 <= index < PEACH_MAP ->
  buf_read c index 1 = Some [mem c index].
Proof.
  intros Hs Hi. unfold buf_read. case_decide as Hr; [|unfold PEACH_MAP in *; lia].
  unfold mem_read. cbn [seq List.map]. rewrite Z.add_0_r. reflexivity.
Qed.

Lemma mem_write_one (m : Z -> Z) (i j : Z) :
  mem_write m i [1] j = if decide (j = i) then 1 else m j.
Proof.
  unfold mem_write. cbn [length]. destruct (decide (j = i)) as [->|Hne].
  - case_decide as H1; [|lia]. replace (i - i) with 0 by lia. reflexivity.
  - case_decide as H1; [lia | reflexivity].
Qed.

Section WithHash.

Variable digest : hash_algo -> list Z -> list Z.
Hypothesis digest_len : forall a m, length (digest a m) = digest_size a.

(** A tile that is marked in the cache is returned from the map. *)
Lemma peach_gen_hit (P : PEACH_ALGO) (c : buffer) (index : Z) :
  p_cache P = Some c -> size c = PEACH_MAP -> 0 <= index < PEACH_MAP ->
  mem c index <> 0 ->
  peach_gen digest P index = Some ((InMap index, P), []).
Proof.
  intros Hc Hs Hi Hnz. unfold peach_gen. rewrite Hc, (cache_read c index Hs Hi).
  cbn [mbind option_bind hd]. rewrite bindM_lift_Some.
  destruct (Z.eqb_spec (mem c index) 0) as [?|_]; [contradiction|]. reflexivity.
Qed.

(** A tile that is not marked is generated into the map and marked. *)
Lemma peach_gen_miss (phash : list Z) (P : PEACH_ALGO) (m c : buffer) (index : Z) :
  peach_inv digest phash P -> p_map P = Some m -> p_cache P = Some c ->
  0 <= index < PEACH_MAP -> mem c index = 0 ->
  exists tile calls,
    gen_tile digest phash index = Some (tile, calls) /\ length tile = PEACH_TILE /\
    peach_gen digest P index
    = Some ((InMap index,
             {| p_bt := p_bt P;
                p_map := Some {| blk := blk m; size := size m;
                                 mem := mem_write (mem m) (index * Z.of_nat PEACH_TILE)
                                                  tile |};
                p_cache := Some {| blk := blk c; size := size c;
                                   mem := mem_write (mem c) index [1] |};
                p_tile := p_tile P; p_nonce := p_nonce P; p_diff := p_diff P |}),
            calls).
Proof.
  intros Hinv Hm Hc Hi Hz. pose proof (peach_inv_phash digest phash P Hinv) as Hp.
  destruct Hinv as ((bt & Hbt & Hph) & Htile & Hmc).
  destruct Hmc as [[Hm0 _] | (m0 & c0 & Hm0 & Hc0 & Hsm & Hsc & _)]; [congruence|].
  assert (m0 = m) by congruence. assert (c0 = c) by congruence. subst m0 c0.
  assert (Hoff : uint32 (index * Z.of_nat PEACH_TILE) = index * Z.of_nat PEACH_TILE).
  { unfold uint32, PEACH_TILE, PEACH_MAP in *. apply Z.mod_small. lia. }
  destruct (gen_tile_returns digest digest_len phash index Hp) as (tile & calls & Hgt & Hl).
  exists tile, calls. split; [exact Hgt|]. split; [exact Hl|].
  unfold peach_gen. rewrite Hc, Hm, Hbt, (cache_read c index Hsc Hi).
  cbn [mbind option_bind hd]. rewrite bindM_lift_Some, Hz. cbn [Z.eqb negb].
  rewrite bindM_lift_Some, Hph, bindM_lift_Some, bindM_lift_Some.
  assert (Hcw : buf_write c index [1]
                = Some {| blk := blk c; size := size c;
                          mem := mem_write (mem c) index [1] |}).
  { unfold buf_write. case_decide as Hr; [reflexivity|].
    cbn [length] in Hr. unfold PEACH_MAP in *. lia. }
  rewrite Hcw, bindM_lift_Some, Hgt.
  assert (Hmw : buf_write m (uint32 (index * Z.of_nat PEACH_TILE)) tile
                = Some {| blk := blk m; size := size m;
                          mem := mem_write (mem m) (index * Z.of_nat PEACH_TILE) tile |}).
  { rewrite Hoff. unfold buf_write. case_decide as Hr; [reflexivity|].
    rewrite Hl in Hr. unfold PEACH_TILE, PEACH_MAP, PEACH_SIZE in *. lia. }
  eapply eq_trans.
  { apply bindM_Some_eq. cbv beta. rewrite Hmw, bindM_lift_Some. reflexivity. }
  rewrite app_nil_r. reflexivity.
Qed.

(** X17.  With a map, [peach_gen] returns a pointer into the map and
    leaves the tile marked in the cache: a second call for the same index
    runs no hash and changes nothing.  A call for a tile that is marked
    already runs no hash either. *)
Theorem peach_gen_cached (phash : list Z) (P : PEACH_ALGO) (m c : buffer) (index : Z) :
  peach_inv digest phash P -> p_map P = Some m -> p_cache P = Some c ->
  0 <= index < PEACH_MAP ->
  exists P' calls,
    peach_gen digest P index = Some ((InMap index, P'), calls) /\
    (mem c index <> 0 -> P' = P /\ calls = []) /\
    peach_gen digest P' index = Some ((InMap index, P'), []) /\
    tile_at P' (InMap index) = tile_value digest phash index.
Proof.
  intros Hinv Hm Hc Hi.
  destruct (peach_gen_returns digest digest_len phash P index Hinv Hi)
    as ([r P1] & l1 & Hg & _ & (t & Ht & Hv & _) & _). cbn [fst snd] in *.
  assert (Hsc : size c = PEACH_MAP).
  { destruct Hinv as (_ & _ & [[Hm0 _] | (m0 & c0 & _ & Hc0 & _ & Hsc & _)]);
      congruence. }
  destruct (Z.eq_dec (mem c index) 0) as [Hz|Hnz].
  - destruct (peach_gen_miss phash P m c index Hinv Hm Hc Hi Hz)
      as (tile & calls & _ & _ & Hmiss).
    rewrite Hmiss in Hg. injection Hg as <- <- <-.
    eexists _, _. split; [exact Hmiss|]. split; [intros; contradiction|].
    split; [|rewrite Ht, Hv; reflexivity].
    eapply peach_gen_hit; [reflexivity | exact Hsc | exact Hi |].
    change (mem_write (mem c) index [1] index <> 0). rewrite mem_write_one. case_decide; [discriminate | contradiction].
  - pose proof (peach_gen_hit P c index Hc Hsc Hi Hnz) as Hhit.
    rewrite Hhit in Hg. injection Hg as <- <- <-.
    exists P, []. split; [exact Hhit|]. split; [auto|].
    split; [exact Hhit | rewrite Ht, Hv; reflexivity].
Qed.

(** X18.  Generating a tile into the map touches no other tile: the 1024
    bytes of every other index and every other mark of the cache are as
    they were, and so are the trailer pointer, the nonce and the
    difficulty of the context. *)
Theorem peach_gen_frame (phash : list Z) (P : PEACH_ALGO) (m c : buffer) (index : Z)
    (r : tileref) (P' : PEACH_ALGO) (calls : list hash_call) :
  peach_inv digest phash P -> p_map P = Some m -> p_cache P = Some c ->
  0 <= index < PEACH_MAP ->
  peach_gen digest P index = Some ((r, P'), calls) ->
  exists m' c',
    p_map P' = Some m' /\ p_cache P' = Some c' /\
    blk m' = blk m /\ blk c' = blk c /\ size m' = size m /\ size c' = size c /\
    p_bt P' = p_bt P /\ p_nonce P' = p_nonce P /\ p_diff P' = p_diff P /\
    p_tile P' = p_tile P /\
    forall j, 0 <= j < PEACH_MAP -> j <> index ->
      mem c' j = mem c j /\
      mem_read (mem m') (j * Z.of_nat PEACH_TILE) PEACH_TILE
      = mem_read (mem m) (j * Z.of_nat PEACH_TILE) PEACH_TILE.
Proof.
  intros Hinv Hm Hc Hi Hg.
  assert (Hsc : size c = PEACH_MAP).
  { destruct Hinv as (_ & _ & [[Hm0 _] | (m0 & c0 & _ & Hc0 & _ & Hsc & _)]);
      congruence. }
  destruct (Z.eq_dec (mem c index) 0) as [Hz|Hnz].
  - destruct (peach_gen_miss phash P m c index Hinv Hm Hc Hi Hz)
      as (tile & calls0 & _ & Hl & Hmiss).
    rewrite Hmiss in Hg. injection Hg as <- <- <-.
    eexists _, _. cbn [p_map p_cache p_bt p_nonce p_diff p_tile].
    repeat (split; [reflexivity|]).
    intros j Hj Hne. split.
    + change (mem_write (mem c) index [1] j = mem c j).
      rewrite mem_write_one. case_decide; [contradiction | reflexivity].
    + change (mem_read (mem_write (mem m) (index * Z.of_nat PEACH_TILE) tile)
                       (j * Z.of_nat PEACH_TILE) PEACH_TILE
              = mem_read (mem m) (j * Z.of_nat PEACH_TILE) PEACH_TILE).
      apply mem_read_write_other. rewrite Hl. unfold PEACH_TILE. lia.
  - rewrite (peach_gen_hit P c index Hc Hsc Hi Hnz) in Hg. injection Hg as <- <- <-.
    exists m, c. auto 20.
Qed.

(** X12.  A tile is the same bytes for a miner and for a verifier:
    [peach_gen] on two contexts of the same previous block hash, with or
    without a map, the tile cached or not, returns pointers to the same
    1024 bytes. *)
Theorem peach_gen_same_tile (phash : list Z) (P1 P2 : PEACH_ALGO) (index : Z) :
  peach_inv digest phash P1 -> peach_inv digest phash P2 -> 0 <= index < PEACH_MAP ->
  exists r1 P1' calls1 r2 P2' calls2 tile,
    peach_gen digest P1 index = Some ((r1, P1'), calls1) /\
    peach_gen digest P2 index = Some ((r2, P2'), calls2) /\
    tile_at P1' r1 = Some tile /\ tile_at P2' r2 = Some tile /\
    length tile = PEACH_TILE.
Proof.
  intros H1 H2 Hi.
  destruct (peach_gen_returns digest digest_len phash P1 index H1 Hi)
    as ([r1 P1'] & c1 & Hg1 & _ & (t1 & Ht1 & Hv1 & Hl1) & _).
  destruct (peach_gen_returns digest digest_len phash P2 index H2 Hi)
    as ([r2 P2'] & c2 & Hg2 & _ & (t2 & Ht2 & Hv2 & Hl2) & _).
  cbn [fst snd] in *.
  exists r1, P1', c1, r2, P2', c2, t1.
  rewrite Hv1 in Hv2. inversion Hv2; subst t2. auto 10.
Qed.

End WithHash.

(** ** The properties at work *)

Lemma miner_example_inv : peach_inv zero_digest (take 32 trailer_example) miner_example.
Proof. exact (proj1 PeachMining.miner_example_in_use). Qed.

(** Tile 3 on the context of a miner with nothing cached. *)
Lemma peach_gen_cached_witness :
  exists P' calls,
    peach_gen zero_digest miner_example 3 = Some ((InMap 3, P'), calls) /\
    peach_gen zero_digest P' 3 = Some ((InMap 3, P'), []).
Proof.
  destruct (peach_gen_cached zero_digest PeachCheck.zero_digest_len
              (take 32 trailer_example) miner_example
              {| blk := 1%positive; size := PEACH_SIZE; mem := fun _ => 0 |}
              {| blk := 2%positive; size := PEACH_MAP; mem := fun _ => 0 |} 3
              miner_example_inv eq_refl eq_refl)
    as (P' & calls & H1 & _ & H2 & _).
  - vm_compute. split; [discriminate | reflexivity].
  - exists P', calls. split; assumption.
Defined.

Lemma peach_gen_frame_witness :
  exists r P' calls m' c',
    peach_gen zero_digest miner_example 3 = Some ((r, P'), calls) /\
    p_map P' = Some m' /\ p_cache P' = Some c' /\ mem c' 4 = 0.
Proof.
  assert (Hi : 0 <= 3 < PEACH_MAP) by (vm_compute; split; [discriminate | reflexivity]).
  destruct (peach_gen_returns zero_digest PeachCheck.zero_digest_len
              (take 32 trailer_example) miner_example 3 miner_example_inv Hi)
    as ([r P'] & calls & Hg & _).
  destruct (peach_gen_frame zero_digest PeachCheck.zero_digest_len
              (take 32 trailer_example) miner_example
              {| blk := 1%positive; size := PEACH_SIZE; mem := fun _ => 0 |}
              {| blk := 2%positive; size := PEACH_MAP; mem := fun _ => 0 |} 3
              r P' calls miner_example_inv eq_refl eq_refl Hi Hg)
    as (m' & c' & Hm & Hc & _ & _ & _ & _ & _ & _ & _ & _ & Hother).
  exists r, P', calls, m', c'. split; [exact Hg|]. split; [exact Hm|]. split; [exact Hc|].
  destruct (Hother 4) as [H4 _].
  - vm_compute. split; [discriminate | reflexivity].
  - discriminate.
  - exact H4.
Defined.

(** Tile 3 for a miner and for a verifier of [trailer_example]. *)
Lemma peach_gen_same_tile_witness :
  exists r1 P1' calls1 r2 P2' calls2 tile,
    peach_gen zero_digest miner_example 3 = Some ((r1, P1'), calls1) /\
    peach_gen zero_digest context_example 3 = Some ((r2, P2'), calls2) /\
    tile_at P1' r1 = Some tile /\ tile_at P2' r2 = Some tile.
Proof.
  destruct (peach_gen_same_tile zero_digest PeachCheck.zero_digest_len
              (take 32 trailer_example) miner_example context_example 3
              miner_example_inv PeachCheck.context_example_inv)
    as (r1 & P1 & c1 & r2 & P2 & c2 & t & H1 & H2 & H3 & H4 & _).
  - vm_compute. split; [discriminate | reflexivity].
  - exists r1, P1, c1, r2, P2, c2, t. auto.
Defined.

End PeachCache.

(** * The transformations of nighthash *)

Module PeachTransform.
Import Trigg Peach TriggPow TriggRef PeachRef MoreRef.
Import TriggSpec TriggGrammar PeachNighthash PeachWalk TriggWork.

(** ** Stores that stay in front of an index *)

Lemma tail_kept_refl (k : nat) (data : list Z) : tail_kept k data data.
Proof. repeat split; auto. Qed.

Lemma tail_kept_trans (k : nat) (d1 d2 d3 : list Z) :
  tail_kept k d1 d2 -> tail_kept k d2 d3 -> tail_kept k d1 d3.
Proof.
  intros (L1 & D1 & B1) (L2 & D2 & B2). repeat split; [congruence | congruence | auto].
Qed.

Lemma store_tail (data : list Z) (i : nat) (v : Z) (data' : list Z) (k : nat) :
  store data i v = Some data' -> (i < k)%nat -> is_byte v -> tail_kept k data data'.
Proof.
  intros H Hi Hv. apply store_inv in H as [Hlt ->]. split; [|split].
  - apply length_insert.
  - apply drop_insert_lt. exact Hi.
  - intros Hb. apply Forall_insert; assumption.
Qed.

Lemma bytes_le_bytes (n : nat) (x : Z) : bytes (le_bytes n x).
Proof.
  unfold le_bytes, bytes. apply Forall_forall. intros b Hb.
  apply list_elem_of_In, in_map_iff in Hb as (j & <- & _).
  apply land_255_byte.
Qed.

Lemma store_bytes_tail (data : list Z) (off : nat) (vs data' : list Z) (k : nat) :
  store_bytes data off vs = Some data' -> (off + length vs <= k)%nat -> bytes vs ->
  tail_kept k data data'.
Proof.
  intros H Hk Hv. apply store_bytes_inv in H as [-> Hle]. split; [|split].
  - rewrite !length_app, length_take, length_drop. lia.
  - rewrite app_assoc, drop_app_ge by (rewrite length_app, length_take; lia).
    rewrite length_app, length_take, drop_drop. f_equal. lia.
  - intros Hb. unfold bytes. rewrite !Forall_app.
    split; [apply Forall_take; exact Hb|]. split; [exact Hv | apply Forall_drop; exact Hb].
Qed.

(** ** peach_dflop *)

Lemma flp_write_tail (txf : bool) (data temp : list Z) (i : nat) (f : spec_float)
    (data' temp' : list Z) (k : nat) :
  flp_write txf data temp i f = Some (data', temp') -> (i + 4 <= k)%nat ->
  tail_kept k data data'.
Proof.
  unfold flp_write. intros H Hk. destruct txf.
  - apply bind_Some in H as (d & Hd & H). inversion H; subst d temp'.
    apply (store_bytes_tail _ _ _ _ _ Hd).
    + rewrite length_bytes_of_float. exact Hk.
    + apply bytes_le_bytes.
  - inversion H; subst. apply tail_kept_refl.
Qed.

Lemma flp_fix_nan_tail (txf : bool) (data temp : list Z) (i : nat) (index : Z)
    (data' temp' : list Z) (k : nat) :
  flp_fix_nan txf data temp i index = Some (data', temp') -> (i + 4 <= k)%nat ->
  tail_kept k data data'.
Proof.
  unfold flp_fix_nan. intros H Hk. apply bind_Some in H as (v & _ & H).
  destruct (isnan (float_of_bytes v)).
  - exact (flp_write_tail _ _ _ _ _ _ _ _ H Hk).
  - inversion H; subst. apply tail_kept_refl.
Qed.

Lemma uint32_range (x : Z) : 0 <= uint32 x < 2 ^ 32.
Proof. unfold uint32. apply Z.mod_pos_bound. lia. Qed.

Lemma sum_bytes_range (v : list Z) (op : Z) :
  0 <= op < 2 ^ 32 -> 0 <= fold_left (fun op b => uint32 (op + b)) v op < 2 ^ 32.
Proof.
  revert op. induction v as [|b v IH]; intros op Hop; cbn [fold_left]; [exact Hop|].
  apply IH, uint32_range.
Qed.

Lemma dflop_lane_tail (txf : bool) (index : Z) (data : list Z) (i : nat) (op : Z)
    (data' : list Z) (op' : Z) (k : nat) :
  dflop_lane txf index data i op = Some (data', op') -> (i + 4 <= k)%nat ->
  tail_kept k data data' /\ 0 <= op' < 2 ^ 32.
Proof.
  unfold dflop_lane. intros H Hk.
  apply bind_Some in H as (temp & _ & H).
  apply bind_Some in H as (b0 & _ & H).
  apply bind_Some in H as (x & _ & H).
  apply bind_Some in H as (operand & _ & H).
  apply bind_Some in H as (s & _ & H).
  apply bind_Some in H as ([d1 t1] & H1 & H).
  apply bind_Some in H as (v1 & _ & H).
  apply bind_Some in H as ([d2 t2] & H2 & H).
  apply bind_Some in H as ([d3 t3] & H3 & H).
  apply bind_Some in H as (v3 & _ & H).
  inversion H; subst data' op'. clear H. split.
  - eapply tail_kept_trans; [exact (flp_fix_nan_tail _ _ _ _ _ _ _ _ H1 Hk)|].
    eapply tail_kept_trans; [exact (flp_write_tail _ _ _ _ _ _ _ _ H2 Hk)|].
    exact (flp_fix_nan_tail _ _ _ _ _ _ _ _ H3 Hk).
  - apply sum_bytes_range, uint32_range.
Qed.

Lemma dflop_loop_tail (txf : bool) (index : Z) (n : nat) (data : list Z) (i : nat)
    (op : Z) (data' : list Z) (op' : Z) (k : nat) :
  dflop_loop txf index n data i op = Some (data', op') -> (i + 4 * n <= k)%nat ->
  0 <= op < 2 ^ 32 ->
  tail_kept k data data' /\ 0 <= op' < 2 ^ 32.
Proof.
  revert data i op. induction n as [|n IH]; intros data i op H Hk Hop;
    cbn [dflop_loop] in H.
  - inversion H; subst. split; [apply tail_kept_refl | exact Hop].
  - apply bind_Some in H as ([d1 o1] & H1 & H).
    destruct (dflop_lane_tail _ _ _ _ _ _ _ k H1 ltac:(lia)) as [K1 R1].
    destruct (IH d1 (i + 4)%nat o1 H ltac:(lia) R1) as [K2 R2].
    split; [exact (tail_kept_trans _ _ _ _ K1 K2) | exact R2].
Qed.

(** The lanes of [peach_dflop]. *)
Lemma peach_dflop_tail (data : list Z) (len : nat) (index : Z) (txf : bool)
    (data' : list Z) (op : Z) :
  peach_dflop data len index txf = Some (data', op) ->
  tail_kept (4 * (len / 4)) data data' /\ 0 <= op < 2 ^ 32.
Proof.
  unfold peach_dflop. intros H.
  assert (Hl : (len - Z.to_nat (Z.land (Z.of_nat len) 3))%nat = (4 * (len / 4))%nat).
  { change 3 with (Z.ones 2). rewrite Z.land_ones by lia.
    change (2 ^ 2) with (Z.of_nat 4). rewrite <- Nat2Z.inj_mod, Nat2Z.id.
    pose proof (Nat.div_mod_eq len 4). lia. }
  rewrite Hl in H.
  replace (4 * (len / 4) / 4)%nat with (len / 4)%nat in H
    by (rewrite Nat.mul_comm, Nat.div_mul; lia).
  apply (dflop_loop_tail _ _ _ _ _ _ _ _ _ H); lia.
Qed.

(** X19.  [peach_dflop] works on whole 4-byte lanes inside [len]: it
    returns, the buffer keeps its length and its bytes from the last whole
    lane on, its contents stay bytes, and the operation code is a 32-bit
    number.  This holds with [txf] set, where the lanes are overwritten
    with the results. *)
Theorem peach_dflop_lanes (data : list Z) (len : nat) (index : Z) (txf : bool) :
  (len <= length data)%nat ->
  exists data' op,
    peach_dflop data len index txf = Some (data', op) /\
    tail_kept (4 * (len / 4)) data data' /\ 0 <= op < 2 ^ 32.
Proof.
  intros Hlen.
  destruct (peach_dflop_ok data len index txf Hlen) as (data' & op & H & _).
  exists data', op. split; [exact H|].
  exact (peach_dflop_tail _ _ _ _ _ _ H).
Qed.

Lemma peach_dflop_lanes_witness :
  exists data' op,
    peach_dflop [1; 2; 3; 4; 5; 6; 7; 8; 9; 10] 7 42 true = Some (data', op) /\
    drop 4 data' = [5; 6; 7; 8; 9; 10].
Proof.
  destruct (peach_dflop_lanes [1; 2; 3; 4; 5; 6; 7; 8; 9; 10] 7 42 true)
    as (data' & op & H & (_ & Hd & _) & _).
  - vm_compute. lia.
  - exists data', op. split; [exact H | exact Hd].
Defined.

(** ** peach_dmemtx *)

Lemma tail_kept_mono (k k' : nat) (data data' : list Z) :
  (k <= k')%nat -> tail_kept k data data' -> tail_kept k' data data'.
Proof.
  intros Hk (L & D & B). split; [exact L|]. split; [|exact B].
  replace k' with (k + (k' - k))%nat by lia. rewrite <- !drop_drop, D. reflexivity.
Qed.

Lemma lxor_byte (a b : Z) : is_byte a -> is_byte b -> is_byte (Z.lxor a b).
Proof.
  unfold is_byte. intros Ha Hb.
  assert (H : Z.lxor a b = Z.land (Z.lxor a b) 255).
  { apply Z.bits_inj'. intros n Hn. rewrite Z.land_spec, Z.lxor_spec.
    destruct (Z.ltb_spec n 8) as [Hl|Hg].
    - change 255 with (Z.ones 8). rewrite Z.ones_spec_low by lia.
      rewrite andb_true_r. reflexivity.
    - rewrite <- (Z.mod_small a (2 ^ 8)), <- (Z.mod_small b (2 ^ 8)) by (simpl; lia).
      rewrite !Z.mod_pow2_bits_high by lia. reflexivity. }
  rewrite H. apply land_255_byte.
Qed.

Lemma uint8_byte (x : Z) : is_byte (uint8 x).
Proof. unfold is_byte, uint8. apply Z.mod_pos_bound. lia. Qed.

Lemma store_tail_if (data : list Z) (i : nat) (v : Z) (data' : list Z) (k : nat) :
  store data i v = Some data' -> (i < k)%nat -> (bytes data -> is_byte v) ->
  tail_kept k data data'.
Proof.
  intros H Hi Hv. apply store_inv in H as [Hlt ->]. split; [|split].
  - apply length_insert.
  - apply drop_insert_lt. exact Hi.
  - intros Hb. apply Forall_insert; auto.
Qed.

Lemma tx_range_tail (f : nat -> Z -> Z) (n z : nat) (data data' : list Z) (k : nat) :
  (forall j b, is_byte b -> is_byte (f j b)) ->
  tx_range f n z data = Some data' -> (z + n <= k)%nat -> tail_kept k data data'.
Proof.
  intros Hf. revert z data. induction n as [|n IH]; intros z data H Hk;
    cbn [tx_range] in H.
  - inversion H; subst. apply tail_kept_refl.
  - apply bind_Some in H as (b & Hb & H). apply bind_Some in H as (d1 & Hd1 & H).
    eapply tail_kept_trans; [|apply (IH _ _ H); lia].
    apply (store_tail_if _ _ _ _ _ Hd1); [lia|].
    intros Hbs. apply Hf. exact (bytes_lookup _ _ _ Hbs Hb).
Qed.

Lemma tx_words_tail (width : nat) (f : Z -> Z) (n z : nat) (data data' : list Z) (k : nat) :
  (forall b, is_byte b -> is_byte (f b)) ->
  tx_words width f n z data = Some data' -> ((z + n) * width <= k)%nat ->
  tail_kept k data data'.
Proof.
  intros Hf. revert z data. induction n as [|n IH]; intros z data H Hk;
    cbn [tx_words] in H.
  - inversion H; subst. apply tail_kept_refl.
  - apply bind_Some in H as (d1 & Hd1 & H).
    eapply tail_kept_trans; [|apply (IH _ _ H); lia].
    apply (tx_range_tail (fun _ => f) width (z * width) data d1 k); [auto | exact Hd1 | lia].
Qed.

Lemma swap_halves_tail (always : bool) (n y z : nat) (data data' : list Z) (k : nat) :
  swap_halves always n y z data = Some data' ->
  (y + n <= k)%nat -> (z + n <= k)%nat -> tail_kept k data data'.
Proof.
  revert y z data. induction n as [|n IH]; intros y z data H Hy Hz;
    cbn [swap_halves] in H.
  - inversion H; subst. apply tail_kept_refl.
  - apply bind_Some in H as (bz & Hbz & H). apply bind_Some in H as (by_ & Hby & H).
    apply bind_Some in H as (d1 & Hd1 & H).
    eapply tail_kept_trans; [|apply (IH _ _ _ H); lia].
    destruct (always || (by_ <? bz)).
    + apply bind_Some in Hd1 as (d0 & Hd0 & Hd1).
      apply store_inv in Hd0 as [_ ->]. apply store_inv in Hd1 as [_ ->].
      split; [|split].
      * rewrite !length_insert. reflexivity.
      * rewrite !drop_insert_lt by lia. reflexivity.
      * intros Hb. apply Forall_insert; [apply Forall_insert; [exact Hb|]|].
        -- exact (bytes_lookup _ _ _ Hb Hby).
        -- exact (bytes_lookup _ _ _ Hb Hbz).
    + inversion Hd1; subst. apply tail_kept_refl.
Qed.

Lemma xor_chain_tail (n y z : nat) (data data' : list Z) (k : nat) :
  xor_chain n y z data = Some data' -> (z + n <= k)%nat -> tail_kept k data data'.
Proof.
  revert y z data. induction n as [|n IH]; intros y z data H Hz;
    cbn [xor_chain] in H.
  - inversion H; subst. apply tail_kept_refl.
  - apply bind_Some in H as (bz & Hbz & H). apply bind_Some in H as (by_ & Hby & H).
    apply bind_Some in H as (d1 & Hd1 & H).
    eapply tail_kept_trans; [|apply (IH _ _ _ H); lia].
    apply (store_tail_if _ _ _ _ _ Hd1); [lia|].
    intros Hb. apply lxor_byte; [exact (bytes_lookup _ _ _ Hb Hbz)
                                | exact (bytes_lookup _ _ _ Hb Hby)].
Qed.

Lemma dmemtx_case_tail (len i : nat) (op : Z) (data data' : list Z) :
  dmemtx_case len i op data = Some data' -> tail_kept len data data'.
Proof.
  unfold dmemtx_case. destruct (words_fit len) as (W8 & W4 & W2).
  assert (Hwords : forall f d',
            (forall b, is_byte b -> is_byte (f b)) ->
            (d ← tx_words 8 f (len / 8) 0 data;
             tx_words 4 f (len / 4 - 2 * (len / 8)) (2 * (len / 8)) d) = Some d' ->
            tail_kept len data d').
  { intros f d' Hf H. apply bind_Some in H as (d1 & H1 & H2).
    eapply tail_kept_trans.
    - apply (tx_words_tail 8 f _ _ _ _ len Hf H1). lia.
    - apply (tx_words_tail 4 f _ _ _ _ len Hf H2). lia. }
  assert (Hx : forall c, is_byte c -> forall b, is_byte b -> is_byte (Z.lxor b c))
    by (intros; apply lxor_byte; assumption).
  destruct (land_7_cases op) as [E|[E|[E|[E|[E|[E|[E|E]]]]]]]; rewrite E; intros H.
  - apply (Hwords _ _ (Hx 0x81 ltac:(unfold is_byte; lia)) H).
  - apply (swap_halves_tail _ _ _ _ _ _ len H); lia.
  - apply (Hwords _ _ (Hx 0xff ltac:(unfold is_byte; lia)) H).
  - apply (tx_range_tail _ _ _ _ _ len (fun _ _ _ => uint8_byte _) H). lia.
  - apply (tx_range_tail _ _ _ _ _ len (fun _ _ _ => uint8_byte _) H). lia.
  - apply (tx_range_tail _ _ _ _ _ len) in H; [exact H | | lia].
    intros j b Hb. destruct (b =? 104); [unfold is_byte; lia | exact Hb].
  - apply (swap_halves_tail _ _ _ _ _ _ len H); lia.
  - destruct len as [|len].
    + cbn [Nat.sub xor_chain] in H. inversion H; subst. apply tail_kept_refl.
    + apply (xor_chain_tail _ _ _ _ _ (S len) H). lia.
Qed.

Lemma dmemtx_loop_tail (len n i : nat) (data : list Z) (op : Z)
    (data' : list Z) (op' : Z) :
  dmemtx_loop len n i data op = Some (data', op') ->
  tail_kept len data data' /\ ((0 < n)%nat \/ 0 <= op < 2 ^ 32 -> 0 <= op' < 2 ^ 32).
Proof.
  revert i data op. induction n as [|n IH]; intros i data op H; cbn [dmemtx_loop] in H.
  - inversion H; subst. split; [apply tail_kept_refl|]. intros [?|?]; [lia | assumption].
  - apply bind_Some in H as (b & _ & H). apply bind_Some in H as (d1 & H1 & H).
    destruct (IH _ _ _ H) as [K R]. split.
    + exact (tail_kept_trans _ _ _ _ (dmemtx_case_tail _ _ _ _ _ H1) K).
    + intros _. apply R. right. apply uint32_range.
Qed.

(** The rounds of [peach_dmemtx]. *)
Lemma peach_dmemtx_tail (data : list Z) (len : nat) (op : Z) (data' : list Z) (op' : Z) :
  peach_dmemtx data len op = Some (data', op') ->
  tail_kept len data data' /\ 0 <= op' < 2 ^ 32.
Proof.
  unfold peach_dmemtx. intros H.
  destruct (dmemtx_loop_tail _ _ _ _ _ _ _ H) as [K R].
  split; [exact K|]. apply R. left. unfold PEACH_RNDS. lia.
Qed.

(** X20.  [peach_dmemtx] on a buffer of 8 bytes or more returns; it
    writes inside the first [len] bytes only, the buffer keeps its length
    and stays bytes, and the operation code is a 32-bit number. *)
Theorem peach_dmemtx_inside (data : list Z) (len : nat) (op : Z) :
  (len <= length data)%nat -> (8 <= length data)%nat ->
  exists data' op',
    peach_dmemtx data len op = Some (data', op') /\
    tail_kept len data data' /\ 0 <= op' < 2 ^ 32.
Proof.
  intros Hlen H8.
  destruct (peach_dmemtx_ok data len op Hlen H8) as (data' & op' & H & _).
  exists data', op'. split; [exact H|].
  exact (peach_dmemtx_tail _ _ _ _ _ H).
Qed.

Lemma peach_dmemtx_inside_witness :
  exists data' op',
    peach_dmemtx [1; 2; 3; 4; 5; 6; 7; 8; 9; 10; 11; 12] 9 77 = Some (data', op') /\
    drop 9 data' = [10; 11; 12].
Proof.
  destruct (peach_dmemtx_inside [1; 2; 3; 4; 5; 6; 7; 8; 9; 10; 11; 12] 9 77)
    as (data' & op' & H & (_ & Hd & _) & _).
  - vm_compute. lia.
  - vm_compute. lia.
  - exists data', op'. split; [exact H | exact Hd].
Defined.

Lemma dmemtx_case_length (len i : nat) (op : Z) (data data' : list Z) :
  dmemtx_case len i op data = Some data' -> length data' = length data.
Proof. intros H. exact (proj1 (dmemtx_case_tail _ _ _ _ _ H)). Qed.

Lemma dmemtx_loop_short (len n i : nat) (data : list Z) (op : Z) :
  (i + n = 8)%nat -> (i <= length data)%nat -> (length data < 8)%nat ->
  dmemtx_loop len n i data op = None.
Proof.
  revert i data op. induction n as [|n IH]; intros i data op Hn Hi H8; [lia|].
  cbn [dmemtx_loop].
  assert (Hidx : Z.to_nat (Z.land (Z.of_nat i) 31) = i).
  { change 31 with (Z.ones 5). rewrite Z.land_ones by lia.
    rewrite Z.mod_small by (change (2 ^ 5) with 32; lia). lia. }
  rewrite Hidx. unfold load.
  destruct (data !! i) as [b|] eqn:Hb; [|reflexivity]. cbn [mbind option_bind].
  apply lookup_lt_Some in Hb.
  destruct (dmemtx_case len i (uint32 (op + b)) data) as [d1|] eqn:H1; [|reflexivity].
  cbn [mbind option_bind]. apply dmemtx_case_length in H1.
  apply IH; lia.
Qed.

(** X21.  Whatever [len], [peach_dmemtx] reads the first 8 bytes of the
    buffer to choose its transformations: on a buffer shorter than 8 bytes
    it reads outside the buffer. *)
Theorem peach_dmemtx_short (data : list Z) (len : nat) (op : Z) :
  (length data < 8)%nat -> peach_dmemtx data len op = None.
Proof.
  intros H8. unfold peach_dmemtx, PEACH_RNDS. apply dmemtx_loop_short; lia.
Qed.

Lemma peach_dmemtx_short_witness : peach_dmemtx [1; 2; 3; 4; 5; 6; 7] 0 0 = None.
Proof. apply peach_dmemtx_short. vm_compute. lia. Defined.

(** ** peach_nighthash *)

Section WithHash.

Variable digest : hash_algo -> list Z -> list Z.
Hypothesis digest_len : forall a m, length (digest a m) = digest_size a.

(** X22.  A call of nighthash runs one hash function, over the first
    [inlen] bytes of the buffer as the transformations left them, followed
    by the four bytes of the index when [hashindex] is set.  It writes 32
    bytes to [out]: the digest, then zeros.  Of the input buffer it
    changes the first [inlen] bytes at most, with [txf] set too. *)
Theorem peach_nighthash_effect (inb : list Z) (inlen : nat) (index : Z)
    (hashindex txf : bool) :
  (inlen <= length inb)%nat -> (txf = true -> (8 <= length inb)%nat) ->
  exists inb' a,
    peach_nighthash digest inb inlen index hashindex txf
    = Some ((inb', digest a (take inlen inb' ++ (if hashindex then le_bytes 4 index else []))
                   ++ repeat 0 (32 - digest_size a)),
            [(a, take inlen inb' ++ (if hashindex then le_bytes 4 index else []))]) /\
    tail_kept inlen inb inb' /\
    length (digest a (take inlen inb' ++ (if hashindex then le_bytes 4 index else []))
            ++ repeat 0 (32 - digest_size a)) = 32%nat.
Proof.
  intros Hlen H8. unfold peach_nighthash.
  destruct (peach_dflop_ok inb inlen index txf Hlen) as (d1 & op1 & H1 & _).
  destruct (peach_dflop_tail _ _ _ _ _ _ H1) as [K1 _].
  apply (tail_kept_mono _ inlen) in K1;
    [|pose proof (Nat.div_mod_eq inlen 4); lia].
  rewrite H1, bindM_lift_Some.
  assert (Htx : exists d2 op2,
            (if txf then lift (peach_dmemtx d1 inlen op1) else retM (d1, op1))
            = Some ((d2, op2), []) /\ tail_kept inlen inb d2).
  { destruct txf.
    - destruct K1 as (L1 & D1 & B1).
      destruct (peach_dmemtx_ok d1 inlen op1) as (d2 & op2 & H2 & _);
        [lia | specialize (H8 eq_refl); lia |].
      destruct (peach_dmemtx_tail _ _ _ _ _ H2) as [K2 _].
      rewrite H2. exists d2, op2. split; [reflexivity|].
      apply (tail_kept_trans _ _ d1); [repeat split; assumption | exact K2].
    - exists d1, op1. split; [reflexivity | exact K1]. }
  destruct Htx as (d2 & op2 & H2 & K2). rewrite H2. cbn [bindM app].
  assert (L2 : (inlen <= length d2)%nat) by (destruct K2 as [E _]; lia).
  exists d2. fold (hashed d2 inlen index hashindex).
  destruct (land_7_cases op2) as [E|[E|[E|[E|[E|[E|[E|E]]]]]]]; rewrite E;
    cbv beta iota zeta;
    match goal with
    | |- context [hash_input digest ?a _ _ _ _] => exists a
    end;
    rewrite hash_input_ok by exact L2; cbn [bindM retM app];
    (split; [|split; [exact K2|]]); cbn [digest_size Nat.sub repeat];
    rewrite ?app_nil_r; try reflexivity;
    rewrite ?length_app, digest_len; reflexivity.
Qed.

End WithHash.

Lemma peach_nighthash_effect_witness :
  exists inb' a out,
    peach_nighthash zero_digest (repeat 3 40) 36 5 true true
    = Some ((inb', out), [(a, take 36 inb' ++ le_bytes 4 5)]) /\
    drop 36 inb' = [3; 3; 3; 3].
Proof.
  destruct (peach_nighthash_effect zero_digest PeachCheck.zero_digest_len
              (repeat 3 40) 36 5 true true)
    as (inb' & a & H & (_ & Hd & _) & _).
  - vm_compute. lia.
  - intros _. vm_compute. lia.
  - eexists inb', a, _. split; [exact H | exact Hd].
Defined.

End PeachTransform.

(** * The two modes of peach_dflop *)

Module PeachModes.
Import Trigg Peach TriggPow TriggRef PeachRef MoreRef.
Import TriggSpec TriggGrammar PeachNighthash PeachWalk TriggWork.

Lemma store_load_bytes (data : list Z) (i : nat) (vs : list Z) :
  (i + length vs <= length data)%nat ->
  exists d', store_bytes data i vs = Some d' /\
             load_bytes d' i (length vs) = Some vs /\
             length d' = length data /\
             drop (i + length vs) d' = drop (i + length vs) data.
Proof.
  intros H. unfold store_bytes. case_decide; [|lia].
  eexists. split; [reflexivity|].
  assert (Hi : length (take i data) = i) by (rewrite length_take; lia).
  assert (Hl : length (take i data ++ vs ++ drop (i + length vs) data) = length data).
  { rewrite !length_app, Hi, length_drop. lia. }
  split; [|split; [exact Hl|]].
  - rewrite load_bytes_Some by (rewrite Hl; lia).
    rewrite drop_app_length' by (symmetry; exact Hi).
    rewrite take_app_length' by reflexivity. reflexivity.
  - rewrite app_assoc, drop_app_length' by (rewrite length_app, Hi; reflexivity).
    reflexivity.
Qed.

Lemma flp_write_modes (data0 data tf t : list Z) (i : nat) (f : spec_float) :
  (i + 4 <= length data)%nat ->
  exists d',
    flp_write true data t i f = Some (d', t) /\
    flp_write false data0 tf i f = Some (data0, bytes_of_float f) /\
    load_bytes d' i 4 = Some (bytes_of_float f) /\
    length d' = length data /\ drop (i + 4) d' = drop (i + 4) data.
Proof.
  intros H. unfold flp_write.
  destruct (store_load_bytes data i (bytes_of_float f)) as (d' & Hs & Hl & Hn & Hd);
    [rewrite length_bytes_of_float; exact H|].
  rewrite length_bytes_of_float in Hl, Hd.
  exists d'. rewrite Hs. cbn [mbind option_bind]. auto.
Qed.

Lemma flp_fix_nan_modes (data0 data tf t : list Z) (i : nat) (index : Z) :
  (i + 4 <= length data)%nat -> load_bytes data i 4 = Some tf ->
  exists d' tf',
    flp_fix_nan true data t i index = Some (d', t) /\
    flp_fix_nan false data0 tf i index = Some (data0, tf') /\
    load_bytes d' i 4 = Some tf' /\
    length d' = length data /\ drop (i + 4) d' = drop (i + 4) data.
Proof.
  intros H Hl. unfold flp_fix_nan, flp_read. rewrite Hl. cbn [mbind option_bind].
  destruct (isnan (float_of_bytes tf)).
  - destruct (flp_write_modes data0 data tf t i (float_of_int index) H)
      as (d' & H1 & H2 & H3 & H4 & H5).
    exists d', (bytes_of_float (float_of_int index)). auto.
  - exists data, tf. auto.
Qed.

Lemma lane_lookup (data : list Z) (i k : nat) :
  (k < 4)%nat -> load data (i + k) = (take 4 (drop i data)) !! k.
Proof.
  intros Hk. unfold load. rewrite lookup_take_lt by exact Hk.
  rewrite lookup_drop. reflexivity.
Qed.

(** One lane in the two modes: the same operation code, and with [txf]
    the lane alone is written. *)
Lemma dflop_lane_modes (index : Z) (data0 data : list Z) (i : nat) (op : Z) :
  (i + 4 <= length data)%nat -> (i + 4 <= length data0)%nat ->
  take 4 (drop i data) = take 4 (drop i data0) ->
  exists d' op',
    dflop_lane true index data i op = Some (d', op') /\
    dflop_lane false index data0 i op = Some (data0, op') /\
    length d' = length data /\ drop (i + 4) d' = drop (i + 4) data.
Proof.
  intros H H0 Hlane. unfold dflop_lane.
  rewrite !load_bytes_Some by lia. cbn [mbind option_bind].
  assert (Hfirst : forall d : list Z, load d i = take 4 (drop i d) !! 0%nat).
  { intros d. rewrite <- (lane_lookup d i 0) by lia. rewrite Nat.add_0_r. reflexivity. }
  rewrite !Hfirst, <- Hlane.
  destruct (take 4 (drop i data) !! 0%nat) as [b0|] eqn:Hb0;
    [|apply lookup_ge_None in Hb0; rewrite length_take, length_drop in Hb0; lia].
  cbn [mbind option_bind].
  set (shift := uint8 (Z.shiftl (Z.land b0 7 + 1) 1)).
  pose proof (land_3_bound (Z.shiftr 0x26C34 shift)) as B1.
  pose proof (land_3_bound (Z.shiftr 0x14198 shift)) as B2.
  pose proof (land_3_bound (Z.shiftr 0x3D6EC shift)) as B3.
  rewrite !lane_lookup by lia. rewrite <- Hlane.
  assert (Hany : forall k, (k <= 3)%nat -> exists v, take 4 (drop i data) !! k = Some v).
  { intros k Hk. apply lookup_lt_is_Some_2. rewrite length_take, length_drop. lia. }
  destruct (Hany _ B1) as [x ->]. cbn [mbind option_bind].
  destruct (Hany _ B2) as [y ->]. cbn [mbind option_bind].
  destruct (Hany _ B3) as [s ->]. cbn [mbind option_bind].
  destruct (flp_fix_nan_modes data0 data (take 4 (drop i data)) (take 4 (drop i data))
              i index H (load_bytes_Some data i 4 H))
    as (d1 & t1 & F1 & G1 & L1 & N1 & D1).
  rewrite F1, G1. cbn [mbind option_bind].
  change (flp_read true d1 (take 4 (drop i data)) i) with (load_bytes d1 i 4).
  change (flp_read false data0 t1 i) with (Some t1).
  rewrite L1. cbn [mbind option_bind].
  match goal with
  | |- context [flp_write true d1 _ i ?r] =>
      destruct (flp_write_modes data0 d1 t1 (take 4 (drop i data)) i r ltac:(lia))
        as (d2 & F2 & G2 & L2 & N2 & D2); rewrite F2, G2
  end.
  cbn [mbind option_bind].
  destruct (flp_fix_nan_modes data0 d2 _ (take 4 (drop i data)) i index ltac:(lia) L2)
    as (d3 & t3 & F3 & G3 & L3 & N3 & D3).
  rewrite F3, G3. cbn [mbind option_bind].
  change (flp_read true d3 (take 4 (drop i data)) i) with (load_bytes d3 i 4).
  change (flp_read false data0 t3 i) with (Some t3).
  rewrite L3. cbn [mbind option_bind].
  eexists _, _. split; [reflexivity|]. split; [reflexivity|].
  split; congruence.
Qed.

Lemma dflop_loop_modes (index : Z) (n : nat) (data0 data : list Z) (i : nat) (op : Z) :
  (i + 4 * n <= length data)%nat -> length data = length data0 ->
  drop i data = drop i data0 ->
  exists d' op',
    dflop_loop true index n data i op = Some (d', op') /\
    dflop_loop false index n data0 i op = Some (data0, op').
Proof.
  revert data i op. induction n as [|n IH]; intros data i op H Hlen Hd;
    cbn [dflop_loop]; [eauto|].
  destruct (dflop_lane_modes index data0 data i op) as (d1 & op1 & F & G & N & D);
    [lia | lia | rewrite Hd; reflexivity |].
  rewrite F, G. cbn [mbind option_bind].
  apply IH; [lia | congruence |].
  rewrite D. rewrite <- !drop_drop, Hd. reflexivity.
Qed.

(** X29.  The operation code that [peach_dflop] returns does not depend
    on [txf]: the lanes are computed alike in both modes, and [txf] only
    decides whether the results are written over the data. *)
Theorem peach_dflop_modes (data : list Z) (len : nat) (index : Z) :
  (len <= length data)%nat ->
  exists data' op,
    peach_dflop data len index true = Some (data', op) /\
    peach_dflop data len index false = Some (data, op).
Proof.
  intros Hlen. unfold peach_dflop.
  set (len' := (len - Z.to_nat (Z.land (Z.of_nat len) 3))%nat).
  assert (Hl : (len' <= len)%nat) by (subst len'; lia).
  apply dflop_loop_modes; [|reflexivity|reflexivity].
  pose proof (Nat.div_mod_eq len' 4). lia.
Qed.

Lemma peach_dflop_modes_witness :
  exists data' op,
    peach_dflop [1; 2; 3; 4; 5; 6; 7; 8; 9; 10] 10 42 true = Some (data', op) /\
    peach_dflop [1; 2; 3; 4; 5; 6; 7; 8; 9; 10] 10 42 false
    = Some ([1; 2; 3; 4; 5; 6; 7; 8; 9; 10], op).
Proof. apply peach_dflop_modes. vm_compute. lia. Defined.

End PeachModes.

(** * The number of hash computations *)

Module PeachCost.
Import Trigg Peach TriggPow TriggRef PeachRef MoreRef.
Import TriggSpec TriggGrammar PeachNighthash PeachWalk TriggWork.

(** ** Reading a computation backwards, with its hashes *)

Lemma bindM_inv {A B : Type} (m : M A) (f : A -> M B) (b : B) (l : list hash_call) :
  bindM m f = Some (b, l) ->
  exists a l1 l2, m = Some (a, l1) /\ f a = Some (b, l2) /\ l = l1 ++ l2.
Proof.
  unfold bindM. destruct m as [[a l1]|]; [|discriminate].
  destruct (f a) as [[b' l2]|] eqn:Hf; [|discriminate].
  intros H. inversion H; subst. exists a, l1, l2. auto.
Qed.

Lemma bindM_lift_inv {A B : Type} (o : option A) (f : A -> M B) (b : B)
    (l : list hash_call) :
  bindM (lift o) f = Some (b, l) -> exists a, o = Some a /\ f a = Some (b, l).
Proof.
  intros H. apply bindM_inv in H as (a & l1 & l2 & Ho & Hf & ->).
  destruct o as [a'|]; [|discriminate]. inversion Ho; subst.
  exists a. split; [reflexivity | exact Hf].
Qed.

Lemma retM_inv {A : Type} (a b : A) (l : list hash_call) :
  retM a = Some (b, l) -> b = a /\ l = [].
Proof. intros H. inversion H. auto. Qed.

Section WithHash.

Variable digest : hash_algo -> list Z -> list Z.

Lemma hash_input_one (a : hash_algo) (inb : list Z) (inlen : nat) (index : Z)
    (hashindex : bool) (out : list Z) (l : list hash_call) :
  hash_input digest a inb inlen index hashindex = Some (out, l) -> length l = 1%nat.
Proof.
  unfold hash_input. intros H. apply bindM_lift_inv in H as (msg & _ & H).
  unfold hash_final in H. inversion H. reflexivity.
Qed.

(** A call of nighthash runs one hash. *)
Lemma peach_nighthash_one (inb : list Z) (inlen : nat) (index : Z) (hashindex txf : bool)
    (r : list Z * list Z) (l : list hash_call) :
  peach_nighthash digest inb inlen index hashindex txf = Some (r, l) -> length l = 1%nat.
Proof.
  unfold peach_nighthash. intros H.
  apply bindM_lift_inv in H as ([d1 op1] & _ & H).
  apply bindM_inv in H as ([d2 op2] & l1 & l2 & H1 & H & ->).
  assert (Hl1 : l1 = []).
  { destruct txf.
    - destruct (peach_dmemtx d1 inlen op1); [|discriminate]. inversion H1. reflexivity.
    - inversion H1. reflexivity. }
  subst l1. cbn [app].
  destruct (land_7_cases op2) as [E|[E|[E|[E|[E|[E|[E|E]]]]]]]; rewrite E in H;
    cbv beta iota zeta in H;
    apply bindM_inv in H as (out & la & lb & Hh & Hr & ->);
    apply hash_input_one in Hh; apply retM_inv in Hr as [_ ->];
    rewrite length_app, Hh; reflexivity.
Qed.

Lemma fill_rows_count (n : nat) (index : Z) (done row tile : list Z)
    (l : list hash_call) :
  fill_rows digest n index done row = Some (tile, l) -> length l = n.
Proof.
  revert done row l. induction n as [|n IH]; intros done row l H; cbn [fill_rows] in H.
  - apply retM_inv in H as [_ ->]. reflexivity.
  - apply bindM_inv in H as ([row' next] & l1 & l2 & H1 & H2 & ->).
    apply peach_nighthash_one in H1. apply IH in H2.
    rewrite length_app, H1, H2. reflexivity.
Qed.

(** A tile costs 32 hashes. *)
Lemma gen_tile_count (phash : list Z) (index : Z) (tile : list Z) (l : list hash_call) :
  gen_tile digest phash index = Some (tile, l) -> length l = 32%nat.
Proof.
  unfold gen_tile. intros H.
  apply bindM_inv in H as ([seed' row] & l1 & l2 & H1 & H2 & ->).
  apply peach_nighthash_one in H1. apply fill_rows_count in H2.
  rewrite length_app, H1, H2. reflexivity.
Qed.

Lemma peach_next_count (index : Z) (tile nonce : list Z) (v : Z) (l : list hash_call) :
  peach_next digest index tile nonce = Some (v, l) -> length l = 1%nat.
Proof.
  unfold peach_next. intros H.
  apply bindM_lift_inv in H as (n & _ & H).
  apply bindM_lift_inv in H as (t & _ & H).
  apply bindM_inv in H as ([s hash] & l1 & l2 & H1 & H2 & ->).
  apply peach_nighthash_one in H1.
  apply bindM_lift_inv in H2 as (w & _ & H2). apply retM_inv in H2 as [_ ->].
  rewrite length_app, H1. reflexivity.
Qed.

(** [peach_gen] runs 32 hashes, or none for a cached tile; without map
    and cache it runs 32 and sets up neither. *)
Lemma peach_gen_count (P : PEACH_ALGO) (index : Z) (r : tileref) (P' : PEACH_ALGO)
    (l : list hash_call) :
  peach_gen digest P index = Some ((r, P'), l) ->
  (length l = 0%nat \/ length l = 32%nat) /\
  (p_map P = None -> p_cache P = None ->
   length l = 32%nat /\ p_map P' = None /\ p_cache P' = None).
Proof.
  unfold peach_gen. intros H.
  apply bindM_lift_inv in H as (cached & Hc & H).
  destruct cached.
  - apply retM_inv in H as [_ ->]. split; [left; reflexivity|].
    intros _ Hn. rewrite Hn in Hc. discriminate.
  - apply bindM_lift_inv in H as (bt & _ & H).
    apply bindM_lift_inv in H as (phash & _ & H).
    destruct (p_map P) as [m|] eqn:Hm.
    + apply bindM_lift_inv in H as (c & _ & H).
      apply bindM_lift_inv in H as (c' & _ & H).
      apply bindM_inv in H as (tile & l1 & l2 & H1 & H2 & ->).
      apply gen_tile_count in H1.
      apply bindM_lift_inv in H2 as (m' & _ & H2). apply retM_inv in H2 as [_ ->].
      rewrite length_app, H1. split; [right; reflexivity | discriminate].
    + apply bindM_inv in H as (tile & l1 & l2 & H1 & H2 & ->).
      apply gen_tile_count in H1.
      apply bindM_lift_inv in H2 as (tile' & _ & H2). apply retM_inv in H2 as [E ->].
      inversion E; subst r P'. rewrite length_app, H1.
      split; [right; reflexivity|]. intros _ Hn. cbn [p_map p_cache]. auto.
Qed.

(** A walk of [n] jumps runs a hash for each jump and 32 more for each
    tile that is not cached. *)
Lemma peach_jump_count (n : nat) (P : PEACH_ALGO) (mario : Z) (tilep : tileref)
    (nonce : list Z) (r : tileref) (P' : PEACH_ALGO) (l : list hash_call) :
  peach_jump digest n P mario tilep nonce = Some ((r, P'), l) ->
  (n <= length l <= 33 * n)%nat /\
  (p_map P = None -> p_cache P = None -> length l = (33 * n)%nat).
Proof.
  revert P mario tilep l. induction n as [|n IH]; intros P mario tilep l H;
    cbn [peach_jump] in H.
  - apply retM_inv in H as [_ ->]. cbn [length]. split; [lia | reflexivity].
  - apply bindM_lift_inv in H as (t & _ & H).
    apply bindM_inv in H as (v & l1 & l2 & H1 & H & ->).
    apply peach_next_count in H1.
    apply bindM_inv in H as ([r1 P1] & l3 & l4 & H2 & H3 & ->).
    apply peach_gen_count in H2 as [Hg Hgn]. apply IH in H3 as [Hj Hjn].
    rewrite !length_app, H1. split; [lia|].
    intros Hm Hc. destruct (Hgn Hm Hc) as (E & Hm1 & Hc1).
    rewrite E, (Hjn Hm1 Hc1). lia.
Qed.

Lemma hash_final_inv {B : Type} (ctx : hash_ctx) (f : list Z -> M B) (b : B)
    (l : list hash_call) :
  bindM (hash_final digest ctx) f = Some (b, l) ->
  exists l2, f (digest (ctx_algo ctx) (ctx_msg ctx)) = Some (b, l2) /\
             l = (ctx_algo ctx, ctx_msg ctx) :: l2.
Proof.
  intros H. apply bindM_inv in H as (a & l1 & l2 & H1 & H2 & ->).
  unfold hash_final in H1. inversion H1; subst. exists l2. auto.
Qed.

(** What [peach_checkhash] costs, when it returns. *)
Lemma peach_checkhash_count (bt : list Z) (out : option (list Z))
    (res : Z * option (list Z)) (l : list hash_call) :
  peach_checkhash digest bt out = Some (res, l) ->
  (l = [] /\ fst res = 0 /\
   (trigg_syntax (take 16 (drop 92 bt)) = Some 0 \/
    trigg_syntax (take 16 (drop 108 bt)) = Some 0)) \/
  length l = 298%nat.
Proof.
  unfold peach_checkhash. intros H.
  apply bindM_lift_inv in H as (n1 & Hn1 & H). apply load_bytes_inv in Hn1 as [-> _].
  apply bindM_lift_inv in H as (s1 & Hs1 & H).
  destruct (Z.eqb_spec s1 0) as [->|_].
  { apply retM_inv in H as [-> ->]. left.
    split; [reflexivity|]. split; [reflexivity|]. left. exact Hs1. }
  apply bindM_lift_inv in H as (n2 & Hn2 & H). apply load_bytes_inv in Hn2 as [-> _].
  apply bindM_lift_inv in H as (s2 & Hs2 & H).
  destruct (Z.eqb_spec s2 0) as [->|_].
  { apply retM_inv in H as [-> ->]. left.
    split; [reflexivity|]. split; [reflexivity|]. right. exact Hs2. }
  right.
  apply bindM_lift_inv in H as (known & _ & H).
  apply hash_final_inv in H as (l0 & H & ->).
  apply bindM_lift_inv in H as (mario & _ & H).
  apply bindM_lift_inv in H as (nonce & _ & H).
  apply bindM_inv in H as ([r1 P1] & l1 & l2 & H1 & H & ->).
  apply peach_gen_count in H1 as [_ H1].
  destruct (H1 eq_refl eq_refl) as (E1 & Hm1 & Hc1).
  apply bindM_inv in H as ([r2 P2] & l3 & l4 & H2 & H & ->).
  apply peach_jump_count in H2 as [_ H2]. specialize (H2 Hm1 Hc1).
  apply bindM_lift_inv in H as (h & _ & H).
  apply bindM_lift_inv in H as (t & _ & H).
  apply hash_final_inv in H as (l5 & H & ->).
  apply bindM_lift_inv in H as (o & _ & H).
  apply bindM_lift_inv in H as (d & _ & H).
  apply bindM_lift_inv in H as (r & _ & H).
  apply retM_inv in H as [_ ->].
  cbn [length]. rewrite !length_app, E1, H2. cbn [length]. unfold PEACH_JUMP. lia.
Qed.

(** What one attempt of the search costs, when it returns. *)
Lemma generate_attempt_count (P : PEACH_ALGO) (out : list Z)
    (res : Z * list Z * PEACH_ALGO) (l : list hash_call) :
  generate_attempt digest P out = Some (res, l) ->
  (10 <= length l <= 298)%nat.
Proof.
  unfold generate_attempt. intros H.
  apply bindM_lift_inv in H as (bt & _ & H).
  apply bindM_lift_inv in H as (known & _ & H).
  apply bindM_lift_inv in H as (nonce & _ & H).
  apply hash_final_inv in H as (l0 & H & ->).
  apply bindM_lift_inv in H as (mario & _ & H).
  apply bindM_inv in H as ([r1 P1] & l1 & l2 & H1 & H & ->).
  apply peach_gen_count in H1 as [H1 _].
  apply bindM_inv in H as ([r2 P2] & l3 & l4 & H2 & H & ->).
  apply peach_jump_count in H2 as [H2 _].
  apply bindM_lift_inv in H as (h & _ & H).
  apply bindM_lift_inv in H as (t & _ & H).
  apply hash_final_inv in H as (l5 & H & ->).
  apply bindM_lift_inv in H as (r & _ & H).
  assert (Hl5 : l5 = []).
  { destruct (negb (r =? 0)).
    - apply bindM_lift_inv in H as (o & _ & H). apply retM_inv in H as [_ ->]. reflexivity.
    - apply retM_inv in H as [_ ->]. reflexivity. }
  subst l5. cbn [length]. rewrite !length_app. cbn [length].
  unfold PEACH_JUMP in H2. lia.
Qed.

Hypothesis digest_len : forall a m, length (digest a m) = digest_size a.

(** X23.  [peach_checkhash] on a trailer of 160 bytes returns, having run
    no hash when a half of the nonce fails [trigg_syntax], and 298 hashes
    otherwise: two SHA-256, 32 hashes for each of the 9 tiles of the walk,
    which a verifier generates anew, and one for each of the 8 jumps. *)
Theorem peach_checkhash_cost (bt : list Z) (out : option (list Z)) :
  length bt = 160%nat -> bytes bt ->
  (forall o, out = Some o -> (32 <= length o)%nat) ->
  exists res calls,
    peach_checkhash digest bt out = Some (res, calls) /\
    (trigg_syntax (take 16 (drop 92 bt)) = Some 0 \/
     trigg_syntax (take 16 (drop 108 bt)) = Some 0 -> calls = []) /\
    (trigg_syntax (take 16 (drop 92 bt)) = Some 1 ->
     trigg_syntax (take 16 (drop 108 bt)) = Some 1 -> length calls = 298%nat).
Proof.
  intros Hlen Hb Hout.
  assert (Hb1 : bytes (take 16 (drop 92 bt))) by (apply Forall_take, Forall_drop; exact Hb).
  assert (Hl1 : length (take 16 (drop 92 bt)) = MAXH)
    by (rewrite length_take, length_drop, Hlen; reflexivity).
  assert (Hb2 : bytes (take 16 (drop 108 bt))) by (apply Forall_take, Forall_drop; exact Hb).
  assert (Hl2 : length (take 16 (drop 108 bt)) = MAXH)
    by (rewrite length_take, length_drop, Hlen; reflexivity).
  assert (Hret : exists res calls, peach_checkhash digest bt out = Some (res, calls)).
  { destruct (trigg_syntax_cases _ Hl1 Hb1) as [[H1 _]|[H1 _]];
      [destruct (trigg_syntax_cases _ Hl2 Hb2) as [[H2 _]|[H2 _]]|].
    - destruct (peach_checkhash_returns digest digest_len bt out Hlen H1 H2 Hout)
        as (res & calls & Hc & _). eauto.
    - rewrite (PeachCheck.peach_checkhash_rejects digest bt out Hlen Hb (or_intror H2)).
      eauto.
    - rewrite (PeachCheck.peach_checkhash_rejects digest bt out Hlen Hb (or_introl H1)).
      eauto. }
  destruct Hret as (res & calls & Hc). exists res, calls. split; [exact Hc|].
  split.
  - intros Hfail.
    rewrite (PeachCheck.peach_checkhash_rejects digest bt out Hlen Hb Hfail) in Hc.
    inversion Hc. reflexivity.
  - intros H1 H2.
    destruct (peach_checkhash_count bt out res calls Hc) as [(_ & _ & [H0|H0])|E];
      [congruence | congruence | exact E].
Qed.

(** X24.  One attempt of [peach_generate] on a context in use runs
    between 10 and 298 hashes: two SHA-256 and one hash for each of the 8
    jumps, and 32 more for each of the 9 tiles that is not in the map
    yet. *)
Theorem peach_generate_cost (bt : list Z) (P : PEACH_ALGO) (out : list Z)
    (fuel : nat) (seed : Z) :
  length bt = 160%nat -> peach_in_use digest bt P -> (32 <= length out)%nat ->
  (ENOUGH <= fuel)%nat ->
  exists res calls,
    peach_generate digest P out fuel seed = Some (res, calls) /\
    (10 <= length calls <= 298)%nat.
Proof.
  intros Hlen Hin Hout Hfuel.
  destruct (TriggRandom.trigg_gen_total fuel seed Hfuel) as (haiku & seed' & Hgen).
  destruct (PeachMining.peach_generate_runs digest digest_len bt P out fuel seed
              haiku seed' Hlen Hin Hout Hgen) as (r & out' & P' & calls & Hrun).
  eexists _, calls. split; [exact Hrun|].
  destruct Hin as (_ & _ & _ & Hn & _).
  rewrite (PeachMining.peach_generate_advance digest P out fuel seed Hn), Hgen in Hrun.
  apply bindM_inv in Hrun as (res & l1 & l2 & H1 & H2 & ->).
  apply retM_inv in H2 as [_ ->]. rewrite app_nil_r.
  exact (generate_attempt_count _ _ _ _ H1).
Qed.

End WithHash.

Lemma peach_checkhash_cost_witness :
  exists res calls,
    peach_checkhash zero_digest trailer_example None = Some (res, calls) /\
    length calls = 298%nat.
Proof.
  destruct PeachCheck.trailer_example_bytes as [Hlen Hb].
  destruct (peach_checkhash_cost zero_digest PeachCheck.zero_digest_len
              trailer_example None Hlen Hb ltac:(discriminate))
    as (res & calls & Hc & _ & H).
  exists res, calls. split; [exact Hc|].
  apply H; vm_compute; reflexivity.
Defined.

Lemma peach_generate_cost_witness :
  exists res calls,
    peach_generate zero_digest miner_example (repeat 0 32) ENOUGH 1 = Some (res, calls) /\
    (10 <= length calls <= 298)%nat.
Proof.
  destruct PeachCheck.trailer_example_bytes as [Hlen Hb].
  apply (peach_generate_cost zero_digest PeachCheck.zero_digest_len trailer_example).
  - exact Hlen.
  - exact PeachMining.miner_example_in_use.
  - vm_compute. lia.
  - apply Nat.le_refl.
Defined.

End PeachCost.

(** * The period of the random number generator *)

Module TriggPeriod.
Import Trigg TriggPow TriggRef MoreRef TriggSpec TriggRandom.

Lemma seed_after_lcg (n : nat) (s : Z) : seed_after n s = Nat.iter n lcg s.
Proof.
  unfold seed_after. induction n as [|n IH]; [reflexivity|].
  rewrite !Nat.iter_succ, IH, trigg_rand_lcg. reflexivity.
Qed.

(** Every positive number is a power of two times an odd number. *)
Lemma odd_part (n : nat) :
  (0 < n)%nat -> exists k m, n = (m * 2 ^ k)%nat /\ Nat.odd m = true.
Proof.
  induction n as [n IH] using lt_wf_ind. intros Hn.
  destruct (Nat.odd n) eqn:Ho.
  - exists 0%nat, n. split; [cbn [Nat.pow]; lia | exact Ho].
  - assert (He : Nat.even n = true) by (rewrite <- Nat.negb_odd, Ho; reflexivity).
    apply Nat.even_spec in He as [h Hh].
    destruct (IH h ltac:(lia) ltac:(lia)) as (k & m & Hkm & Hm).
    exists (S k), m. split; [|exact Hm].
    rewrite Nat.pow_succ_r'. lia.
Qed.

Lemma period_facts (k : nat) :
  (k < 32)%nat ->
  ((lcg_pow k).1 - 1) mod 2 ^ (Z.of_nat k + 1) = 0 /\
  (lcg_pow k).2 mod 2 ^ (Z.of_nat k + 1) = 2 ^ Z.of_nat k.
Proof.
  intros Hk. assert (Hc : period_check = true) by (vm_compute; reflexivity).
  unfold period_check in Hc. rewrite forallb_forall in Hc.
  specialize (Hc k ltac:(apply in_seq; lia)).
  destruct (lcg_pow k) as [a c]. cbn [fst snd].
  apply andb_true_iff in Hc as [H1 H2].
  apply Z.eqb_eq in H1, H2. auto.
Qed.

(** [m] times [2^k] steps move the seed by [m * 2^k] modulo [2^(k+1)]. *)
Lemma big_steps (k m : nat) (s : Z) :
  (k < 32)%nat ->
  Nat.iter m (Nat.iter (2 ^ k) lcg) s mod 2 ^ (Z.of_nat k + 1)
  = (s + Z.of_nat m * 2 ^ Z.of_nat k) mod 2 ^ (Z.of_nat k + 1).
Proof.
  intros Hk. destruct (period_facts k Hk) as [Ha Hc].
  set (A := (lcg_pow k).1) in *. set (C := (lcg_pow k).2) in *.
  set (M := 2 ^ Z.of_nat k) in *.
  assert (HM : 0 < M) by (subst M; apply Z.pow_pos_nonneg; lia).
  assert (H2M : 2 ^ (Z.of_nat k + 1) = 2 * M)
    by (subst M; rewrite Z.pow_add_r by lia; lia).
  rewrite H2M in *.
  assert (Hdiv : forall x, (x mod 2 ^ 32) mod (2 * M) = x mod (2 * M)).
  { intros x. apply Z.mod_mod_divide. exists (2 ^ (31 - Z.of_nat k)).
    subst M. rewrite <- Z.pow_succ_r, <- Z.pow_add_r by lia. f_equal. lia. }
  induction m as [|m IH].
  - change (Nat.iter 0 (Nat.iter (2 ^ k) lcg) s) with s. f_equal. lia.
  - rewrite Nat.iter_succ, iter_pow2. fold A C. unfold affine. rewrite Hdiv.
    set (y := Nat.iter m (Nat.iter (2 ^ k) lcg) s) in *.
    apply Z.mod_divide in Ha; [|lia]. destruct Ha as [q Hq].
    rewrite (mod_congr (A * y + C) (y + C) (q * y) (2 * M)) by nia.
    rewrite <- (Z.add_mod_idemp_l y), IH, Z.add_mod_idemp_l by lia.
    rewrite <- (Z.add_mod_idemp_r _ C), Hc by lia.
    f_equal. lia.
Qed.

(** X25.  The seed of [trigg_rand] runs through all [2^32] values before
    it repeats: from the seed that [trigg_srand] sets, [2^32] calls bring
    the seed back, and no smaller positive number of calls does.  Each
    call returns a 16-bit number. *)
Theorem trigg_rand_period (x : Z) :
  let seed := trigg_srand x in
  0 <= fst (trigg_rand seed) < 2 ^ 16 /\
  seed_after (2 ^ 32) seed = seed /\
  forall n, (0 < n)%nat -> Z.of_nat n < 2 ^ 32 -> seed_after n seed <> seed.
Proof.
  intros seed.
  assert (Hs : 0 <= seed < 2 ^ 32)
    by (subst seed; unfold trigg_srand, uint32; apply Z.mod_pos_bound; lia).
  clearbody seed. split; [|split].
  - rewrite trigg_rand_lcg. cbn [fst]. rewrite Z.shiftr_div_pow2 by lia.
    pose proof (Z.mod_pos_bound (seed * 69069 + 262145) (2 ^ 32) ltac:(lia)) as Hb.
    unfold lcg, uint32. split; [apply Z.div_pos; lia|].
    apply Z.div_lt_upper_bound; lia.
  - rewrite seed_after_lcg, iter_pow2.
    assert (E : lcg_pow 32 = (1, 0)) by (vm_compute; reflexivity).
    rewrite E. cbn [fst snd]. unfold affine.
    rewrite Z.mul_1_l, Z.add_0_r. apply Z.mod_small. exact Hs.
  - intros n Hn Hlt Heq. rewrite seed_after_lcg in Heq.
    destruct (odd_part n Hn) as (k & m & -> & Hm).
    assert (Hk : (k < 32)%nat).
    { rewrite Nat2Z.inj_mul, Nat2Z.inj_pow in Hlt. change (Z.of_nat 2) with 2 in Hlt.
      assert (Hm1 : 1 <= Z.of_nat m) by (destruct m; [discriminate | lia]).
      assert (Hp : 2 ^ Z.of_nat k < 2 ^ 32) by nia.
      apply Z.pow_lt_mono_r_iff in Hp; lia. }
    rewrite iter_mul in Heq.
    pose proof (big_steps k m seed Hk) as Hb. rewrite Heq in Hb.
    set (M := 2 ^ Z.of_nat k) in *.
    assert (HM : 0 < M) by (subst M; apply Z.pow_pos_nonneg; lia).
    assert (H2M : 2 ^ (Z.of_nat k + 1) = 2 * M)
      by (subst M; rewrite Z.pow_add_r by lia; lia).
    rewrite H2M in Hb.
    apply Nat.odd_spec in Hm as [j ->].
    assert (Hd : (Z.of_nat (2 * j + 1) * M) mod (2 * M) = 0).
    { replace (Z.of_nat (2 * j + 1) * M)
        with (seed + Z.of_nat (2 * j + 1) * M - seed) by lia.
      rewrite Zminus_mod, <- Hb, Z.sub_diag. reflexivity. }
    rewrite (mod_congr _ M (Z.of_nat j) (2 * M)) in Hd by lia.
    rewrite Z.mod_small in Hd by lia. lia.
Qed.

Lemma trigg_rand_period_witness :
  seed_after (2 ^ 32) (trigg_srand 1) = trigg_srand 1 /\
  seed_after 3 (trigg_srand 1) <> trigg_srand 1.
Proof.
  destruct (trigg_rand_period 1) as (_ & H1 & H2).
  split; [exact H1|]. apply H2; lia.
Defined.

End TriggPeriod.

(** * Buffers that are too short *)

Module TriggBounds.
Import Trigg TriggRef MoreRef TriggSpec TriggGrammar TriggExpand.

(** ** trigg_syntax *)

Lemma load_features_short (n j : nat) (np : list Z) :
  (j <= length np)%nat -> (length np < j + n)%nat -> load_features n j np = None.
Proof.
  revert j. induction n as [|n IH]; intros j Hj H; [lia|cbn [load_features]].
  unfold load. destruct (np !! j) as [t|] eqn:Ht; [|reflexivity].
  apply lookup_lt_Some in Ht.
  cbn [mbind option_bind]. destruct (dict t) as [d|]; [|reflexivity].
  cbn [mbind option_bind]. rewrite IH by lia. reflexivity.
Qed.

(** X26.  [trigg_syntax] reads all 16 bytes of the nonce before it looks
    at a frame: on a buffer shorter than 16 bytes it reads outside the
    buffer, wherever the haiku ends. *)
Theorem trigg_syntax_short (T : list Z) :
  (length T < MAXH)%nat -> trigg_syntax T = None.
Proof.
  intros H. unfold trigg_syntax.
  rewrite load_features_short; [reflexivity | lia | exact H].
Qed.

Lemma trigg_syntax_short_witness :
  trigg_syntax [249; 223; 1; 93; 215; 1; 35; 0] = None.
Proof. apply trigg_syntax_short. vm_compute. lia. Defined.

(** ** trigg_expand *)

Lemma copy_tok_inv (w buf : list Z) (bp : nat) (buf' : list Z) (bp' : nat) :
  copy_tok w buf bp = Some (buf', bp') ->
  length buf' = length buf /\ (bp <= bp' <= bp + length w)%nat.
Proof.
  revert buf bp. induction w as [|c w IH]; intros buf bp H; cbn [copy_tok] in H;
    [discriminate|].
  destruct (c =? 0).
  - inversion H; subst. cbn [length]. split; [reflexivity | lia].
  - apply bind_Some in H as (b1 & Hs & H). apply store_inv in Hs as [_ ->].
    apply IH in H as [Hl Hb]. rewrite length_insert in Hl. cbn [length].
    split; [exact Hl | lia].
Qed.

Lemma expand_words_inv (n i : nat) (nonce buf : list Z) (bp : nat)
    (buf' : list Z) (bp' : nat) :
  expand_words n i nonce buf bp = Some (buf', bp') ->
  length buf' = length buf /\ (bp' <= bp + 13 * n)%nat.
Proof.
  revert i buf bp. induction n as [|n IH]; intros i buf bp H; cbn [expand_words] in H.
  - inversion H; subst. split; [reflexivity | lia].
  - apply bind_Some in H as (c & _ & H). destruct (c =? 0).
    + inversion H; subst. split; [reflexivity | lia].
    + apply bind_Some in H as (d & Hd & H).
      apply bind_Some in H as ([buf1 bp1] & H1 & H).
      apply bind_Some in H as (lastc & _ & H).
      apply bind_Some in H as ([buf2 bp2] & H2 & H).
      apply copy_tok_inv in H1 as [L1 B1].
      destruct (tok_shape c d Hd) as [_ Ht]. rewrite Ht in B1.
      assert (L2 : length buf2 = length buf1 /\ (bp2 <= bp1 + 1)%nat).
      { destruct (negb (lastc =? 10)).
        - apply bind_Some in H2 as (b & Hs & H2). apply store_inv in Hs as [_ ->].
          inversion H2; subst. rewrite length_insert. split; [reflexivity | lia].
        - inversion H2; subst. split; [reflexivity | lia]. }
      destruct L2 as [L2 B2]. apply IH in H as [L3 B3].
      split; [congruence | lia].
Qed.

Lemma zero_bytes_inv (k : nat) (buf : list Z) (bp : nat) (buf' : list Z) (bp' : nat) :
  zero_bytes k buf bp = Some (buf', bp') ->
  length buf' = length buf /\ bp' = (bp + k)%nat /\
  ((0 < k)%nat -> (bp + k <= length buf)%nat).
Proof.
  revert buf bp. induction k as [|k IH]; intros buf bp H; cbn [zero_bytes] in H.
  - inversion H; subst. split; [reflexivity|]. split; lia.
  - apply bind_Some in H as (b & Hs & H). apply store_inv in Hs as [Hlt ->].
    apply IH in H as (L & B & R). rewrite length_insert in L, R.
    split; [exact L|]. split; [lia|]. intros _. destruct k; [lia|]. lia.
Qed.

Lemma zero_quads_inv (fuel lbp : nat) (buf : list Z) (bp : nat) (out : list Z) :
  zero_quads fuel lbp buf bp = Some out -> (bp < lbp)%nat -> (lbp <= length buf)%nat.
Proof.
  revert buf bp. induction fuel as [|fuel IH]; intros buf bp H Hlt;
    cbn [zero_quads] in H; (case_decide; [|lia]); [discriminate|].
  apply bind_Some in H as ([buf1 bp1] & H1 & H).
  apply zero_bytes_inv in H1 as (L1 & -> & R1). specialize (R1 ltac:(lia)).
  destruct (decide (bp + 8 < lbp)%nat) as [Hm|Hm].
  - rewrite <- L1. exact (IH _ _ H Hm).
  - lia.
Qed.

(** X27.  [trigg_expand] fills its buffer to byte 255 whatever the haiku:
    on a buffer shorter than 256 bytes it writes outside the buffer. *)
Theorem trigg_expand_short (T haiku : list Z) :
  (length haiku < HAIKUSIZE)%nat -> trigg_expand T haiku = None.
Proof.
  intros Hlen. destruct (trigg_expand T haiku) as [out|] eqn:H; [|reflexivity].
  exfalso. unfold trigg_expand in H.
  apply bind_Some in H as ([buf1 bp1] & H1 & H).
  apply bind_Some in H as ([buf2 bp2] & H2 & H).
  apply expand_words_inv in H1 as [L1 B1].
  apply zero_bytes_inv in H2 as (L2 & -> & _).
  unfold HAIKUSIZE, MAXH in *.
  assert (Hi : (Z.to_nat (Z.land (Z.of_nat 256 - Z.of_nat bp1) 7) <= 7)%nat).
  { change 7 with (Z.ones 3). rewrite Z.land_ones by lia.
    pose proof (Z.mod_pos_bound (Z.of_nat 256 - Z.of_nat bp1) (2 ^ 3) ltac:(lia)). lia. }
  apply zero_quads_inv in H; lia.
Qed.

Lemma trigg_expand_short_witness :
  trigg_expand [249; 223; 1; 93; 215; 1; 35; 0; 0; 0; 0; 0; 0; 0; 0; 0] (repeat 0 255) = None.
Proof. apply trigg_expand_short. vm_compute. lia. Defined.

End TriggBounds.

(** * check and checkhash *)

Module CheckCode.
Import Trigg Peach TriggPow TriggRef PeachRef MoreRef.
Import TriggSpec TriggGrammar PeachNighthash PeachWalk TriggWork.

Section WithHash.

Variable digest : hash_algo -> list Z -> list Z.
Hypothesis digest_len : forall a m, length (digest a m) = digest_size a.

(** X28.  The macros [peach_check] and [trigg_check] call the checkhash
    functions with a null [out].  The code that is returned does not
    depend on [out]: with a buffer for the hash, [peach_checkhash] and
    [trigg_checkhash] return what the macros return. *)
Theorem checkhash_code (T : TRIGG_ALGO) (bt out : list Z) :
  length bt = 160%nat -> bytes bt -> trigg_sized T -> (32 <= length out)%nat ->
  (exists r o, value (peach_checkhash digest bt (Some out)) = Some (r, Some o) /\
               value (peach_checkhash digest bt None) = Some (r, None)) /\
  (exists r o, value (trigg_checkhash digest T bt (Some out)) = Some (r, Some o) /\
               value (trigg_checkhash digest T bt None) = Some (r, None)).
Proof.
  intros Hlen Hb Hs Hout.
  assert (Ho : forall o, Some out = Some o -> (32 <= length o)%nat)
    by (intros o E; inversion E; subst; exact Hout).
  assert (Hn : forall o : list Z, None = Some o -> (32 <= length o)%nat) by discriminate.
  assert (Hb1 : bytes (take 16 (drop 92 bt))) by (apply Forall_take, Forall_drop; exact Hb).
  assert (Hl1 : length (take 16 (drop 92 bt)) = MAXH)
    by (rewrite length_take, length_drop, Hlen; reflexivity).
  assert (Hb2 : bytes (take 16 (drop 108 bt))) by (apply Forall_take, Forall_drop; exact Hb).
  assert (Hl2 : length (take 16 (drop 108 bt)) = MAXH)
    by (rewrite length_take, length_drop, Hlen; reflexivity).
  assert (Hcases : (trigg_syntax (take 16 (drop 92 bt)) = Some 1 /\
                    trigg_syntax (take 16 (drop 108 bt)) = Some 1) \/
                   (trigg_syntax (take 16 (drop 92 bt)) = Some 0 \/
                    trigg_syntax (take 16 (drop 108 bt)) = Some 0)).
  { destruct (trigg_syntax_cases _ Hl1 Hb1) as [[H1 _]|[H1 _]];
      [destruct (trigg_syntax_cases _ Hl2 Hb2) as [[H2 _]|[H2 _]]|].
    - left. split; assumption.
    - right. right. exact H2.
    - right. left. exact H1. }
  destruct Hcases as [[H1 H2]|Hfail]; split.
  - destruct (peach_checkhash_returns digest digest_len bt (Some out) Hlen H1 H2 Ho)
      as ([r o] & calls & -> & hash & d & Hf & _ & Hd & Hev & _ & Hso & _).
    destruct (peach_checkhash_returns digest digest_len bt None Hlen H1 H2 Hn)
      as ([r' o'] & calls' & -> & hash' & d' & Hf' & _ & Hd' & Hev' & _ & Hso' & _).
    cbn [fst snd] in *. rewrite Hf in Hf'. inversion Hf'; subst hash'.
    rewrite Hd in Hd'. inversion Hd'; subst d'.
    rewrite Hev in Hev'. inversion Hev'; subst r' o o'.
    eexists _, _. split; reflexivity.
  - destruct (trigg_checkhash_passed digest digest_len T bt (Some out) Hlen Hb Hs Ho H1 H2)
      as (d & r & Hd & Hev & _ & ->).
    destruct (trigg_checkhash_passed digest digest_len T bt None Hlen Hb Hs Hn H1 H2)
      as (d' & r' & Hd' & Hev' & _ & ->).
    rewrite Hd in Hd'. inversion Hd'; subst d'.
    rewrite Hev in Hev'. inversion Hev'; subst r'.
    eexists _, _. split; reflexivity.
  - rewrite !(PeachCheck.peach_checkhash_rejects digest bt _ Hlen Hb Hfail).
    eexists _, _. split; reflexivity.
  - rewrite !(trigg_checkhash_rejected digest T bt _ Hlen Hb Hfail).
    eexists _, _. split; reflexivity.
Qed.

End WithHash.

Lemma checkhash_code_witness :
  fst <$> value (peach_checkhash zero_digest trailer_example (Some (repeat 9 32)))
  = fst <$> value (peach_checkhash zero_digest trailer_example None) /\
  fst <$> value (trigg_checkhash zero_digest junk_context trailer_example
                   (Some (repeat 9 32)))
  = fst <$> value (trigg_checkhash zero_digest junk_context trailer_example None).
Proof.
  destruct PeachCheck.trailer_example_bytes as [Hlen Hb].
  destruct (checkhash_code zero_digest PeachCheck.zero_digest_len junk_context
              trailer_example (repeat 9 32) Hlen Hb junk_context_sized)
    as [(r & o & -> & ->) (r' & o' & -> & ->)].
  - vm_compute. lia.
  - split; reflexivity.
Defined.

End CheckCode.
